(** * Day 19: the grammar matcher of [day_19/orderby.py]

    A shallow embedding of the parser combinators, the two rule compilers
    (the direct one of part 1 and the memoized one of part 2) and the
    counting driver, followed by the properties of the specification
    that were checked against them.

    Conventions of the embedding.
    - A Python [str] is a [string]; [len] is [String.length].
    - A Python [int] used as a rule number is a [Z]; counters are [nat].
    - A Python [set] of strings is a [gset string].  The only other value
      a parser can return is the literal [{}] of [parser_wrapper], an
      empty [dict]: see [pyval].
    - The closures of the program are first-order data ([parser]); the
      cells they close over ([parser_table] and, per rule, the two tables
      of [parser_wrapper]) live in an explicit [store].
    - Python's call stack is a [fuel] argument: running out of fuel stands
      for a recursion that does not come back.  The recursion limit of the
      interpreter is not modelled; a call that returns for no fuel at all
      is one that ends in a [RecursionError].
    - Characters are [ascii]; the file is taken to be ASCII text.
    - A set that a parser has returned is never changed afterwards
      ([update] is only applied to the fresh [all_matches] of the call at
      hand), so sets are plain values here and sharing plays no part. *)

From Stdlib Require Import Ascii String ZArith Lia.
From stdpp Require Import gmap strings list fin_maps sets relations.

Open Scope string_scope.
Open Scope nat_scope.

(** ** Strings *)

(** [input.startswith(prefix)] *)
Fixpoint startswith (input prefix : string) {struct prefix} : bool :=
  match prefix with
  | EmptyString => true
  | String c prefix' =>
      match input with
      | EmptyString => false
      | String d input' => if Ascii.eqb c d then startswith input' prefix' else false
      end
  end.

(** [input[n:]] *)
Fixpoint slice_from (n : nat) (input : string) : string :=
  match n with
  | O => input
  | S n' => match input with
            | EmptyString => EmptyString
            | String _ input' => slice_from n' input'
            end
  end.

(** [r] is what is left of [s] after some prefix of it. *)
Definition is_suffix (r s : string) : Prop := ∃ consumed, s = consumed +:+ r.

(** ** Values, exceptions, results *)

(** What a parser returns: a set of strings, or the empty dict [{}]. *)
Inductive pyval :=
| PySet (X : gset string)
| PyDict.

Inductive exn :=
| KeyError (n : Z)
| IndexError
| ValueError
| TypeError.

Inductive result (A : Type) :=
| Ok (a : A)
| Raise (e : exn)
| OutOfFuel.
Arguments Ok {A} a.
Arguments Raise {A} e.
Arguments OutOfFuel {A}.

#[global] Instance pyval_eq_dec : EqDecision pyval.
Proof. solve_decision. Defined.
#[global] Instance exn_eq_dec : EqDecision exn.
Proof. solve_decision. Defined.

(** ** Reading the rules *)

(** [s.split(sep)], for a separator [sep] of at least one character.
    [skip] counts the characters of a separator just found that are still
    to be passed over; [current] is the piece being collected. *)
Fixpoint split_go (sep : string) (skip : nat) (current : string) (s : string) : list string :=
  match s with
  | EmptyString => [current]
  | String c s' =>
      match skip with
      | S skip' => split_go sep skip' current s'
      | O =>
          if startswith s sep
          then current :: split_go sep (String.length sep - 1)%nat EmptyString s'
          else split_go sep O (current +:+ String c EmptyString) s'
      end
  end.

Definition split (s sep : string) : list string := split_go sep 0 EmptyString s.

Fixpoint lstrip (chars : list ascii) (s : string) : string :=
  match s with
  | EmptyString => EmptyString
  | String c s' => if bool_decide (c ∈ chars) then lstrip chars s' else s
  end.

(** [s.strip(chars)] *)
Definition strip (chars : list ascii) (s : string) : string :=
  String.rev (lstrip chars (String.rev (lstrip chars s))).

(** The characters [s.strip()] removes, as far as they are ASCII:
    tab, line feed, vertical tab, form feed, carriage return, the four
    separators 28 to 31, and the space. *)
Definition whitespace : list ascii :=
  map ascii_of_nat [9; 10; 11; 12; 13; 28; 29; 30; 31; 32].

(** The quotation mark. *)
Definition quote : ascii := ascii_of_nat 34.

Definition digit_of (c : ascii) : option Z :=
  let k := nat_of_ascii c in
  if bool_decide (48 ≤ k ≤ 57)%nat then Some (Z.of_nat (k - 48)) else None.

(** The digits of a decimal literal, most significant first; one underscore
    may stand between two digits. *)
Fixpoint digits_go (acc : Z) (after_digit : bool) (s : string) : option Z :=
  match s with
  | EmptyString => if after_digit then Some acc else None
  | String c s' =>
      match digit_of c with
      | Some d => digits_go (10 * acc + d) true s'
      | None =>
          if bool_decide (c = ascii_of_nat 95) && after_digit
          then digits_go acc false s'
          else None
      end
  end.

(** [int(s)] on ASCII text: surrounding whitespace, an optional sign,
    decimal digits. *)
Definition py_int (s : string) : result Z :=
  match strip whitespace s with
  | EmptyString => Raise ValueError
  | String c s' =>
      if bool_decide (c = ascii_of_nat 45)
      then match digits_go 0 false s' with
           | Some z => Ok (- z)%Z
           | None => Raise ValueError
           end
      else if bool_decide (c = ascii_of_nat 43)
      then match digits_go 0 false s' with
           | Some z => Ok z
           | None => Raise ValueError
           end
      else match digits_go 0 false (String c s') with
           | Some z => Ok z
           | None => Raise ValueError
           end
  end.

(** [[f(x) for x in xs]], stopping at the first exception. *)
Fixpoint for_each {A B} (f : A → result B) (xs : list A) : result (list B) :=
  match xs with
  | [] => Ok []
  | x :: xs' =>
      match f x with
      | Ok y => match for_each f xs' with
                | Ok ys => Ok (y :: ys)
                | Raise e => Raise e
                | OutOfFuel => OutOfFuel
                end
      | Raise e => Raise e
      | OutOfFuel => OutOfFuel
      end
  end.

(** [lines.index(x)] *)
Fixpoint index (x : string) (lines : list string) : result nat :=
  match lines with
  | [] => Raise ValueError
  | l :: lines' =>
      if bool_decide (l = x) then Ok 0
      else match index x lines' with
           | Ok i => Ok (S i)
           | Raise e => Raise e
           | OutOfFuel => OutOfFuel
           end
  end.

(** [for rest in v]: the elements of a set in the order [order] hands them
    out; nothing for [{}]. *)
Definition iter (order : gset string → list string) (v : pyval) : list string :=
  match v with
  | PySet X => order X
  | PyDict => []
  end.

(** [all_matches.update(v)] *)
Definition update (all_matches : gset string) (v : pyval) : gset string :=
  match v with
  | PySet X => all_matches ∪ X
  | PyDict => all_matches
  end.

(** [a | b]: union of two sets; a set and a dict do not combine; two
    dicts merge (from Python 3.9 on; no property below rests on this
    case). *)
Definition py_or (a b : pyval) : result pyval :=
  match a, b with
  | PySet X, PySet Y => Ok (PySet (X ∪ Y))
  | PyDict, PyDict => Ok PyDict
  | _, _ => Raise TypeError
  end.

(** [s in v] *)
Definition contains (s : string) (v : pyval) : bool :=
  match v with
  | PySet X => bool_decide (s ∈ X)
  | PyDict => false
  end.

(** ** Rules *)

Inductive rule :=
| Terminal (text : string)
| Alternatives (options : list (list Z)).

(** One pass of the loop [for rule_string in rule_strings]: the number of
    the rule and what it is. *)
Definition read_rule (rule_string : string) : result (Z * rule) :=
  let fields := split rule_string ": " in
  match py_int (default EmptyString (fields !! 0)) with
  | Ok n =>
      match fields !! 1 with
      | None => Raise IndexError
      | Some body =>
          if startswith body (String quote EmptyString)
          then Ok (n, Terminal (strip [quote] body))
          else
            match for_each
                    (λ option, for_each (λ part, py_int (strip whitespace part))
                                        (split (strip whitespace option) " "))
                    (split body "|") with
            | Ok options => Ok (n, Alternatives options)
            | Raise e => Raise e
            | OutOfFuel => OutOfFuel
            end
      end
  | Raise e => Raise e
  | OutOfFuel => OutOfFuel
  end.

(** The dict [rules] after the loop over [rule_strings]. *)
Fixpoint read_rules (rule_strings : list string) (rules : gmap Z rule) : result (gmap Z rule) :=
  match rule_strings with
  | [] => Ok rules
  | rule_string :: rule_strings' =>
      match read_rule rule_string with
      | Ok (n, r) => read_rules rule_strings' (<[n := r]> rules)
      | Raise e => Raise e
      | OutOfFuel => OutOfFuel
      end
  end.

(** The [strings] of the input: the lines after the first empty one. *)
Definition strings_of (input_lines : list string) : result (list string) :=
  match index EmptyString input_lines with
  | Ok split => Ok (drop (split + 1)%nat input_lines)
  | Raise e => Raise e
  | OutOfFuel => OutOfFuel
  end.

(** The [rules] of the input: read from the lines before the first empty
    one. *)
Definition rules_of (input_lines : list string) : result (gmap Z rule) :=
  match index EmptyString input_lines with
  | Ok split => read_rules (take split input_lines) ∅
  | Raise e => Raise e
  | OutOfFuel => OutOfFuel
  end.

(** ** Parsers as data, and the store *)

(** The closures the program builds: [match] of [literal], [concat] and
    [alt]; the placeholder [lambda string: parser_table[n](string)]; and
    [parser_wrapper], which closes over the [parser] it guards and over the
    two tables made for rule [n]. *)
Inductive parser :=
| Literal (text : string)
| Concat (lhs rhs : parser)
| Alt (lhs rhs : parser)
| Deferred (n : Z)
| Wrapper (n : Z) (guarded : parser).

Record store := Store {
  parser_table : gmap Z parser;
  parser_memotable : gmap Z (gmap string pyval);
  parser_depthtable : gmap Z (gmap string nat)
}.

Definition empty_store : store := Store ∅ ∅ ∅.

(** The memo table of rule [n]. *)
Definition memo (σ : store) (n : Z) : gmap string pyval :=
  default ∅ (parser_memotable σ !! n).

(** [parser_depthtable[string]] of rule [n]; the table is a
    [defaultdict(lambda: 0)].  Reading a missing key also enters it with
    0; [parser_wrapper] either finds the key present or writes it right
    after, so this entry is not kept apart. *)
Definition depth (σ : store) (n : Z) (str : string) : nat :=
  default 0 (default ∅ (parser_depthtable σ !! n) !! str).

(** [parser_table[n] = p] *)
Definition set_table (n : Z) (p : parser) (σ : store) : store :=
  Store (<[n := p]> (parser_table σ)) (parser_memotable σ) (parser_depthtable σ).

(** [parser_memotable = {}; parser_depthtable = defaultdict(lambda: 0)].
    [get_parser] comes here once per rule at most, for a rule not yet in
    [parser_table], so the tables can go by the number of the rule. *)
Definition new_tables (n : Z) (σ : store) : store :=
  Store (parser_table σ) (<[n := ∅]> (parser_memotable σ)) (<[n := ∅]> (parser_depthtable σ)).

(** [parser_depthtable[string] += 1] *)
Definition incr_depth (n : Z) (str : string) (σ : store) : store :=
  Store (parser_table σ) (parser_memotable σ)
        (<[n := <[str := S (depth σ n str)]> (default ∅ (parser_depthtable σ !! n))]>
           (parser_depthtable σ)).

(** [parser_memotable[string] = v] *)
Definition set_memo (n : Z) (str : string) (v : pyval) (σ : store) : store :=
  Store (parser_table σ) (<[n := <[str := v]> (memo σ n)]> (parser_memotable σ))
        (parser_depthtable σ).

(** ** Computations *)

Definition comp (A : Type) : Type := store → result (A * store).

Definition ret {A} (a : A) : comp A := λ σ, Ok (a, σ).

Definition raise {A} (e : exn) : comp A := λ _, Raise e.

Definition bind {A B} (m : comp A) (k : A → comp B) : comp B :=
  λ σ, match m σ with
       | Ok (a, σ') => k a σ'
       | Raise e => Raise e
       | OutOfFuel => OutOfFuel
       end.

Definition lift {A} (r : result A) : comp A :=
  λ σ, match r with
       | Ok a => Ok (a, σ)
       | Raise e => Raise e
       | OutOfFuel => OutOfFuel
       end.

Notation "'let*' x ':=' m 'in' k" := (bind m (λ x, k))
  (at level 10, x name, m at level 100, k at level 200).

(** A parser at work: from the input string to what is left after a match. *)
Definition matcher : Type := string → comp pyval.

(** ** The parser creators *)

Section Combinators.

(** The order in which Python walks through a set is not fixed by the
    language. *)
Variable order : gset string → list string.

Definition literal (text : string) : matcher :=
  λ input,
    if startswith input text
    then ret (PySet {[ slice_from (String.length text) input ]})
    else ret (PySet ∅).

(** The loop [for rest in lhs_matches: all_matches.update(rhs(rest))]. *)
Fixpoint for_rest (rhs : matcher) (rests : list string) (all_matches : gset string)
  : comp (gset string) :=
  match rests with
  | [] => ret all_matches
  | rest :: rests' =>
      let* matches := rhs rest in
      for_rest rhs rests' (update all_matches matches)
  end.

Definition concat (lhs rhs : matcher) : matcher :=
  λ input,
    let* lhs_matches := lhs input in
    let* all_matches := for_rest rhs (iter order lhs_matches) ∅ in
    ret (PySet all_matches).

Definition alt (lhs rhs : matcher) : matcher :=
  λ input,
    let* l := lhs input in
    let* r := rhs input in
    lift (py_or l r).

(** ** The guard of part 2 *)

(** [parser_wrapper] of rule [n], guarding [parser]. *)
Definition parser_wrapper (n : Z) (parser : matcher) : matcher :=
  λ str σ,
    match memo σ n !! str with
    | Some v => Ok (v, σ)
    | None =>
        if (String.length str + 1 <? depth σ n str)%nat
        then Ok (PyDict, σ)
        else
          match parser str (incr_depth n str σ) with
          | Ok (v, σ') => Ok (v, set_memo n str v σ')
          | Raise e => Raise e
          | OutOfFuel => OutOfFuel
          end
    end.

(** Calling a closure. *)
Fixpoint call (fuel : nat) (p : parser) : matcher :=
  match fuel with
  | O => λ _ _, OutOfFuel
  | S fuel' =>
      match p with
      | Literal text => literal text
      | Concat lhs rhs => concat (call fuel' lhs) (call fuel' rhs)
      | Alt lhs rhs => alt (call fuel' lhs) (call fuel' rhs)
      | Deferred n =>
          λ str σ,
            match parser_table σ !! n with
            | Some q => call fuel' q str σ
            | None => Raise (KeyError n)
            end
      | Wrapper n guarded => parser_wrapper n (call fuel' guarded)
      end
  end.

(** ** The compilers *)

Section Compilers.

Variable rules : gmap Z rule.

(** The loop of [make_concat]. *)
Fixpoint make_concat_loop (get : Z → comp parser) (p : parser) (parts : list Z)
  : comp parser :=
  match parts with
  | [] => ret p
  | part :: parts' =>
      let* q := get part in
      make_concat_loop get (Concat p q) parts'
  end.

Definition make_concat (get : Z → comp parser) (parts : list Z) : comp parser :=
  match parts with
  | [] => raise IndexError
  | part :: parts' =>
      let* p := get part in
      make_concat_loop get p parts'
  end.

(** The loop [for alt_rule in rule[1:]]. *)
Fixpoint alt_loop (get : Z → comp parser) (p : parser) (alts : list (list Z))
  : comp parser :=
  match alts with
  | [] => ret p
  | alt_rule :: alts' =>
      let* q := make_concat get alt_rule in
      alt_loop get (Alt p q) alts'
  end.

(** The body shared by [get_parser_p1] and [get_parser_part2]: the two
    functions differ only in the name each uses to call itself, here
    [get]. *)
Definition translate (get : Z → comp parser) (n : Z) : comp parser :=
  match rules !! n with
  | None => raise (KeyError n)
  | Some (Terminal text) => ret (Literal text)
  | Some (Alternatives rule) =>
      match rule with
      | [] => raise IndexError
      | parts :: alts =>
          let* p := make_concat get parts in
          alt_loop get p alts
      end
  end.

Fixpoint get_parser_p1 (fuel : nat) (n : Z) : comp parser :=
  match fuel with
  | O => λ _, OutOfFuel
  | S fuel' => translate (get_parser_p1 fuel') n
  end.

(** [get_parser] of [parser_memoize(f)]. *)
Definition get_parser (f : Z → comp parser) (n : Z) : comp parser :=
  λ σ,
    match parser_table σ !! n with
    | Some p => Ok (p, σ)
    | None =>
        match f n (set_table n (Deferred n) σ) with
        | Ok (p, σ') => Ok (Wrapper n p, new_tables n (set_table n p σ'))
        | Raise e => Raise e
        | OutOfFuel => OutOfFuel
        end
    end.

(** The decorated [get_parser_part2]: inside its body the name
    [get_parser_part2] is the memoized function. *)
Fixpoint get_parser_part2 (fuel : nat) (n : Z) : comp parser :=
  match fuel with
  | O => λ _, OutOfFuel
  | S fuel' => get_parser (translate (get_parser_part2 fuel')) n
  end.

End Compilers.

(** ** The driver *)

(** The loop [for s in input_lines], with [match_count] so far. *)
Fixpoint count_matches (parser : matcher) (lines : list string) (match_count : nat)
  : comp nat :=
  match lines with
  | [] => ret match_count
  | s :: lines' =>
      let* matches := parser s in
      count_matches parser lines'
        (if contains "" matches then S match_count else match_count)
  end.

(** Part 1: compile rule 0 directly, count over [input_lines]. *)
Definition part1 (fuel : nat) (rules : gmap Z rule) (input_lines : list string) : result nat :=
  match get_parser_p1 rules fuel 0 empty_store with
  | Ok (p, σ) =>
      match count_matches (call fuel p) input_lines 0 σ with
      | Ok (match_count, _) => Ok match_count
      | Raise e => Raise e
      | OutOfFuel => OutOfFuel
      end
  | Raise e => Raise e
  | OutOfFuel => OutOfFuel
  end.

(** [rules[8] = [[42], [42, 8]]; rules[11] = [[42, 31], [42, 11, 31]]] *)
Definition part2_rules (rules : gmap Z rule) : gmap Z rule :=
  <[11%Z := Alternatives [[42%Z; 31%Z]; [42%Z; 11%Z; 31%Z]]]>
    (<[8%Z := Alternatives [[42%Z]; [42%Z; 8%Z]]]> rules).

(** Part 2: compile rule 0 with the memoized compiler, count in the same
    way. *)
Definition part2 (fuel : nat) (rules : gmap Z rule) (input_lines : list string) : result nat :=
  match get_parser_part2 rules fuel 0 empty_store with
  | Ok (p, σ) =>
      match count_matches (call fuel p) input_lines 0 σ with
      | Ok (match_count, _) => Ok match_count
      | Raise e => Raise e
      | OutOfFuel => OutOfFuel
      end
  | Raise e => Raise e
  | OutOfFuel => OutOfFuel
  end.

(** The whole script on the lines of its input file: the two numbers it
    prints. *)
Definition script (fuel : nat) (input_lines : list string) : result (nat * nat) :=
  match rules_of input_lines with
  | Ok rules =>
      match part1 fuel rules input_lines with
      | Ok p1 =>
          match part2 fuel (part2_rules rules) input_lines with
          | Ok p2 => Ok (p1, p2)
          | Raise e => Raise e
          | OutOfFuel => OutOfFuel
          end
      | Raise e => Raise e
      | OutOfFuel => OutOfFuel
      end
  | Raise e => Raise e
  | OutOfFuel => OutOfFuel
  end.

(** The parsers made of [literal], [concat] and [alt] alone. *)
Inductive combinator_built : matcher → Prop :=
| built_literal text : combinator_built (literal text)
| built_concat lhs rhs :
    combinator_built lhs → combinator_built rhs → combinator_built (concat lhs rhs)
| built_alt lhs rhs :
    combinator_built lhs → combinator_built rhs → combinator_built (alt lhs rhs).

End Combinators.

(** Compile rule [n] with the compiler of part 1 and call what comes back
    on [s]. *)
Definition match_p1 (order : gset string → list string) (rules : gmap Z rule)
           (fuel : nat) (n : Z) (s : string) : result (pyval * store) :=
  match get_parser_p1 rules fuel n empty_store with
  | Ok (p, σ) => call order fuel p s σ
  | Raise e => Raise e
  | OutOfFuel => OutOfFuel
  end.

(** Compile rule [n] with the memoized compiler, from an empty parser
    table, and call what comes back on [s]. *)
Definition match_part2 (order : gset string → list string) (rules : gmap Z rule)
           (fuel : nat) (n : Z) (s : string) : result (pyval * store) :=
  match get_parser_part2 rules fuel n empty_store with
  | Ok (p, σ) => call order fuel p s σ
  | Raise e => Raise e
  | OutOfFuel => OutOfFuel
  end.

(** ** Notions used to state the properties *)

(** A parser that returns, without effect and without fail, a set of
    suffixes of its input. *)
Definition returns_suffixes (m : matcher) : Prop :=
  ∀ input σ, ∃ X, m input σ = Ok (PySet X, σ) ∧ ∀ r, r ∈ X → is_suffix r input.

(** [m'] does what [m] does wherever [m] does not run out of fuel. *)
Definition refines {A} (m m' : comp A) : Prop :=
  ∀ σ, m σ ≠ OutOfFuel → m' σ = m σ.

(** The closures in which no placeholder and no guard occurs. *)
Fixpoint combinators_only (p : parser) : Prop :=
  match p with
  | Literal _ => True
  | Concat lhs rhs | Alt lhs rhs => combinators_only lhs ∧ combinators_only rhs
  | Deferred _ | Wrapper _ _ => False
  end.

(** A [get] that hands out closures of combinators only and does not touch
    the store. *)
Definition plain (get : Z → comp parser) : Prop :=
  ∀ n σ p σ', get n σ = Ok (p, σ') → combinators_only p ∧ σ' = σ.

(** How deep the calls inside a closure nest, placeholders apart. *)
Fixpoint height (p : parser) : nat :=
  match p with
  | Literal _ | Deferred _ => 1
  | Concat lhs rhs | Alt lhs rhs => S (height lhs `max` height rhs)
  | Wrapper _ guarded => S (height guarded)
  end.


(** What is left after [f] and then [g]. *)
Definition then_set (f g : string → gset string) (input : string) : gset string :=
  set_bind g (f input).

(** [m] is a function of its input: it returns the set [f input], raises
    nothing and leaves the store as it finds it. *)
Definition computes (m : matcher) (f : string → gset string) : Prop :=
  ∀ input σ, m input σ = Ok (PySet (f input), σ).

(** [m] is a function of its input as far as its result goes: called in a
    store that is [I], it returns the set [f input] and leaves a store that
    is [I] (the memo tables may have grown). *)
Definition computes_within (I : store → Prop) (m : matcher)
           (f : string → gset string) : Prop :=
  ∀ input σ, I σ → ∃ σ', m input σ = Ok (PySet (f input), σ') ∧ I σ'.

(** What [literal(t)] leaves of [s], as a set. *)
Definition literal_set (t s : string) : gset string :=
  if startswith s t then {[ slice_from (String.length t) s ]} else ∅.

(** ** Grammars without recursion *)

(** Rule [n] refers to rule [m]: [m] stands in one of the options of [n]. *)
Definition references (rules : gmap Z rule) (n m : Z) : Prop :=
  ∃ options parts,
    rules !! n = Some (Alternatives options) ∧ parts ∈ options ∧ m ∈ parts.

(** No rule refers to itself, not even by way of other rules. *)
Definition acyclic (rules : gmap Z rule) : Prop :=
  ∀ n, ¬ tc (references rules) n n.

(** Every rule referred to is there. *)
Definition closed (rules : gmap Z rule) : Prop :=
  ∀ n m, references rules n m → is_Some (rules !! m).

(** Every rule that is not a text has an option, and every option a part,
    as in the rules read from a file. *)
Definition options_nonempty (rules : gmap Z rule) : Prop :=
  ∀ n options, rules !! n = Some (Alternatives options) →
               options ≠ [] ∧ ∀ parts, parts ∈ options → parts ≠ [].

(** A closure with its guards taken off. *)
Fixpoint erase (p : parser) : parser :=
  match p with
  | Literal text => Literal text
  | Concat lhs rhs => Concat (erase lhs) (erase rhs)
  | Alt lhs rhs => Alt (erase lhs) (erase rhs)
  | Deferred n => Deferred n
  | Wrapper _ guarded => erase guarded
  end.

(** The rules whose guards occur in a closure. *)
Fixpoint keys (p : parser) : gset Z :=
  match p with
  | Literal _ | Deferred _ => ∅
  | Concat lhs rhs | Alt lhs rhs => keys lhs ∪ keys rhs
  | Wrapper n guarded => {[ n ]} ∪ keys guarded
  end.

Fixpoint size_of (p : parser) : nat :=
  match p with
  | Literal _ | Deferred _ => 1
  | Concat lhs rhs | Alt lhs rhs => S (size_of lhs + size_of rhs)
  | Wrapper _ guarded => S (size_of guarded)
  end.

(** A closure without placeholders in which every guard guards what the
    parser table holds for its rule. *)
Fixpoint settled (σ : store) (p : parser) : Prop :=
  match p with
  | Literal _ => True
  | Concat lhs rhs | Alt lhs rhs => settled σ lhs ∧ settled σ rhs
  | Deferred _ => False
  | Wrapper n guarded => parser_table σ !! n = Some guarded ∧ settled σ guarded
  end.

(** What each string leaves behind under a closure, were no guard ever to
    cut off: the meaning the combinators give it. *)
Fixpoint denote (p : parser) (s : string) : gset string :=
  match p with
  | Literal text => literal_set text s
  | Concat lhs rhs => set_bind (denote rhs) (denote lhs s)
  | Alt lhs rhs => denote lhs s ∪ denote rhs s
  | Deferred _ => ∅
  | Wrapper _ guarded => denote guarded s
  end.

(** The tables of rule [n] say nothing wrong about [q]: what is memoized
    for a string is what [q] leaves of it, and a string not memoized has
    not been counted. *)
Definition tables_agree (σ : store) (n : Z) (q : parser) : Prop :=
  ∀ s, match memo σ n !! s with
       | Some v => v = PySet (denote q s)
       | None => depth σ n s = 0
       end.

(** The tables of the rules in [K] agree with what the parser table holds
    for them. *)
Definition guards_agree (K : gset Z) (σ : store) : Prop :=
  ∀ n q, n ∈ K → parser_table σ !! n = Some q → tables_agree σ n q.

(** From [σ] to [σ']: the parser table is the same, and so are the tables
    of the rules outside [K]. *)
Definition touches_only (K : gset Z) (σ σ' : store) : Prop :=
  parser_table σ' = parser_table σ
  ∧ ∀ n, n ∉ K → memo σ' n = memo σ n ∧ ∀ s, depth σ' n s = depth σ n s.

(** No guard has been called yet. *)
Definition untouched (σ : store) : Prop :=
  ∀ n s, memo σ n !! s = None ∧ depth σ n s = 0.

(** ** The two compilers side by side *)

(** What is stored for rule [m] is, guards apart, what the compiler of
    part 1 makes of rule [m] whenever it comes back. *)
Definition agrees_with_p1 (rules : gmap Z rule) (m : Z) (q : parser) : Prop :=
  ∀ fuel t σ0 σ0', get_parser_p1 rules fuel m σ0 = Ok (t, σ0') → erase q = t.

(** The store while the memoized compiler is at work on the rules in [V]:
    these have their placeholder in the parser table; every other entry
    of the table is settled and agrees with part 1; no guard has been
    called. *)
Definition compiling (rules : gmap Z rule) (V : gset Z) (σ : store) : Prop :=
  (∀ v, v ∈ V → parser_table σ !! v = Some (Deferred v))
  ∧ (∀ m q, parser_table σ !! m = Some q → m ∉ V →
            settled σ q ∧ agrees_with_p1 rules m q)
  ∧ untouched σ.

(** From [σ] to [σ']: the entries of the rules outside [V] stay. *)
Definition keeps_done (V : gset Z) (σ σ' : store) : Prop :=
  ∀ m q, m ∉ V → parser_table σ !! m = Some q → parser_table σ' !! m = Some q.

(** [c1] returns a closure [t] and leaves every store alone; [c2], run in
    [σ], returns a closure that is [t] under its guards and is [W], in a
    store that is [I] and [R]-after [σ]. *)
Definition simulates (I : store → Prop) (R : store → store → Prop)
           (W : store → parser → Prop) (c1 c2 : comp parser) (σ : store) : Prop :=
  ∃ t p σ', (∀ σ0, c1 σ0 = Ok (t, σ0))
            ∧ c2 σ = Ok (p, σ')
            ∧ erase p = t ∧ W σ' p ∧ I σ' ∧ R σ σ'.

(** ** What the rules derive *)

(** The strings of a rule, as the comment at the head of the script has
    it: a text is "to be matched exactly"; otherwise the rule is a list of
    options, each "a list of rule numbers to match consecutively". *)
Inductive derives (rules : gmap Z rule) : Z → string → Prop :=
| derives_terminal n text :
    rules !! n = Some (Terminal text) → derives rules n text
| derives_alternatives n options parts w :
    rules !! n = Some (Alternatives options) → parts ∈ options →
    derives_seq rules parts w → derives rules n w
with derives_seq (rules : gmap Z rule) : list Z → string → Prop :=
| derives_nil : derives_seq rules [] EmptyString
| derives_cons m ms w1 w2 :
    derives rules m w1 → derives_seq rules ms w2 →
    derives_seq rules (m :: ms) (w1 +:+ w2).

(** The strings a closure stands for: a placeholder and a guard stand for
    their rule. *)
Fixpoint sem (rules : gmap Z rule) (p : parser) (w : string) : Prop :=
  match p with
  | Literal text => w = text
  | Concat lhs rhs => ∃ w1 w2, w = w1 +:+ w2 ∧ sem rules lhs w1 ∧ sem rules rhs w2
  | Alt lhs rhs => sem rules lhs w ∨ sem rules rhs w
  | Deferred n => derives rules n w
  | Wrapper n _ => derives rules n w
  end.

(** A closure in which what each guard guards stands for strings of the
    rule of the guard only. *)
Fixpoint guards_sound (rules : gmap Z rule) (p : parser) : Prop :=
  match p with
  | Literal _ | Deferred _ => True
  | Concat lhs rhs | Alt lhs rhs => guards_sound rules lhs ∧ guards_sound rules rhs
  | Wrapper n guarded =>
      (∀ w, sem rules guarded w → derives rules n w) ∧ guards_sound rules guarded
  end.

(** The strings in a value. *)
Definition members (v : pyval) : gset string :=
  match v with
  | PySet X => X
  | PyDict => ∅
  end.

(** Every string in [v] is what is left of [s] after a string of [L]. *)
Definition remainders_of (L : string → Prop) (s : string) (v : pyval) : Prop :=
  ∀ r, r ∈ members v → ∃ w, L w ∧ s = w +:+ r.

(** A store in which every entry of the parser table stands for strings of
    its rule only, and every memoized value holds remainders of its rule
    only. *)
Definition store_sound (rules : gmap Z rule) (σ : store) : Prop :=
  (∀ n q, parser_table σ !! n = Some q →
          guards_sound rules q ∧ ∀ w, sem rules q w → derives rules n w)
  ∧ (∀ n s v, memo σ n !! s = Some v → remainders_of (derives rules n) s v).

(** A closure that stands for exactly the strings of rule [n], of the
    sequence [ms], of the options [os], and whose guards are sound. *)
Definition stands_for (rules : gmap Z rule) (n : Z) (p : parser) : Prop :=
  guards_sound rules p ∧ ∀ w, sem rules p w ↔ derives rules n w.

Definition stands_for_seq (rules : gmap Z rule) (ms : list Z) (p : parser) : Prop :=
  guards_sound rules p ∧ ∀ w, sem rules p w ↔ derives_seq rules ms w.

Definition stands_for_options (rules : gmap Z rule) (os : list (list Z)) (p : parser)
  : Prop :=
  guards_sound rules p
  ∧ ∀ w, sem rules p w ↔ ∃ parts, parts ∈ os ∧ derives_seq rules parts w.

(** A store in which every entry of the parser table stands for its rule
    and no guard has been called. *)
Definition table_stands (rules : gmap Z rule) (σ : store) : Prop :=
  (∀ n q, parser_table σ !! n = Some q → stands_for rules n q) ∧ untouched σ.

(** What a compiler can raise over [rules]: the [KeyError] of a rule that
    is not there, or the [IndexError] of an empty list of options or of
    parts. *)
Definition compile_error (rules : gmap Z rule) (e : exn) : Prop :=
  (∃ m, e = KeyError m ∧ rules !! m = None)
  ∨ (e = IndexError ∧ ¬ options_nonempty rules).

(** The rules whose placeholders occur in a closure. *)
Fixpoint deferred (p : parser) : gset Z :=
  match p with
  | Literal _ => ∅
  | Concat lhs rhs | Alt lhs rhs => deferred lhs ∪ deferred rhs
  | Deferred n => {[ n ]}
  | Wrapper _ guarded => deferred guarded
  end.

(** A parser table that has an entry for every placeholder in [p], and
    one that has an entry for every placeholder in its entries. *)
Definition bound (T : gmap Z parser) (p : parser) : Prop := deferred p ⊆ dom T.

Definition table_bound (T : gmap Z parser) : Prop :=
  ∀ n q, T !! n = Some q → bound T q.

(** A store in which every memoized value holds suffixes of its string. *)
Definition memo_suffixes (σ : store) : Prop :=
  ∀ n s v r, memo σ n !! s = Some v → r ∈ members v → is_suffix r s.

(** ** Sample inputs *)

(** The text [t] between quotation marks. *)
Definition quoted (t : string) : string := String quote (t +:+ String quote EmptyString).

(** [8: 42 | 42 8] with [42: "a"]. *)
Definition rules_8_42 : gmap Z rule :=
  <[8%Z := Alternatives [[42%Z]; [42%Z; 8%Z]]]> (<[42%Z := Terminal "a"]> ∅).

(** [0: 1] with [1: 0]. *)
Definition rules_0_1 : gmap Z rule :=
  <[0%Z := Alternatives [[1%Z]]]> (<[1%Z := Alternatives [[0%Z]]]> ∅).

(** [0: 1 2] with [1: "a"] and [2: "b"]. *)
Definition rules_a_b : gmap Z rule :=
  <[0%Z := Alternatives [[1%Z; 2%Z]]]>
    (<[1%Z := Terminal "a"]> (<[2%Z := Terminal "b"]> ∅)).

(** An input file whose first line is spelled out by its own rule 0. *)
Definition file_rule_line : list string :=
  ["0: 1 2"; "1: " +:+ quoted "0:"; "2: " +:+ quoted " 1 2"; ""; "x"].

(** The rules it holds. *)
Definition rules_rule_line : gmap Z rule :=
  <[0%Z := Alternatives [[1%Z; 2%Z]]]>
    (<[1%Z := Terminal "0:"]> (<[2%Z := Terminal " 1 2"]> ∅)).

(** An input file in which rule 42 starts with itself. *)
Definition file_left_recursive : list string :=
  ["0: 8"; "8: " +:+ quoted "b"; "42: 42 1 | 1"; "1: " +:+ quoted "a"; ""; "a"].

(** The rules it holds. *)
Definition rules_left_recursive : gmap Z rule :=
  <[0%Z := Alternatives [[8%Z]]]>
    (<[8%Z := Terminal "b"]>
       (<[42%Z := Alternatives [[42%Z; 1%Z]; [1%Z]]]> (<[1%Z := Terminal "a"]> ∅))).

(** The closure the memoized compiler leaves in [parser_table[42]] for
    [file_left_recursive]. *)
Definition parser_42 : parser :=
  Alt (Concat (Deferred 42) (Wrapper 1 (Literal "a"))) (Literal "a").

(** What the memoized compiler returns for rule 0 of
    [file_left_recursive], and the store it leaves. *)
Definition parser_0_left_recursive : parser :=
  Wrapper 0 (Wrapper 8 (Alt (Wrapper 42 parser_42) (Concat parser_42 (Deferred 8)))).

Definition store_left_recursive : store :=
  Store
    (<[0%Z := Wrapper 8 (Alt (Wrapper 42 parser_42) (Concat parser_42 (Deferred 8)))]>
       (<[8%Z := Alt (Wrapper 42 parser_42) (Concat parser_42 (Deferred 8))]>
          (<[42%Z := parser_42]> (<[1%Z := Literal "a"]> ∅))))
    (<[0%Z := ∅]> (<[8%Z := ∅]> (<[42%Z := ∅]> (<[1%Z := ∅]> ∅))))
    (<[0%Z := ∅]> (<[8%Z := ∅]> (<[42%Z := ∅]> (<[1%Z := ∅]> ∅)))).

(** An input file in which rule 1 is rule 42 again, or an "a". *)
Definition file_cutoff : list string :=
  ["0: 8"; "8: " +:+ quoted "a"; "42: 1"; "1: 42 | 2"; "2: " +:+ quoted "a"; ""; "a"].

(** * Properties *)

(** ** Strings *)

Lemma app_nil_string (s : string) : EmptyString +:+ s = s.
Proof. reflexivity. Qed.

Lemma app_cons_string (c : ascii) (a b : string) : String c a +:+ b = String c (a +:+ b).
Proof. reflexivity. Qed.

Lemma app_assoc_string (a b c : string) : (a +:+ b) +:+ c = a +:+ (b +:+ c).
Proof.
  induction a as [|x a IH]; [done |].
  rewrite !app_cons_string. by f_equal.
Qed.

Lemma startswith_app (t r : string) : startswith (t +:+ r) t = true.
Proof.
  induction t as [|c t IH]; [done |].
  rewrite app_cons_string. simpl. by rewrite Ascii.eqb_refl.
Qed.

Lemma slice_from_app (t r : string) : slice_from (String.length t) (t +:+ r) = r.
Proof.
  induction t as [|c t IH]; [done |].
  rewrite app_cons_string. simpl. done.
Qed.

Lemma startswith_inv (s t : string) :
  startswith s t = true → s = t +:+ slice_from (String.length t) s.
Proof.
  revert s. induction t as [|c t IH]; intros s; [done |].
  destruct s as [|d s]; [done |]. simpl.
  destruct (Ascii.eqb c d) eqn:E; [| done].
  apply Ascii.eqb_eq in E as ->. intros H.
  rewrite app_cons_string. by rewrite <- (IH s H).
Qed.

Lemma startswith_iff (s t : string) : startswith s t = true ↔ ∃ r, s = t +:+ r.
Proof.
  split.
  - intros H. eexists. by apply startswith_inv.
  - intros [r ->]. apply startswith_app.
Qed.

Lemma is_suffix_refl (s : string) : is_suffix s s.
Proof. by exists EmptyString. Qed.

Lemma is_suffix_trans (r x s : string) : is_suffix r x → is_suffix x s → is_suffix r s.
Proof.
  intros [c1 ->] [c2 ->]. exists (c2 +:+ c1). by rewrite app_assoc_string.
Qed.

Lemma is_suffix_length (r s : string) : is_suffix r s → String.length r ≤ String.length s.
Proof.
  intros [c ->]. induction c as [|x c IH]; [done |].
  rewrite app_cons_string. simpl. lia.
Qed.

(** ** The literal parser *)

(** C6: [literal(t)(s)] is [{s[len(t):]}] when [s] starts with [t] and the
    empty set otherwise, it never raises and leaves the store alone; [s]
    starts with [t] exactly when [s] is [t] followed by some [r], and then
    [s[len(t):]] is that [r]. *)
Theorem literal_matches (t s : string) (σ : store) :
  literal t s σ
  = Ok (PySet (if startswith s t then {[ slice_from (String.length t) s ]} else ∅), σ)
  ∧ (startswith s t = true ↔ ∃ r, s = t +:+ r)
  ∧ (∀ r, slice_from (String.length t) (t +:+ r) = r).
Proof.
  split_and!.
  - unfold literal. by destruct (startswith s t).
  - apply startswith_iff.
  - apply slice_from_app.
Qed.

(** ** Alternatives *)

(** C8: where each of the two parsers returns a set on [input], whatever
    it does to the store within [I], [alt] returns the union of the two
    sets, and so it does with the two parsers exchanged.  With [I] the
    stores equal to [σ], this is the case of parsers without effects, and
    then the store is unchanged as well. *)
Theorem alt_union (I : store → Prop) (a b : matcher) (input : string)
        (σ : store) (A B : gset string) :
  (∀ σ', I σ' → ∃ σ'', a input σ' = Ok (PySet A, σ'') ∧ I σ'') →
  (∀ σ', I σ' → ∃ σ'', b input σ' = Ok (PySet B, σ'') ∧ I σ'') →
  I σ →
  ∃ σ1 σ2, alt a b input σ = Ok (PySet (A ∪ B), σ1)
           ∧ alt b a input σ = Ok (PySet (A ∪ B), σ2)
           ∧ I σ1 ∧ I σ2.
Proof.
  intros Ha Hb Hσ.
  destruct (Ha σ Hσ) as (σa & Ea & Hσa). destruct (Hb σa Hσa) as (σab & Eab & Hσab).
  destruct (Hb σ Hσ) as (σb & Eb & Hσb). destruct (Ha σb Hσb) as (σba & Eba & Hσba).
  exists σab, σba. unfold alt, bind, lift. rewrite Ea, Eab, Eb, Eba. simpl.
  split_and!; try done. by rewrite (union_comm_L B A).
Qed.

Lemma alt_union_witness :
  ∃ σ1 σ2,
    alt (literal "a") (literal "ab") "abc" empty_store
    = Ok (PySet ({[ "bc" ]} ∪ {[ "c" ]}), σ1)
    ∧ alt (literal "ab") (literal "a") "abc" empty_store
      = Ok (PySet ({[ "bc" ]} ∪ {[ "c" ]}), σ2)
    ∧ σ1 = empty_store ∧ σ2 = empty_store.
Proof.
  apply (alt_union (λ σ, σ = empty_store) (literal "a") (literal "ab") "abc"
           empty_store {[ "bc" ]} {[ "c" ]}).
  - intros σ' ->. by exists empty_store.
  - intros σ' ->. by exists empty_store.
  - reflexivity.
Defined.

(** [literal] is a function of its input. *)
Lemma literal_computes (t : string) : computes (literal t) (literal_set t).
Proof. intros s σ. unfold literal, literal_set. by destruct (startswith s t). Qed.

(** The loop of [concat] over a parser that computes [g] while it keeps
    [I] and moves the store along [R]. *)
Lemma for_rest_steps (m : matcher) (g : string → gset string)
      (I : store → Prop) (R : store → store → Prop) :
  (∀ σ, R σ σ) →
  (∀ σ1 σ2 σ3, R σ1 σ2 → R σ2 σ3 → R σ1 σ3) →
  (∀ s σ, I σ → ∃ σ', m s σ = Ok (PySet (g s), σ') ∧ R σ σ' ∧ I σ') →
  ∀ rests acc σ, I σ →
    ∃ σ', for_rest m rests acc σ = Ok (acc ∪ ⋃ (g <$> rests), σ') ∧ R σ σ' ∧ I σ'.
Proof.
  intros Hrefl Htrans Hm rests.
  induction rests as [|x rests IH]; intros acc σ HI; simpl.
  - exists σ. unfold ret. rewrite union_empty_r_L. auto.
  - destruct (Hm x σ HI) as (σ1 & E1 & HR1 & HI1).
    destruct (IH (acc ∪ g x) σ1 HI1) as (σ2 & E2 & HR2 & HI2).
    exists σ2. unfold bind. rewrite E1. simpl. rewrite E2.
    rewrite (assoc_L (∪)). eauto.
Qed.

Lemma computes_within_eq (m : matcher) (f : string → gset string) (σ : store) :
  computes m f → computes_within (λ σ', σ' = σ) m f.
Proof. intros H input σ' ->. by exists σ. Qed.

Section Properties.

Variable order : gset string → list string.

(** Whatever the order, a walk through a set meets each of its elements
    once. *)
Hypothesis order_enumerates : ∀ X, order X ≡ₚ elements X.

Lemma elem_of_order (X : gset string) (x : string) : x ∈ order X ↔ x ∈ X.
Proof. rewrite (order_enumerates X). apply elem_of_elements. Qed.

(** ** Sequences *)

Lemma union_list_order (g : string → gset string) (X : gset string) :
  ⋃ (g <$> order X) = set_bind g X.
Proof.
  apply set_eq. intros r.
  rewrite elem_of_union_list, elem_of_set_bind. split.
  - intros (Y & HY & Hr). apply list_elem_of_fmap in HY as (x & -> & Hx).
    exists x. split; [| done]. by apply elem_of_order.
  - intros (x & Hx & Hr). exists (g x). split; [| done].
    apply list_elem_of_fmap. exists x. split; [done |]. by apply elem_of_order.
Qed.

Lemma concat_computes_within (I : store → Prop) (a b : matcher)
      (f g : string → gset string) :
  computes_within I a f → computes_within I b g →
  computes_within I (concat order a b) (then_set f g).
Proof.
  intros Ha Hb input σ Hσ. destruct (Ha input σ Hσ) as (σ1 & E1 & Hσ1).
  destruct (for_rest_steps b g I (λ _ _, True)) with
    (rests := order (f input)) (acc := (∅ : gset string)) (σ := σ1)
    as (σ2 & E2 & _ & Hσ2); try done.
  - intros s σ' Hσ'. destruct (Hb s σ' Hσ') as (σ'' & ? & ?). by exists σ''.
  - exists σ2. unfold concat, bind. rewrite E1. simpl. rewrite E2.
    unfold ret, then_set. by rewrite union_list_order, union_empty_l_L.
Qed.

Lemma concat_computes (a b : matcher) (f g : string → gset string) :
  computes a f → computes b g → computes (concat order a b) (then_set f g).
Proof.
  intros Ha Hb input σ.
  destruct (concat_computes_within (λ σ', σ' = σ) a b f g) with (input := input) (σ := σ)
    as (σ' & E & ->); by try apply computes_within_eq.
Qed.

Lemma then_set_assoc (f g h : string → gset string) (input : string) :
  then_set (then_set f g) h input = then_set f (then_set g h) input.
Proof.
  unfold then_set. apply set_eq. intros r.
  rewrite !elem_of_set_bind. split.
  - intros (y & Hy & Hr). apply elem_of_set_bind in Hy as (x & Hx & Hy).
    exists x. split; [done |]. apply elem_of_set_bind. eauto.
  - intros (x & Hx & Hr). apply elem_of_set_bind in Hr as (y & Hy & Hr).
    exists y. split; [| done]. apply elem_of_set_bind. eauto.
Qed.

(** C7: for parsers that are functions of their input as far as their
    results go, sequencing is associative: both groupings return the set of
    what [c] leaves of what [b] leaves of what [a] leaves.  With [I] the
    stores equal to [σ], this is the case of parsers without effects, and
    then the store is unchanged as well. *)
Theorem concat_assoc (I : store → Prop) (a b c : matcher)
        (fa fb fc : string → gset string) (input : string) (σ : store) :
  computes_within I a fa → computes_within I b fb → computes_within I c fc →
  I σ →
  ∃ σ1 σ2,
    concat order (concat order a b) c input σ
    = Ok (PySet (set_bind fc (set_bind fb (fa input))), σ1)
    ∧ concat order a (concat order b c) input σ
      = Ok (PySet (set_bind fc (set_bind fb (fa input))), σ2)
    ∧ I σ1 ∧ I σ2.
Proof.
  intros Ha Hb Hc Hσ.
  destruct (concat_computes_within I _ _ _ _
              (concat_computes_within I _ _ _ _ Ha Hb) Hc input σ Hσ) as (σ1 & E1 & Hσ1).
  destruct (concat_computes_within I _ _ _ _
              Ha (concat_computes_within I _ _ _ _ Hb Hc) input σ Hσ) as (σ2 & E2 & Hσ2).
  exists σ1, σ2. rewrite E1, E2, <- then_set_assoc. done.
Qed.

(** ** Remainders are suffixes *)

Lemma literal_suffixes (text : string) : returns_suffixes (literal text).
Proof.
  intros input σ. unfold literal.
  destruct (startswith input text) eqn:E.
  - eexists. split; [done |]. intros r ->%elem_of_singleton.
    exists text. by apply startswith_inv.
  - exists ∅. split; [done |]. intros r Hr. by apply not_elem_of_empty in Hr.
Qed.

Lemma for_rest_suffixes (rhs : matcher) (rests : list string) (input : string)
      (all_matches : gset string) (σ : store) :
  returns_suffixes rhs →
  (∀ x, x ∈ rests → is_suffix x input) →
  (∀ r, r ∈ all_matches → is_suffix r input) →
  ∃ Z, for_rest rhs rests all_matches σ = Ok (Z, σ) ∧ ∀ r, r ∈ Z → is_suffix r input.
Proof.
  intros Hrhs. revert all_matches.
  induction rests as [|x rests IH]; intros acc Hrests Hacc; simpl.
  - by exists acc.
  - destruct (Hrhs x σ) as (Y & HY & HYs). unfold bind. rewrite HY.
    apply IH.
    + intros y Hy. apply Hrests. by right.
    + simpl. intros r [Hr | Hr]%elem_of_union; [by apply Hacc |].
      apply (is_suffix_trans r x); [by apply HYs |]. apply Hrests. by left.
Qed.

Lemma concat_suffixes (lhs rhs : matcher) :
  returns_suffixes lhs → returns_suffixes rhs → returns_suffixes (concat order lhs rhs).
Proof.
  intros Hl Hr input σ. destruct (Hl input σ) as (X & HX & HXs).
  unfold concat, bind. rewrite HX. simpl.
  destruct (for_rest_suffixes rhs (order X) input ∅ σ Hr) as (Z & HZ & HZs).
  - intros x Hx. apply HXs. by apply elem_of_order.
  - intros r Hr'. by apply not_elem_of_empty in Hr'.
  - rewrite HZ. by exists Z.
Qed.

Lemma alt_suffixes (lhs rhs : matcher) :
  returns_suffixes lhs → returns_suffixes rhs → returns_suffixes (alt lhs rhs).
Proof.
  intros Hl Hr input σ.
  destruct (Hl input σ) as (X & HX & HXs). destruct (Hr input σ) as (Y & HY & HYs).
  exists (X ∪ Y). unfold alt, bind, lift. rewrite HX, HY. simpl.
  split; [done |]. intros r [?|?]%elem_of_union; eauto.
Qed.

Lemma combinator_built_suffixes (m : matcher) :
  combinator_built order m → returns_suffixes m.
Proof.
  induction 1; eauto using literal_suffixes, concat_suffixes, alt_suffixes.
Qed.

(** The closures of part 1 are made of the three combinators. *)
Lemma call_combinators_only (p : parser) (fuel : nat) :
  combinators_only p → height p ≤ fuel → combinator_built order (call order fuel p).
Proof.
  revert fuel. induction p as [t | l IHl r IHr | l IHl r IHr | n | n q IH];
    intros fuel Hp Hfuel; simpl in Hp; try done.
  - destruct fuel; [simpl in Hfuel; lia |]. constructor.
  - destruct Hp. destruct fuel; simpl in Hfuel; [lia |].
    simpl. constructor; [apply IHl | apply IHr]; auto; lia.
  - destruct Hp. destruct fuel; simpl in Hfuel; [lia |].
    simpl. constructor; [apply IHl | apply IHr]; auto; lia.
Qed.

End Properties.

Lemma concat_assoc_witness :
  ∃ σ1 σ2,
    concat elements (concat elements (literal "a") (literal "b")) (literal "c")
           "abcd" empty_store
    = Ok (PySet (set_bind (literal_set "c")
                   (set_bind (literal_set "b") (literal_set "a" "abcd"))), σ1)
    ∧ concat elements (literal "a") (concat elements (literal "b") (literal "c"))
             "abcd" empty_store
      = Ok (PySet (set_bind (literal_set "c")
                     (set_bind (literal_set "b") (literal_set "a" "abcd"))), σ2)
    ∧ σ1 = empty_store ∧ σ2 = empty_store.
Proof.
  apply (concat_assoc elements (λ X, Permutation_refl (elements X))
           (λ σ, σ = empty_store) (literal "a") (literal "b") (literal "c")
           (literal_set "a") (literal_set "b") (literal_set "c") "abcd" empty_store
           (computes_within_eq _ _ _ (literal_computes "a"))
           (computes_within_eq _ _ _ (literal_computes "b"))
           (computes_within_eq _ _ _ (literal_computes "c"))
           eq_refl).
Defined.

(** ** What the direct compiler builds *)

Section Direct.

Variable rules : gmap Z rule.

Lemma make_concat_loop_plain get p parts σ p' σ' :
  plain get → combinators_only p →
  make_concat_loop get p parts σ = Ok (p', σ') → combinators_only p' ∧ σ' = σ.
Proof.
  intros Hget. revert p σ. induction parts as [|part parts IH]; intros p σ Hp; simpl.
  - unfold ret. by intros [= <- <-].
  - unfold bind. destruct (get part σ) as [[q σ1]| |] eqn:E; try done.
    destruct (Hget _ _ _ _ E) as [Hq ->]. apply IH. by split.
Qed.

Lemma make_concat_plain get parts σ p' σ' :
  plain get → make_concat get parts σ = Ok (p', σ') → combinators_only p' ∧ σ' = σ.
Proof.
  intros Hget. destruct parts as [|part parts]; simpl; [done |].
  unfold bind. destruct (get part σ) as [[q σ1]| |] eqn:E; try done.
  destruct (Hget _ _ _ _ E) as [Hq ->]. by apply make_concat_loop_plain.
Qed.

Lemma alt_loop_plain get p alts σ p' σ' :
  plain get → combinators_only p →
  alt_loop get p alts σ = Ok (p', σ') → combinators_only p' ∧ σ' = σ.
Proof.
  intros Hget. revert p σ. induction alts as [|alt_rule alts IH]; intros p σ Hp; simpl.
  - unfold ret. by intros [= <- <-].
  - unfold bind. destruct (make_concat get alt_rule σ) as [[q σ1]| |] eqn:E; try done.
    destruct (make_concat_plain _ _ _ _ _ Hget E) as [Hq ->]. apply IH. by split.
Qed.

Lemma translate_plain get n σ p' σ' :
  plain get → translate rules get n σ = Ok (p', σ') → combinators_only p' ∧ σ' = σ.
Proof.
  intros Hget. unfold translate.
  destruct (rules !! n) as [[text | [|parts alts]]|]; try done.
  - unfold ret. by intros [= <- <-].
  - unfold bind. destruct (make_concat get parts σ) as [[q σ1]| |] eqn:E; try done.
    destruct (make_concat_plain _ _ _ _ _ Hget E) as [Hq ->]. by apply alt_loop_plain.
Qed.

Lemma get_parser_p1_plain (fuel : nat) : plain (get_parser_p1 rules fuel).
Proof.
  induction fuel as [|fuel IH]; intros n σ p σ'; simpl; [done |].
  by apply translate_plain.
Qed.

End Direct.

(** C10: a parser made of [literal], [concat] and [alt] returns, whatever
    the store, a set of suffixes of its input, none longer than the input;
    the closures the compiler of part 1 hands out are of this kind. *)
Theorem remainders_are_suffixes (order : gset string → list string) :
  (∀ X, order X ≡ₚ elements X) →
  (∀ m, combinator_built order m →
        ∀ input σ, ∃ X, m input σ = Ok (PySet X, σ)
                        ∧ ∀ r, r ∈ X → is_suffix r input
                                       ∧ String.length r ≤ String.length input)
  ∧ (∀ rules fuel n σ p σ',
        get_parser_p1 rules fuel n σ = Ok (p, σ') →
        ∀ fuel', height p ≤ fuel' →
        ∀ input σ0, ∃ X, call order fuel' p input σ0 = Ok (PySet X, σ0)
                         ∧ ∀ r, r ∈ X → is_suffix r input
                                        ∧ String.length r ≤ String.length input).
Proof.
  intros Horder.
  assert (∀ m, combinator_built order m →
          ∀ input σ, ∃ X, m input σ = Ok (PySet X, σ)
                          ∧ ∀ r, r ∈ X → is_suffix r input
                                         ∧ String.length r ≤ String.length input) as Hbuilt.
  { intros m Hm input σ.
    destruct (combinator_built_suffixes order Horder m Hm input σ) as (X & HX & HXs).
    exists X. split; [done |]. intros r Hr. split; [by apply HXs |].
    apply is_suffix_length. by apply HXs. }
  split; [done |].
  intros rules fuel n σ p σ' Hp fuel' Hfuel. apply Hbuilt.
  apply call_combinators_only; [| done].
  by destruct (get_parser_p1_plain rules fuel n σ p σ' Hp).
Qed.

Lemma remainders_are_suffixes_witness :
  ∃ X, concat elements (literal "a") (alt (literal "b") (literal "bc")) "abcd" empty_store
       = Ok (PySet X, empty_store)
       ∧ ∀ r, r ∈ X → is_suffix r "abcd" ∧ String.length r ≤ String.length "abcd".
Proof.
  apply (proj1 (remainders_are_suffixes elements (λ X, Permutation_refl (elements X)))).
  repeat constructor.
Defined.

(** ** The store *)

Lemma memo_set_memo (n : Z) (s : string) (v : pyval) (σ : store) :
  memo (set_memo n s v σ) n !! s = Some v.
Proof.
  unfold memo, set_memo. simpl. rewrite lookup_insert_eq. simpl.
  by rewrite lookup_insert_eq.
Qed.

Lemma depth_set_memo (n m : Z) (s s' : string) (v : pyval) (σ : store) :
  depth (set_memo n s v σ) m s' = depth σ m s'.
Proof. done. Qed.

Lemma memo_incr_depth (n m : Z) (s : string) (σ : store) :
  memo (incr_depth n s σ) m = memo σ m.
Proof. done. Qed.

Lemma depth_incr_depth (n : Z) (s : string) (σ : store) :
  depth (incr_depth n s σ) n s = S (depth σ n s).
Proof.
  unfold depth at 1. unfold incr_depth. simpl. rewrite lookup_insert_eq. simpl.
  by rewrite lookup_insert_eq.
Qed.

(** ** The guard, case by case *)

(** A string already in the memo table: its entry is returned; the parser
    underneath is not called and no table changes. *)
Lemma parser_wrapper_hit (n : Z) (parser : matcher) (s : string) (σ : store) (v : pyval) :
  memo σ n !! s = Some v → parser_wrapper n parser s σ = Ok (v, σ).
Proof. intros H. unfold parser_wrapper. by rewrite H. Qed.

(** A string not in the memo table whose count is above [len(s) + 1]: the
    parser underneath is not called and no table changes; what comes back
    is the dict [{}]. *)
Lemma parser_wrapper_cutoff (n : Z) (parser : matcher) (s : string) (σ : store) :
  memo σ n !! s = None → String.length s + 1 < depth σ n s →
  parser_wrapper n parser s σ = Ok (PyDict, σ).
Proof.
  intros Hm Hd. unfold parser_wrapper. rewrite Hm.
  by apply Nat.ltb_lt in Hd as ->.
Qed.

(** Otherwise the count goes up by one, the parser underneath runs, and
    what it returns is stored and returned. *)
Lemma parser_wrapper_miss (n : Z) (parser : matcher) (s : string) (σ : store) :
  memo σ n !! s = None → depth σ n s ≤ String.length s + 1 →
  parser_wrapper n parser s σ
  = match parser s (incr_depth n s σ) with
    | Ok (v, σ') => Ok (v, set_memo n s v σ')
    | Raise e => Raise e
    | OutOfFuel => OutOfFuel
    end.
Proof.
  intros Hm Hd. unfold parser_wrapper. rewrite Hm.
  by apply Nat.ltb_ge in Hd as ->.
Qed.

(** After a call of the guard that returned, the same call returns the
    same and leaves the store as it is. *)
Lemma parser_wrapper_again (n : Z) (parser : matcher) (s : string)
      (σ σ' : store) (v : pyval) :
  parser_wrapper n parser s σ = Ok (v, σ') →
  parser_wrapper n parser s σ' = Ok (v, σ').
Proof.
  unfold parser_wrapper at 1.
  destruct (memo σ n !! s) as [w|] eqn:Hm.
  - intros [= <- <-]. by apply parser_wrapper_hit.
  - destruct (String.length s + 1 <? depth σ n s) eqn:Hd.
    + intros [= <- <-]. apply parser_wrapper_cutoff; [done |]. by apply Nat.ltb_lt.
    + destruct (parser s (incr_depth n s σ)) as [[w σ1]| |]; try done.
      intros [= <- <-]. apply parser_wrapper_hit, memo_set_memo.
Qed.

(** C9: when a call of the guard of rule [n] on [s] has returned, the next
    call on [s] returns the same value and changes nothing in the store, so
    the count of [s] stays what the first call made it. *)
Theorem parser_wrapper_twice (n : Z) (parser : matcher) (s : string)
        (σ σ' : store) (v : pyval) :
  parser_wrapper n parser s σ = Ok (v, σ') →
  ∃ σ'', parser_wrapper n parser s σ' = Ok (v, σ'')
         ∧ depth σ'' n s = depth σ' n s
         ∧ σ'' = σ'.
Proof.
  intros H. exists σ'. split; [| done]. by apply (parser_wrapper_again n parser s σ).
Qed.

Lemma parser_wrapper_twice_witness :
  ∃ σ'', parser_wrapper 42 (literal "a") "ab"
           (set_memo 42 "ab" (PySet {[ "b" ]}) (incr_depth 42 "ab" empty_store))
         = Ok (PySet {[ "b" ]}, σ'')
         ∧ depth σ'' 42 "ab"
           = depth (set_memo 42 "ab" (PySet {[ "b" ]}) (incr_depth 42 "ab" empty_store)) 42 "ab"
         ∧ σ'' = set_memo 42 "ab" (PySet {[ "b" ]}) (incr_depth 42 "ab" empty_store).
Proof.
  apply (parser_wrapper_twice 42 (literal "a") "ab" empty_store).
  reflexivity.
Defined.

(** The same for a compiled guard called as a closure. *)
Corollary call_wrapper_twice (order : gset string → list string) (fuel : nat) (n : Z)
          (p : parser) (s : string) (σ σ' : store) (v : pyval) :
  call order fuel (Wrapper n p) s σ = Ok (v, σ') →
  call order fuel (Wrapper n p) s σ' = Ok (v, σ').
Proof.
  destruct fuel as [|fuel]; [done |]. simpl. apply parser_wrapper_again.
Qed.

(** ** More fuel changes nothing that has already come back *)

Lemma refines_refl {A} (m : comp A) : refines m m.
Proof. by intros σ _. Qed.

Lemma refines_trans {A} (m1 m2 m3 : comp A) : refines m1 m2 → refines m2 m3 → refines m1 m3.
Proof.
  intros H12 H23 σ H. rewrite H23; rewrite H12; try done.
Qed.

Lemma bind_refines {A B} (m m' : comp A) (k k' : A → comp B) :
  refines m m' → (∀ a, refines (k a) (k' a)) → refines (bind m k) (bind m' k').
Proof.
  intros Hm Hk σ. unfold bind.
  destruct (m σ) as [[a σ1]| |] eqn:E.
  - intros H. rewrite Hm, E by (by rewrite E). by apply Hk.
  - intros _. by rewrite Hm, E by (by rewrite E).
  - done.
Qed.

Section Fuel.

Variable order : gset string → list string.

Lemma for_rest_refines (rhs rhs' : matcher) (rests : list string) (acc : gset string) :
  (∀ s, refines (rhs s) (rhs' s)) →
  refines (for_rest rhs rests acc) (for_rest rhs' rests acc).
Proof.
  intros H. revert acc. induction rests as [|x rests IH]; intros acc; simpl.
  - apply refines_refl.
  - apply bind_refines; [apply H |]. intros v. apply IH.
Qed.

Lemma concat_refines (lhs lhs' rhs rhs' : matcher) (s : string) :
  (∀ s, refines (lhs s) (lhs' s)) → (∀ s, refines (rhs s) (rhs' s)) →
  refines (concat order lhs rhs s) (concat order lhs' rhs' s).
Proof.
  intros Hl Hr. unfold concat. apply bind_refines; [apply Hl |].
  intros v. apply bind_refines; [by apply for_rest_refines |].
  intros X. apply refines_refl.
Qed.

Lemma alt_refines (lhs lhs' rhs rhs' : matcher) (s : string) :
  (∀ s, refines (lhs s) (lhs' s)) → (∀ s, refines (rhs s) (rhs' s)) →
  refines (alt lhs rhs s) (alt lhs' rhs' s).
Proof.
  intros Hl Hr. unfold alt. apply bind_refines; [apply Hl |].
  intros v. apply bind_refines; [apply Hr |].
  intros w. apply refines_refl.
Qed.

Lemma parser_wrapper_refines (n : Z) (parser parser' : matcher) (s : string) :
  (∀ s, refines (parser s) (parser' s)) →
  refines (parser_wrapper n parser s) (parser_wrapper n parser' s).
Proof.
  intros H σ. unfold parser_wrapper.
  destruct (memo σ n !! s); [done |].
  destruct (String.length s + 1 <? depth σ n s); [done |].
  destruct (parser s (incr_depth n s σ)) as [[v σ1]| |] eqn:E; [| | done].
  - intros _. by rewrite H, E by (by rewrite E).
  - intros _. by rewrite H, E by (by rewrite E).
Qed.

Lemma call_S (fuel : nat) : ∀ p s, refines (call order fuel p s) (call order (S fuel) p s).
Proof.
  induction fuel as [|fuel IH]; intros p s; [by intros σ [] |].
  destruct p as [t | l r | l r | n | n q].
  - apply refines_refl.
  - apply concat_refines; intros s'; apply IH.
  - apply alt_refines; intros s'; apply IH.
  - intros σ. simpl. destruct (parser_table σ !! n) as [q|]; [| done]. apply IH.
  - apply parser_wrapper_refines. intros s'. apply IH.
Qed.

(** A call that has come back comes back the same with more fuel. *)
Lemma call_mono (fuel fuel' : nat) (p : parser) (s : string) :
  fuel ≤ fuel' → refines (call order fuel p s) (call order fuel' p s).
Proof.
  induction 1 as [|fuel' _ IH]; [apply refines_refl |].
  eapply refines_trans; [apply IH | apply call_S].
Qed.

Lemma count_matches_refines (parser parser' : matcher) (lines : list string) (c : nat) :
  (∀ s, refines (parser s) (parser' s)) →
  refines (count_matches parser lines c) (count_matches parser' lines c).
Proof.
  intros H. revert c. induction lines as [|s lines IH]; intros c; simpl.
  - apply refines_refl.
  - apply bind_refines; [apply H |]. intros v. apply IH.
Qed.

End Fuel.

Section FuelCompilers.

Variable rules : gmap Z rule.

Lemma make_concat_loop_refines (get get' : Z → comp parser) (p : parser) (parts : list Z) :
  (∀ n, refines (get n) (get' n)) →
  refines (make_concat_loop get p parts) (make_concat_loop get' p parts).
Proof.
  intros H. revert p. induction parts as [|part parts IH]; intros p; simpl.
  - apply refines_refl.
  - apply bind_refines; [apply H |]. intros q. apply IH.
Qed.

Lemma make_concat_refines (get get' : Z → comp parser) (parts : list Z) :
  (∀ n, refines (get n) (get' n)) →
  refines (make_concat get parts) (make_concat get' parts).
Proof.
  intros H. destruct parts as [|part parts]; simpl; [apply refines_refl |].
  apply bind_refines; [apply H |]. intros q. by apply make_concat_loop_refines.
Qed.

Lemma alt_loop_refines (get get' : Z → comp parser) (p : parser) (alts : list (list Z)) :
  (∀ n, refines (get n) (get' n)) →
  refines (alt_loop get p alts) (alt_loop get' p alts).
Proof.
  intros H. revert p. induction alts as [|alt_rule alts IH]; intros p; simpl.
  - apply refines_refl.
  - apply bind_refines; [by apply make_concat_refines |]. intros q. apply IH.
Qed.

Lemma translate_refines (get get' : Z → comp parser) (n : Z) :
  (∀ n, refines (get n) (get' n)) →
  refines (translate rules get n) (translate rules get' n).
Proof.
  intros H. unfold translate.
  destruct (rules !! n) as [[text | [|parts alts]]|]; try apply refines_refl.
  apply bind_refines; [by apply make_concat_refines |].
  intros q. by apply alt_loop_refines.
Qed.

Lemma get_parser_refines (f f' : Z → comp parser) (n : Z) :
  (∀ n, refines (f n) (f' n)) → refines (get_parser f n) (get_parser f' n).
Proof.
  intros H σ. unfold get_parser.
  destruct (parser_table σ !! n); [done |].
  destruct (f n (set_table n (Deferred n) σ)) as [[p σ1]| |] eqn:E; [| | done].
  - intros _. by rewrite H, E by (by rewrite E).
  - intros _. by rewrite H, E by (by rewrite E).
Qed.

Lemma get_parser_p1_S (fuel : nat) :
  ∀ n, refines (get_parser_p1 rules fuel n) (get_parser_p1 rules (S fuel) n).
Proof.
  induction fuel as [|fuel IH]; intros n; [by intros σ [] |].
  by apply translate_refines.
Qed.

Lemma get_parser_p1_mono (fuel fuel' : nat) (n : Z) :
  fuel ≤ fuel' → refines (get_parser_p1 rules fuel n) (get_parser_p1 rules fuel' n).
Proof.
  induction 1 as [|fuel' _ IH]; [apply refines_refl |].
  eapply refines_trans; [apply IH | apply get_parser_p1_S].
Qed.

Lemma get_parser_part2_S (fuel : nat) :
  ∀ n, refines (get_parser_part2 rules fuel n) (get_parser_part2 rules (S fuel) n).
Proof.
  induction fuel as [|fuel IH]; intros n; [by intros σ [] |].
  apply get_parser_refines. intros m. by apply translate_refines.
Qed.

Lemma get_parser_part2_mono (fuel fuel' : nat) (n : Z) :
  fuel ≤ fuel' → refines (get_parser_part2 rules fuel n) (get_parser_part2 rules fuel' n).
Proof.
  induction 1 as [|fuel' _ IH]; [apply refines_refl |].
  eapply refines_trans; [apply IH | apply get_parser_part2_S].
Qed.

End FuelCompilers.

(** The same for the compositions used below. *)

Lemma match_p1_mono order rules (fuel fuel' : nat) (n : Z) (s : string) :
  fuel ≤ fuel' → match_p1 order rules fuel n s ≠ OutOfFuel →
  match_p1 order rules fuel' n s = match_p1 order rules fuel n s.
Proof.
  intros Hle. unfold match_p1.
  pose proof (get_parser_p1_mono rules fuel fuel' n Hle empty_store) as Hc.
  destruct (get_parser_p1 rules fuel n empty_store) as [[p σ]| |]; [| | done].
  - rewrite Hc by done. intros H. by apply call_mono.
  - by rewrite Hc.
Qed.

Lemma match_part2_mono order rules (fuel fuel' : nat) (n : Z) (s : string) :
  fuel ≤ fuel' → match_part2 order rules fuel n s ≠ OutOfFuel →
  match_part2 order rules fuel' n s = match_part2 order rules fuel n s.
Proof.
  intros Hle. unfold match_part2.
  pose proof (get_parser_part2_mono rules fuel fuel' n Hle empty_store) as Hc.
  destruct (get_parser_part2 rules fuel n empty_store) as [[p σ]| |]; [| | done].
  - rewrite Hc by done. intros H. by apply call_mono.
  - by rewrite Hc.
Qed.

Lemma part1_mono order (fuel fuel' : nat) rules (lines : list string) :
  fuel ≤ fuel' → part1 order fuel rules lines ≠ OutOfFuel →
  part1 order fuel' rules lines = part1 order fuel rules lines.
Proof.
  intros Hle. unfold part1.
  pose proof (get_parser_p1_mono rules fuel fuel' 0 Hle empty_store) as Hc.
  destruct (get_parser_p1 rules fuel 0 empty_store) as [[p σ]| |]; [| | done].
  - rewrite Hc by done.
    pose proof (count_matches_refines (call order fuel p) (call order fuel' p) lines 0
                  (λ s, call_mono order fuel fuel' p s Hle) σ) as Hm.
    destruct (count_matches (call order fuel p) lines 0 σ) as [[c σ']| |]; [| | done];
      by rewrite Hm.
  - by rewrite Hc.
Qed.

Lemma part2_mono order (fuel fuel' : nat) rules (lines : list string) :
  fuel ≤ fuel' → part2 order fuel rules lines ≠ OutOfFuel →
  part2 order fuel' rules lines = part2 order fuel rules lines.
Proof.
  intros Hle. unfold part2.
  pose proof (get_parser_part2_mono rules fuel fuel' 0 Hle empty_store) as Hc.
  destruct (get_parser_part2 rules fuel 0 empty_store) as [[p σ]| |]; [| | done].
  - rewrite Hc by done.
    pose proof (count_matches_refines (call order fuel p) (call order fuel' p) lines 0
                  (λ s, call_mono order fuel fuel' p s Hle) σ) as Hm.
    destruct (count_matches (call order fuel p) lines 0 σ) as [[c σ']| |]; [| | done];
      by rewrite Hm.
  - by rewrite Hc.
Qed.

Lemma script_mono order (fuel fuel' : nat) (input_lines : list string) :
  fuel ≤ fuel' → script order fuel input_lines ≠ OutOfFuel →
  script order fuel' input_lines = script order fuel input_lines.
Proof.
  intros Hle. unfold script.
  destruct (rules_of input_lines) as [rules| |]; [| done | done].
  pose proof (part1_mono order fuel fuel' rules input_lines Hle) as H1.
  destruct (part1 order fuel rules input_lines) as [c1| |]; [| | done].
  - rewrite H1 by done.
    pose proof (part2_mono order fuel fuel' (part2_rules rules) input_lines Hle) as H2.
    destruct (part2 order fuel (part2_rules rules) input_lines) as [c2| |]; [| | done];
      by rewrite H2.
  - by rewrite H1.
Qed.

(** ** Rule 8 of part 2 *)

(** C4: with [8: 42 | 42 8] and [42: "a"], the parser the memoized compiler
    makes for rule 8 comes back on "aaa" with a set that holds the empty
    string, and on "aab" with a set that does not. *)
Theorem rule_8_terminates :
  (∃ X σ, (∀ fuel, 13 ≤ fuel →
             match_part2 elements rules_8_42 fuel 8 "aaa" = Ok (PySet X, σ))
          ∧ "" ∈ X)
  ∧ (∃ X σ, (∀ fuel, 10 ≤ fuel →
               match_part2 elements rules_8_42 fuel 8 "aab" = Ok (PySet X, σ))
            ∧ "" ∉ X).
Proof.
  split.
  - assert (match match_part2 elements rules_8_42 13 8 "aaa" with
            | Ok (v, _) => contains "" v
            | _ => false
            end = true) as Hc by (vm_compute; reflexivity).
    destruct (match_part2 elements rules_8_42 13 8 "aaa") as [[[X|] σ]| |] eqn:E;
      try discriminate Hc.
    exists X, σ. split.
    + intros fuel Hfuel. rewrite <- E. apply match_part2_mono; [done |]. by rewrite E.
    + by apply bool_decide_eq_true in Hc.
  - assert (match match_part2 elements rules_8_42 10 8 "aab" with
            | Ok (PySet X, _) => negb (bool_decide ("" ∈ X))
            | _ => false
            end = true) as Hc by (vm_compute; reflexivity).
    destruct (match_part2 elements rules_8_42 10 8 "aab") as [[[X|] σ]| |] eqn:E;
      try discriminate Hc.
    exists X, σ. split.
    + intros fuel Hfuel. rewrite <- E. apply match_part2_mono; [done |]. by rewrite E.
    + apply negb_true_iff in Hc. by apply bool_decide_eq_false in Hc.
Qed.

(** ** The driver *)

(** Over a parser that is a function of its input, the loop adds one for
    each of the lines it is given that is matched in full. *)
Lemma count_matches_computes (parser : matcher) (f : string → gset string)
      (lines : list string) (match_count : nat) (σ : store) :
  computes parser f →
  count_matches parser lines match_count σ
  = Ok (match_count + length (filter (λ s, "" ∈ f s) lines), σ).
Proof.
  intros Hf. revert match_count. induction lines as [|s lines IH]; intros c; simpl.
  - unfold ret. do 2 f_equal. lia.
  - unfold bind. rewrite Hf, IH. simpl. rewrite filter_cons.
    destruct (decide ("" ∈ f s)) as [Hin | Hin].
    + rewrite bool_decide_eq_true_2 by done. simpl. do 2 f_equal. lia.
    + by rewrite bool_decide_eq_false_2 by done.
Qed.

(** C1 (where the code departs from it): in [file_rule_line] the only
    string after the empty line is "x", which rule 0 does not match; the
    script nevertheless prints 1 twice, because its loops run over all of
    [input_lines] and rule 0 matches the first line of the file.  Run over
    the strings after the empty line, the same loops count 0. *)
Theorem driver_counts_every_line :
  strings_of file_rule_line = Ok ["x"]
  ∧ rules_of file_rule_line = Ok rules_rule_line
  ∧ (∀ fuel, 4 ≤ fuel → script elements fuel file_rule_line = Ok (1, 1))
  ∧ (∀ fuel, 6 ≤ fuel → part1 elements fuel rules_rule_line ["x"] = Ok 0)
  ∧ (∀ fuel, 6 ≤ fuel → part2 elements fuel (part2_rules rules_rule_line) ["x"] = Ok 0).
Proof.
  split_and!.
  - vm_compute. reflexivity.
  - vm_compute. reflexivity.
  - intros fuel Hfuel.
    assert (script elements 4 file_rule_line = Ok (1, 1)) as E by (vm_compute; reflexivity).
    rewrite <- E. apply script_mono; [done |]. by rewrite E.
  - intros fuel Hfuel.
    assert (part1 elements 6 rules_rule_line ["x"] = Ok 0) as E by (vm_compute; reflexivity).
    rewrite <- E. apply part1_mono; [done |]. by rewrite E.
  - intros fuel Hfuel.
    assert (part2 elements 6 (part2_rules rules_rule_line) ["x"] = Ok 0) as E
      by (vm_compute; reflexivity).
    rewrite <- E. apply part2_mono; [done |]. by rewrite E.
Qed.

(** ** What the guard returns when it cuts off *)

(** C3 (where the code departs from it): past the bound the guard returns
    the dict [{}], not a set.  With [0: 1] and [1: 0] the dict is what the
    parser of rule 0 returns on "x"; on [file_cutoff] the dict meets a set
    in the [|] of [alt], and the script stops with a [TypeError]. *)
Theorem guard_returns_dict :
  (∃ σ, ∀ fuel, 8 ≤ fuel → match_part2 elements rules_0_1 fuel 0 "x" = Ok (PyDict, σ))
  ∧ PyDict ≠ PySet ∅
  ∧ py_or PyDict (PySet ∅) = Raise TypeError
  ∧ (∀ fuel, 23 ≤ fuel → script elements fuel file_cutoff = Raise TypeError).
Proof.
  split_and!.
  - assert (match match_part2 elements rules_0_1 8 0 "x" with
            | Ok (PyDict, _) => true
            | _ => false
            end = true) as Hc by (vm_compute; reflexivity).
    destruct (match_part2 elements rules_0_1 8 0 "x") as [[[X|] σ]| |] eqn:E;
      try discriminate Hc.
    exists σ. intros fuel Hfuel. rewrite <- E. apply match_part2_mono; [done |].
    by rewrite E.
  - done.
  - done.
  - intros fuel Hfuel.
    assert (script elements 23 file_cutoff = Raise TypeError) as E
      by (vm_compute; reflexivity).
    rewrite <- E. apply script_mono; [done |]. by rewrite E.
Qed.

(** ** References through the parser table *)

Lemma depth_incr_depth_ne (n m : Z) (s s' : string) (σ : store) :
  n ≠ m → depth (incr_depth n s σ) m s' = depth σ m s'.
Proof.
  intros Hne. unfold depth, incr_depth. simpl. by rewrite lookup_insert_ne.
Qed.

(** Two runs that both come back agree, whatever fuel each was given. *)
Lemma results_agree {A} (f : nat → result A) (a b : nat) :
  (∀ a b, a ≤ b → f a ≠ OutOfFuel → f b = f a) →
  f a ≠ OutOfFuel → f b ≠ OutOfFuel → f a = f b.
Proof.
  intros Hmono Ha Hb.
  rewrite <- (Hmono a (a `max` b)) by (done || lia).
  by rewrite <- (Hmono b (a `max` b)) by (done || lia).
Qed.

Section NeverReturns.

Variable order : gset string → list string.

Lemma wrapper_never_returns (n : Z) (q : parser) (s : string) (σ : store) :
  memo σ n !! s = None → depth σ n s ≤ String.length s + 1 →
  (∀ fuel, call order fuel q s (incr_depth n s σ) = OutOfFuel) →
  ∀ fuel, call order fuel (Wrapper n q) s σ = OutOfFuel.
Proof.
  intros Hm Hd Hq [|fuel]; [done |]. simpl.
  rewrite parser_wrapper_miss by done. by rewrite Hq.
Qed.

Lemma alt_never_returns (l r : parser) (s : string) (σ : store) :
  (∀ fuel, call order fuel l s σ = OutOfFuel) →
  ∀ fuel, call order fuel (Alt l r) s σ = OutOfFuel.
Proof.
  intros Hl [|fuel]; [done |]. simpl. unfold alt, bind. by rewrite Hl.
Qed.

(** Rule 42 of [file_left_recursive] reaches itself through the parser
    table, not through its guard, and never comes back. *)
Lemma parser_42_never_returns (s : string) (σ : store) :
  parser_table σ !! 42%Z = Some parser_42 →
  ∀ fuel, call order fuel parser_42 s σ = OutOfFuel.
Proof.
  intros Ht fuel. induction fuel as [fuel IH] using lt_wf_ind.
  destruct fuel as [|[|[|fuel]]]; try done.
  unfold parser_42. simpl. unfold alt, concat, bind. rewrite Ht.
  fold parser_42. by rewrite IH by lia.
Qed.

Lemma parser_0_left_recursive_never_returns (s : string) (fuel : nat) :
  call order fuel parser_0_left_recursive s store_left_recursive = OutOfFuel.
Proof.
  revert fuel. unfold parser_0_left_recursive.
  apply wrapper_never_returns; [done | vm_compute; lia |].
  apply wrapper_never_returns;
    [done | rewrite depth_incr_depth_ne by done; vm_compute; lia |].
  apply alt_never_returns.
  apply wrapper_never_returns;
    [done | rewrite !depth_incr_depth_ne by done; vm_compute; lia |].
  by apply parser_42_never_returns.
Qed.

End NeverReturns.

(** The same on [8: 42 | 42 8] with [42: "a"]: the table entry of rule 8 is
    the bare [alt] closure, and after the call on "aaa" the tables of rule
    8 know of "aaa" alone, although rule 8 has run on "aa", "a" and "" by
    way of its placeholder. *)
Lemma rule_8_table_entry_bare :
  match get_parser_part2 rules_8_42 3 8 empty_store with
  | Ok (p, σ) =>
      p = Wrapper 8 (Alt (Wrapper 42 (Literal "a")) (Concat (Literal "a") (Deferred 8)))
      ∧ parser_table σ !! 8%Z
        = Some (Alt (Wrapper 42 (Literal "a")) (Concat (Literal "a") (Deferred 8)))
      ∧ match call elements 13 p "aaa" σ with
        | Ok (_, σ') =>
            dom (memo σ' 8) = {[ "aaa" ]}
            ∧ depth σ' 8 "aaa" = 1 ∧ depth σ' 8 "aa" = 0
            ∧ depth σ' 8 "a" = 0 ∧ depth σ' 8 "" = 0
        | _ => False
        end
  | _ => False
  end.
Proof. vm_compute. split_and!; reflexivity. Qed.

(** C2 (where the code departs from it): [get_parser] stores the parser
    without its guard in [parser_table], so a reference resolved through
    the table runs unguarded.  In [file_left_recursive] rule 42 starts with
    itself: part 1 prints its count, the memoized compiler returns, the
    table entry of rule 42 is the bare parser, and the call of the compiled
    rule 0 comes back on no string, however much fuel it is given. *)
Theorem table_reference_not_guarded :
  rules_of file_left_recursive = Ok rules_left_recursive
  ∧ (∀ fuel, 4 ≤ fuel → part1 elements fuel rules_left_recursive file_left_recursive = Ok 0)
  ∧ (∀ fuel, 5 ≤ fuel →
       get_parser_part2 (part2_rules rules_left_recursive) fuel 0 empty_store
       = Ok (parser_0_left_recursive, store_left_recursive))
  ∧ parser_table store_left_recursive !! 42%Z = Some parser_42
  ∧ (∀ s fuel, call elements fuel parser_0_left_recursive s store_left_recursive = OutOfFuel)
  ∧ (∀ fuel, script elements fuel file_left_recursive = OutOfFuel).
Proof.
  assert (rules_of file_left_recursive = Ok rules_left_recursive) as Hrules
    by (vm_compute; reflexivity).
  assert (part1 elements 4 rules_left_recursive file_left_recursive = Ok 0) as H1
    by (vm_compute; reflexivity).
  assert (get_parser_part2 (part2_rules rules_left_recursive) 5 0 empty_store
          = Ok (parser_0_left_recursive, store_left_recursive)) as H2
    by (vm_compute; reflexivity).
  split_and!.
  - done.
  - intros fuel Hfuel. rewrite <- H1. apply part1_mono; [done |]. by rewrite H1.
  - intros fuel Hfuel. rewrite <- H2. apply get_parser_part2_mono; [done |]. by rewrite H2.
  - done.
  - intros s fuel. apply parser_0_left_recursive_never_returns.
  - intros fuel. unfold script. rewrite Hrules.
    destruct (part1 elements fuel rules_left_recursive file_left_recursive)
      as [c1| |] eqn:E1; [| | done].
    + unfold part2.
      destruct (get_parser_part2 (part2_rules rules_left_recursive) fuel 0 empty_store)
        as [[p σ]| |] eqn:E2; [| | done].
      * assert (Ok (p, σ) = Ok (parser_0_left_recursive, store_left_recursive)) as [= -> ->].
        { rewrite <- E2, <- H2.
          apply (results_agree
                   (λ k, get_parser_part2 (part2_rules rules_left_recursive) k 0 empty_store)).
          - intros a b Hab. by apply get_parser_part2_mono.
          - by rewrite E2.
          - by rewrite H2. }
        unfold file_left_recursive. simpl. unfold bind.
        by rewrite parser_0_left_recursive_never_returns.
      * exfalso.
        assert (Raise e = Ok (parser_0_left_recursive, store_left_recursive)) as [=].
        rewrite <- E2, <- H2.
        apply (results_agree
                 (λ k, get_parser_part2 (part2_rules rules_left_recursive) k 0 empty_store)).
        -- intros a b Hab. by apply get_parser_part2_mono.
        -- by rewrite E2.
        -- by rewrite H2.
    + exfalso. assert (Raise e = Ok 0) as [=].
      rewrite <- E1, <- H1.
      apply (results_agree
               (λ k, part1 elements k rules_left_recursive file_left_recursive)).
      * intros a b Hab. by apply part1_mono.
      * by rewrite E1.
      * by rewrite H1.
Qed.


(** ** Closures that are settled *)

Lemma settled_table (σ σ' : store) (p : parser) :
  parser_table σ' = parser_table σ → settled σ p → settled σ' p.
Proof.
  intros Ht. induction p as [t | l IHl r IHr | l IHl r IHr | n | n q IH]; simpl; try done.
  - intros [??]. auto.
  - intros [??]. auto.
  - rewrite Ht. intros [??]. auto.
Qed.

(** A guard inside a settled closure guards something smaller than the
    closure. *)
Lemma settled_keys_smaller (σ : store) (p : parser) (k : Z) :
  settled σ p → k ∈ keys p →
  ∃ q, parser_table σ !! k = Some q ∧ size_of q < size_of p.
Proof.
  induction p as [t | l IHl r IHr | l IHl r IHr | n | n q IH]; simpl.
  - intros _ H. by apply not_elem_of_empty in H.
  - intros [Hl Hr] [H | H]%elem_of_union.
    + destruct (IHl Hl H) as (q & ? & ?). exists q. split; [done | lia].
    + destruct (IHr Hr H) as (q & ? & ?). exists q. split; [done | lia].
  - intros [Hl Hr] [H | H]%elem_of_union.
    + destruct (IHl Hl H) as (q & ? & ?). exists q. split; [done | lia].
    + destruct (IHr Hr H) as (q & ? & ?). exists q. split; [done | lia].
  - done.
  - intros [Ht Hq] [H | H]%elem_of_union.
    + apply elem_of_singleton in H as ->. exists q. split; [done | lia].
    + destruct (IH Hq H) as (q' & ? & ?). exists q'. split; [done | lia].
Qed.

Lemma settled_wrapper_fresh (σ : store) (n : Z) (q : parser) :
  parser_table σ !! n = Some q → settled σ q → n ∉ keys q.
Proof.
  intros Ht Hq Hn. destruct (settled_keys_smaller σ q n Hq Hn) as (q' & Ht' & Hlt).
  rewrite Ht in Ht'. injection Ht' as <-. lia.
Qed.

Lemma touches_only_refl (K : gset Z) (σ : store) : touches_only K σ σ.
Proof. by split. Qed.

Lemma touches_only_trans (K : gset Z) (σ1 σ2 σ3 : store) :
  touches_only K σ1 σ2 → touches_only K σ2 σ3 → touches_only K σ1 σ3.
Proof.
  intros [Ht1 Hf1] [Ht2 Hf2]. split; [congruence |].
  intros n Hn. destruct (Hf1 n Hn) as [Hm1 Hd1]. destruct (Hf2 n Hn) as [Hm2 Hd2].
  split; [congruence |]. intros s. by rewrite Hd2.
Qed.

Lemma touches_only_weaken (K K' : gset Z) (σ σ' : store) :
  K ⊆ K' → touches_only K σ σ' → touches_only K' σ σ'.
Proof.
  intros Hsub [Ht Hf]. split; [done |]. intros n Hn. apply Hf.
  intros Hk. apply Hn. by apply Hsub.
Qed.

Lemma tables_agree_cells (σ σ' : store) (n : Z) (q : parser) :
  memo σ' n = memo σ n → (∀ s, depth σ' n s = depth σ n s) →
  tables_agree σ n q → tables_agree σ' n q.
Proof.
  intros Hm Hd H s. specialize (H s). by rewrite Hm, Hd.
Qed.

Lemma memo_set_memo_eq (n : Z) (s : string) (v : pyval) (σ : store) :
  memo (set_memo n s v σ) n = <[s := v]> (memo σ n).
Proof. unfold memo at 1. unfold set_memo. simpl. by rewrite lookup_insert_eq. Qed.

Lemma memo_set_memo_ne (n m : Z) (s : string) (v : pyval) (σ : store) :
  n ≠ m → memo (set_memo n s v σ) m = memo σ m.
Proof. intros Hne. unfold memo, set_memo. simpl. by rewrite lookup_insert_ne. Qed.

Lemma depth_incr_depth_other (n : Z) (s s' : string) (σ : store) :
  s ≠ s' → depth (incr_depth n s σ) n s' = depth σ n s'.
Proof.
  intros Hne. unfold depth, incr_depth. simpl. rewrite lookup_insert_eq. simpl.
  by rewrite lookup_insert_ne.
Qed.

Section Settled.

Variable order : gset string → list string.
Hypothesis order_enumerates : ∀ X, order X ≡ₚ elements X.

(** A settled closure, called where the tables of its guards agree with
    the parser table, returns what it denotes, touches the tables of its
    own guards only, and leaves all tables in agreement. *)
Lemma call_settled (p : parser) :
  ∀ fuel s σ K,
    settled σ p → height p ≤ fuel → keys p ⊆ K → guards_agree K σ →
    ∃ σ', call order fuel p s σ = Ok (PySet (denote p s), σ')
          ∧ touches_only (keys p) σ σ'
          ∧ guards_agree K σ'.
Proof.
  induction p as [t | l IHl r IHr | l IHl r IHr | n | n q IH];
    intros fuel s σ K Hp Hfuel HK Hagree;
    (destruct fuel as [|fuel]; [simpl in Hfuel; lia |]); simpl in Hp, Hfuel, HK.
  - exists σ. simpl. rewrite literal_computes. split_and!; [done | apply touches_only_refl | done].
  - destruct Hp as [Hl Hr].
    destruct (IHl fuel s σ K Hl) as (σ1 & E1 & Ht1 & Ha1); [lia | set_solver | done |].
    destruct (for_rest_steps (call order fuel r) (denote r)
                (λ σ, settled σ r ∧ guards_agree K σ) (touches_only (keys r))
                (touches_only_refl _) (touches_only_trans _)) with
      (rests := order (denote l s)) (acc := (∅ : gset string)) (σ := σ1)
      as (σ2 & E2 & Ht2 & _ & Ha2).
    + intros s' σ' [Hr' Ha']. destruct (IHr fuel s' σ' K Hr') as (σ'' & ? & Ht'' & ?);
        [lia | set_solver | done |].
      exists σ''. split_and!; try done. eapply settled_table; [apply Ht'' | done].
    + split; [| done]. eapply settled_table; [apply Ht1 | done].
    + exists σ2. simpl. unfold concat, bind. rewrite E1. simpl. rewrite E2.
      rewrite (union_list_order order order_enumerates), union_empty_l_L.
      split_and!; [done | | done].
      eapply touches_only_trans; eapply touches_only_weaken; try eassumption; set_solver.
  - destruct Hp as [Hl Hr].
    destruct (IHl fuel s σ K Hl) as (σ1 & E1 & Ht1 & Ha1); [lia | set_solver | done |].
    destruct (IHr fuel s σ1 K) as (σ2 & E2 & Ht2 & Ha2);
      [eapply settled_table; [apply Ht1 | done] | lia | set_solver | done |].
    exists σ2. simpl. unfold alt, bind, lift. rewrite E1, E2. simpl.
    split_and!; [done | | done].
    eapply touches_only_trans; eapply touches_only_weaken; try eassumption; set_solver.
  - done.
  - destruct Hp as [Ht Hq].
    assert (n ∉ keys q) as Hfresh by (by eapply settled_wrapper_fresh).
    assert (tables_agree σ n q) as Hn by (apply Hagree; [set_solver | done]).
    simpl. destruct (memo σ n !! s) as [v|] eqn:Hm.
    + exists σ. rewrite (parser_wrapper_hit _ _ _ _ _ Hm).
      specialize (Hn s). rewrite Hm in Hn. subst v.
      split_and!; [done | apply touches_only_refl | done].
    + pose proof (Hn s) as Hd. rewrite Hm in Hd.
      rewrite parser_wrapper_miss by (done || lia).
      destruct (IH fuel s (incr_depth n s σ) (K ∖ {[n]})) as (σ2 & E2 & [Ht2 Hf2] & Ha2).
      * by apply (settled_table σ).
      * lia.
      * set_solver.
      * intros m q' [Hm' Hne%not_elem_of_singleton]%elem_of_difference Htm.
        apply (tables_agree_cells σ); [done | | by apply Hagree].
        intros s'. by apply depth_incr_depth_ne.
      * rewrite E2. eexists. split; [done |].
        destruct (Hf2 n Hfresh) as [Hmemo Hdepth].
        split; [| intros m q' Hmk Htm; destruct (decide (m = n)) as [-> | Hne]].
        -- split; [done |]. intros m Hm'.
           assert (n ≠ m) as Hne
             by (intros ->; apply Hm', elem_of_union; left; by apply elem_of_singleton).
           destruct (Hf2 m) as [Hmm Hdm];
             [intros Hk; apply Hm', elem_of_union; by right |].
           rewrite memo_set_memo_ne by done. split; [done |].
           intros s'. rewrite depth_set_memo, Hdm. by apply depth_incr_depth_ne.
        -- simpl in Htm. rewrite Ht2 in Htm. simpl in Htm. rewrite Ht in Htm.
           injection Htm as <-. intros s'.
           rewrite memo_set_memo_eq, depth_set_memo, Hmemo, Hdepth.
           destruct (decide (s = s')) as [<- | Hs].
           ++ by rewrite lookup_insert_eq.
           ++ rewrite lookup_insert_ne by done.
              rewrite depth_incr_depth_other by done. apply Hn.
        -- apply (tables_agree_cells σ2).
           ++ by apply memo_set_memo_ne.
           ++ intros s'. apply depth_set_memo.
           ++ apply Ha2; [| done]. apply elem_of_difference. split; [done |].
              by intros ->%elem_of_singleton.
Qed.

End Settled.

(** ** The two compilers side by side *)

Section Simulation.

Variable rules : gmap Z rule.
Variables get1 get2 : Z → comp parser.
Variable I : store → Prop.
Variable R : store → store → Prop.
Variable W : store → parser → Prop.
Variable C : Z → Prop.

Hypothesis R_refl : ∀ σ, R σ σ.
Hypothesis R_trans : ∀ σ1 σ2 σ3, R σ1 σ2 → R σ2 σ3 → R σ1 σ3.
Hypothesis W_mono : ∀ σ σ' p, I σ → R σ σ' → W σ p → W σ' p.
Hypothesis W_literal : ∀ σ text, W σ (Literal text).
Hypothesis W_concat : ∀ σ l r, W σ l → W σ r → W σ (Concat l r).
Hypothesis W_alt : ∀ σ l r, W σ l → W σ r → W σ (Alt l r).
Hypothesis get_simulates : ∀ m, C m → ∀ σ, I σ → simulates I R W (get1 m) (get2 m) σ.

Lemma make_concat_loop_simulates (parts : list Z) :
  Forall C parts →
  ∀ t0 p0 σ, erase p0 = t0 → W σ p0 → I σ →
             simulates I R W (make_concat_loop get1 t0 parts)
                             (make_concat_loop get2 p0 parts) σ.
Proof.
  induction 1 as [|part parts Hpart _ IH]; intros t0 p0 σ He Hw Hi; simpl.
  - exists t0, p0, σ. unfold ret. split_and!; auto.
  - destruct (get_simulates part Hpart σ Hi) as (t & p & σ1 & E1 & E2 & He1 & Hw1 & Hi1 & Hr1).
    destruct (IH (Concat t0 t) (Concat p0 p) σ1) as (t' & p' & σ2 & E1' & E2' & ? & ? & ? & ?).
    + simpl. by rewrite He, He1.
    + apply W_concat; [| done]. by apply (W_mono σ).
    + done.
    + exists t', p', σ2. unfold bind. split_and!; try done.
      * intros σ0. by rewrite E1.
      * by rewrite E2.
      * by apply (R_trans _ σ1).
Qed.

Lemma make_concat_simulates (parts : list Z) :
  parts ≠ [] → Forall C parts →
  ∀ σ, I σ → simulates I R W (make_concat get1 parts) (make_concat get2 parts) σ.
Proof.
  intros Hne Hparts σ Hi. destruct parts as [|part parts]; [done |].
  apply Forall_cons in Hparts as [Hpart Hparts]. simpl.
  destruct (get_simulates part Hpart σ Hi) as (t & p & σ1 & E1 & E2 & He1 & Hw1 & Hi1 & Hr1).
  destruct (make_concat_loop_simulates parts Hparts t p σ1)
    as (t' & p' & σ2 & E1' & E2' & ? & ? & ? & ?); try done.
  exists t', p', σ2. unfold bind. split_and!; try done.
  - intros σ0. by rewrite E1.
  - by rewrite E2.
  - by apply (R_trans _ σ1).
Qed.

Lemma alt_loop_simulates (alts : list (list Z)) :
  Forall (λ parts, parts ≠ [] ∧ Forall C parts) alts →
  ∀ t0 p0 σ, erase p0 = t0 → W σ p0 → I σ →
             simulates I R W (alt_loop get1 t0 alts) (alt_loop get2 p0 alts) σ.
Proof.
  induction 1 as [|parts alts [Hne Hparts] _ IH]; intros t0 p0 σ He Hw Hi; simpl.
  - exists t0, p0, σ. unfold ret. split_and!; auto.
  - destruct (make_concat_simulates parts Hne Hparts σ Hi)
      as (t & p & σ1 & E1 & E2 & He1 & Hw1 & Hi1 & Hr1).
    destruct (IH (Alt t0 t) (Alt p0 p) σ1) as (t' & p' & σ2 & E1' & E2' & ? & ? & ? & ?).
    + simpl. by rewrite He, He1.
    + apply W_alt; [| done]. by apply (W_mono σ).
    + done.
    + exists t', p', σ2. unfold bind. split_and!; try done.
      * intros σ0. by rewrite E1.
      * by rewrite E2.
      * by apply (R_trans _ σ1).
Qed.

Lemma translate_simulates (n : Z) :
  is_Some (rules !! n) →
  (∀ options, rules !! n = Some (Alternatives options) →
              options ≠ [] ∧ Forall (λ parts, parts ≠ [] ∧ Forall C parts) options) →
  ∀ σ, I σ → simulates I R W (translate rules get1 n) (translate rules get2 n) σ.
Proof.
  intros [r Hr] Hopts σ Hi. unfold translate. rewrite Hr.
  destruct r as [text | options].
  - exists (Literal text), (Literal text), σ. unfold ret. split_and!; auto.
  - destruct (Hopts options Hr) as [Hne Hall].
    destruct options as [|parts alts]; [done |].
    apply Forall_cons in Hall as [[Hne' Hparts] Hall].
    destruct (make_concat_simulates parts Hne' Hparts σ Hi)
      as (t & p & σ1 & E1 & E2 & He1 & Hw1 & Hi1 & Hr1).
    destruct (alt_loop_simulates alts Hall t p σ1)
      as (t' & p' & σ2 & E1' & E2' & ? & ? & ? & ?); try done.
    exists t', p', σ2. unfold bind. split_and!; try done.
    + intros σ0. by rewrite E1.
    + by rewrite E2.
    + by apply (R_trans _ σ1).
Qed.

End Simulation.

Lemma erase_combinators_only (p : parser) : combinators_only p → erase p = p.
Proof.
  induction p as [t | l IHl r IHr | l IHl r IHr | n | n q IH]; simpl; try done.
  - intros [??]. by rewrite IHl, IHr.
  - intros [??]. by rewrite IHl, IHr.
Qed.

Lemma keeps_done_refl (V : gset Z) (σ : store) : keeps_done V σ σ.
Proof. by intros m q _ H. Qed.

Lemma keeps_done_trans (V : gset Z) (σ1 σ2 σ3 : store) :
  keeps_done V σ1 σ2 → keeps_done V σ2 σ3 → keeps_done V σ1 σ3.
Proof. intros H12 H23 m q Hm H. apply H23; [done |]. by apply H12. Qed.

Lemma get_parser_hit (f : Z → comp parser) (n : Z) (σ : store) (q : parser) :
  parser_table σ !! n = Some q → get_parser f n σ = Ok (q, σ).
Proof. intros H. unfold get_parser. by rewrite H. Qed.

Lemma get_parser_miss (f : Z → comp parser) (n : Z) (σ : store) :
  parser_table σ !! n = None →
  get_parser f n σ
  = match f n (set_table n (Deferred n) σ) with
    | Ok (p, σ') => Ok (Wrapper n p, new_tables n (set_table n p σ'))
    | Raise e => Raise e
    | OutOfFuel => OutOfFuel
    end.
Proof. intros H. unfold get_parser. by rewrite H. Qed.

Section Acyclic.

Variable rules : gmap Z rule.
Hypothesis rules_closed : closed rules.
Hypothesis rules_acyclic : acyclic rules.
Hypothesis rules_nonempty : options_nonempty rules.

Lemma options_refer (n : Z) (options : list (list Z)) :
  rules !! n = Some (Alternatives options) →
  options ≠ []
  ∧ Forall (λ parts, parts ≠ [] ∧ Forall (references rules n) parts) options.
Proof.
  intros Hn. destruct (rules_nonempty n options Hn) as [Hne Hparts].
  split; [done |]. apply Forall_forall. intros parts Hin. split; [by apply Hparts |].
  apply Forall_forall. intros m Hm. by exists options, parts.
Qed.

Lemma not_among_ancestors (V : gset Z) (n : Z) :
  (∀ v, v ∈ V → tc (references rules) v n) → n ∉ V.
Proof. intros Hanc Hn. by apply (rules_acyclic n), Hanc. Qed.

Lemma ancestors_step (V : gset Z) (n m : Z) :
  (∀ v, v ∈ V → tc (references rules) v n) → references rules n m →
  ∀ v, v ∈ V ∪ {[n]} → tc (references rules) v m.
Proof.
  intros Hanc Hnm v [Hv | ->%elem_of_singleton]%elem_of_union.
  - eapply tc_r; [by apply Hanc | done].
  - by apply tc_once.
Qed.

Lemma measure_step (V : gset Z) (n : Z) (fuel : nat) :
  is_Some (rules !! n) → n ∉ V →
  size (dom rules ∖ V) ≤ S fuel → size (dom rules ∖ (V ∪ {[n]})) ≤ fuel.
Proof.
  intros Hn HV Hsize.
  assert (dom rules ∖ (V ∪ {[n]}) ⊂ dom rules ∖ V) as Hsub.
  { split.
    - intros x [Hx Hnx]%elem_of_difference. apply elem_of_difference. split; [done |].
      intros HxV. apply Hnx, elem_of_union. by left.
    - intros Hsub. assert (n ∈ dom rules ∖ (V ∪ {[n]})) as Hin.
      { apply Hsub, elem_of_difference. split; [by apply elem_of_dom | done]. }
      apply elem_of_difference in Hin as [_ Hin]. apply Hin, elem_of_union. right.
      by apply elem_of_singleton. }
  apply subset_size in Hsub. lia.
Qed.

Lemma measure_positive (V : gset Z) (n : Z) :
  is_Some (rules !! n) → n ∉ V → 0 < size (dom rules ∖ V).
Proof.
  intros Hn HV.
  assert (size (dom rules ∖ V) ≠ 0); [| lia].
  intros H0. apply size_empty_inv in H0.
  assert (n ∈ dom rules ∖ V) as Hin
    by (apply elem_of_difference; split; [by apply elem_of_dom | done]).
  rewrite H0 in Hin. by apply not_elem_of_empty in Hin.
Qed.

(** With fuel for every rule not yet on the way, the compiler of part 1
    comes back. *)
Lemma get_parser_p1_succeeds (fuel : nat) :
  ∀ n V, is_Some (rules !! n) →
         (∀ v, v ∈ V → tc (references rules) v n) →
         size (dom rules ∖ V) ≤ fuel →
         ∃ t, ∀ σ0, get_parser_p1 rules fuel n σ0 = Ok (t, σ0).
Proof.
  induction fuel as [|fuel IH]; intros n V Hn Hanc Hsize.
  - pose proof (measure_positive V n Hn (not_among_ancestors V n Hanc)). lia.
  - simpl.
    destruct (translate_simulates rules (get_parser_p1 rules fuel) (get_parser_p1 rules fuel)
                (λ _, True) (λ _ _, True) (λ _ _, True) (references rules n))
      with (n := n) (σ := empty_store) as (t & _ & _ & E & _); try done.
    + intros m Hm σ _.
      destruct (IH m (V ∪ {[n]})) as [t Ht].
      * by apply (rules_closed n).
      * by apply ancestors_step.
      * apply measure_step; [done | by apply not_among_ancestors | done].
      * exists t, t, σ. split_and!; try done.
        apply erase_combinators_only.
        by destruct (get_parser_p1_plain rules fuel m σ t σ (Ht σ)).
    + apply options_refer.
    + by exists t.
Qed.

Lemma settled_keeps_done (V : gset Z) (σ σ' : store) (p : parser) :
  compiling rules V σ → keeps_done V σ σ' → settled σ p → settled σ' p.
Proof.
  intros (Hplace & _ & _) Hkeep.
  induction p as [t | l IHl r IHr | l IHl r IHr | n | n q IH]; simpl; try done.
  - intros [??]. auto.
  - intros [??]. auto.
  - intros [Ht Hq]. split; [| auto]. apply Hkeep; [| done].
    intros Hn. rewrite (Hplace n Hn) in Ht. injection Ht as <-. done.
Qed.

Lemma untouched_set_table (n : Z) (p : parser) (σ : store) :
  untouched σ → untouched (set_table n p σ).
Proof. done. Qed.

Lemma untouched_new_tables (n : Z) (σ : store) : untouched σ → untouched (new_tables n σ).
Proof.
  intros H m s. unfold memo, depth, new_tables. simpl.
  destruct (decide (n = m)) as [-> | Hne].
  - rewrite !lookup_insert_eq. simpl. by rewrite !lookup_empty.
  - rewrite !lookup_insert_ne by done. apply H.
Qed.

(** The memoized compiler, started in a store as [compiling] describes,
    comes back with what the compiler of part 1 returns under guards, all
    of them settled. *)
Lemma get_parser_part2_simulates (fuel : nat) :
  ∀ n V σ, is_Some (rules !! n) →
           (∀ v, v ∈ V → tc (references rules) v n) →
           size (dom rules ∖ V) ≤ fuel →
           compiling rules V σ →
           simulates (compiling rules V) (keeps_done V) settled
                     (get_parser_p1 rules fuel n) (get_parser_part2 rules fuel n) σ.
Proof.
  induction fuel as [|fuel IH]; intros n V σ Hn Hanc Hsize Hσ.
  - pose proof (measure_positive V n Hn (not_among_ancestors V n Hanc)). lia.
  - pose proof (not_among_ancestors V n Hanc) as HnV.
    destruct (get_parser_p1_succeeds (S fuel) n V Hn Hanc Hsize) as [t Ht].
    destruct Hσ as (Hplace & Hdone & Hun).
    destruct (parser_table σ !! n) as [q|] eqn:Htable.
    + destruct (Hdone n q Htable HnV) as [Hq Hagree].
      exists t, q, σ. split_and!; try done.
      * simpl. by apply get_parser_hit.
      * by apply (Hagree (S fuel) t empty_store empty_store).
      * apply keeps_done_refl.
    + destruct (translate_simulates rules (get_parser_p1 rules fuel) (get_parser_part2 rules fuel)
                  (compiling rules (V ∪ {[n]})) (keeps_done (V ∪ {[n]})) settled
                  (references rules n))
        with (n := n) (σ := set_table n (Deferred n) σ)
        as (t' & p & σ2 & E1 & E2 & He & Hp & (Hplace2 & Hdone2 & Hun2) & Hkeep2).
      * apply keeps_done_refl.
      * apply keeps_done_trans.
      * intros σ1 σ1' p1. apply settled_keeps_done.
      * done.
      * by intros σ1 l r ??.
      * by intros σ1 l r ??.
      * intros m Hm σ1 Hσ1. apply IH; [| | | done].
        -- by apply (rules_closed n).
        -- by apply ancestors_step.
        -- by apply measure_step.
      * done.
      * apply options_refer.
      * split_and!.
        -- intros v [Hv | ->%elem_of_singleton]%elem_of_union; simpl.
           ++ rewrite lookup_insert_ne by (by intros ->). by apply Hplace.
           ++ by rewrite lookup_insert_eq.
        -- intros m q Hm HmV. simpl in Hm.
           assert (n ≠ m) as Hne
             by (intros ->; apply HmV, elem_of_union; right; by apply elem_of_singleton).
           rewrite lookup_insert_ne in Hm by done.
           destruct (Hdone m q Hm) as [Hq Hagree].
           { intros Hv. apply HmV, elem_of_union. by left. }
           split; [| done].
           apply (settled_keeps_done V σ); [done | | done].
           intros m' q' Hm' Ht'. simpl.
           rewrite lookup_insert_ne; [done |]. intros <-. by rewrite Htable in Ht'.
        -- by apply untouched_set_table.
      * assert (t' = t) as -> by (specialize (E1 empty_store); simpl in Ht;
                                   rewrite Ht in E1; by injection E1).
        assert (parser_table σ2 !! n = Some (Deferred n)) as Hn2
          by (apply Hplace2, elem_of_union; right; by apply elem_of_singleton).
        assert (compiling rules (V ∪ {[n]}) σ2) as Hσ2 by done.
        assert (keeps_done (V ∪ {[n]}) σ2 (new_tables n (set_table n p σ2))) as Hkeep3.
        { intros m q Hm Htm. simpl. rewrite lookup_insert_ne; [done |].
          intros <-. apply Hm, elem_of_union. right. by apply elem_of_singleton. }
        exists t, (Wrapper n p), (new_tables n (set_table n p σ2)). split_and!; try done.
        -- simpl. rewrite get_parser_miss by done. by rewrite E2.
        -- simpl. rewrite lookup_insert_eq. split; [done |].
           by apply (settled_keeps_done (V ∪ {[n]}) σ2).
        -- split_and!.
           ++ intros v Hv. simpl.
              rewrite lookup_insert_ne by (by intros ->).
              apply Hplace2, elem_of_union. by left.
           ++ intros m q Hm HmV. simpl in Hm.
              destruct (decide (n = m)) as [<- | Hne].
              ** rewrite lookup_insert_eq in Hm. injection Hm as <-. split.
                 --- by apply (settled_keeps_done (V ∪ {[n]}) σ2).
                 --- intros fuel' t' σ0 σ0' E'. rewrite He.
                     assert (Ok (t, σ0) = Ok (t', σ0')) as [= -> _]; [| done].
                     rewrite <- (Ht σ0), <- E'.
                     apply (results_agree (λ k, get_parser_p1 rules k n σ0)).
                     +++ intros a b Hab. by apply get_parser_p1_mono.
                     +++ by rewrite (Ht σ0).
                     +++ by rewrite E'.
              ** rewrite lookup_insert_ne in Hm by done.
                 destruct (Hdone2 m q Hm) as [Hq Hagree].
                 { intros [Hv | Hv%elem_of_singleton]%elem_of_union; [done | congruence]. }
                 split; [| done]. by apply (settled_keeps_done (V ∪ {[n]}) σ2).
           ++ by apply untouched_new_tables, untouched_set_table.
        -- intros m q Hm Htm. simpl.
           assert (n ≠ m) as Hne by (intros ->; by rewrite Htable in Htm).
           rewrite lookup_insert_ne by done.
           apply Hkeep2.
           ++ intros [Hv | Hv%elem_of_singleton]%elem_of_union; [done | congruence].
           ++ simpl. by rewrite lookup_insert_ne.
Qed.

End Acyclic.

(** ** Grammars without recursion: part 2 does what part 1 does *)

Lemma set_bind_ext (f g : string → gset string) (X : gset string) :
  (∀ x, f x = g x) → set_bind f X = set_bind g X.
Proof.
  intros H. apply set_eq. intros r. rewrite !elem_of_set_bind.
  split; intros (x & Hx & Hr); exists x; [by rewrite <- H | by rewrite H].
Qed.

Lemma denote_erase (p : parser) : ∀ s, denote (erase p) s = denote p s.
Proof.
  induction p as [t | l IHl r IHr | l IHl r IHr | n | n q IH]; intros s; simpl; try done.
  - rewrite IHl. by apply set_bind_ext.
  - by rewrite IHl, IHr.
Qed.

Lemma alt_computes (a b : matcher) (f g : string → gset string) :
  computes a f → computes b g → computes (alt a b) (λ s, f s ∪ g s).
Proof.
  intros Ha Hb s σ. unfold alt, bind, lift. by rewrite Ha, Hb.
Qed.

Lemma untouched_guards_agree (K : gset Z) (σ : store) : untouched σ → guards_agree K σ.
Proof.
  intros H n q _ _ s. destruct (H n s) as [Hm Hd]. by rewrite Hm.
Qed.

Lemma compiling_empty_store (rules : gmap Z rule) : compiling rules ∅ empty_store.
Proof.
  split_and!.
  - intros v Hv. by apply not_elem_of_empty in Hv.
  - intros m q Hm. simpl in Hm. by rewrite lookup_empty in Hm.
  - intros n s. unfold memo, depth. simpl. by rewrite !lookup_empty.
Qed.

Section Agreement.

Variable order : gset string → list string.
Hypothesis order_enumerates : ∀ X, order X ≡ₚ elements X.

(** A closure of combinators, called with fuel for its height, computes
    what it denotes. *)
Lemma call_denote (t : parser) :
  ∀ fuel, combinators_only t → height t ≤ fuel → computes (call order fuel t) (denote t).
Proof.
  induction t as [text | l IHl r IHr | l IHl r IHr | n | n q IH];
    intros fuel Ht Hfuel; simpl in Ht; try done;
    (destruct fuel as [|fuel]; [simpl in Hfuel; lia |]); simpl in Hfuel.
  - apply literal_computes.
  - destruct Ht. simpl.
    apply (concat_computes order order_enumerates); [apply IHl | apply IHr]; (done || lia).
  - destruct Ht. simpl. apply alt_computes; [apply IHl | apply IHr]; (done || lia).
Qed.

(** The loop of the driver over a parser that returns the sets [g] gives
    while it keeps [I]. *)
Lemma count_matches_steps (m : matcher) (g : string → gset string) (I : store → Prop) :
  computes_within I m g →
  ∀ lines match_count σ, I σ →
    ∃ σ', count_matches m lines match_count σ
          = Ok (match_count + length (filter (λ s, "" ∈ g s) lines), σ')
          ∧ I σ'.
Proof.
  intros Hm lines. induction lines as [|s lines IH]; intros c σ HI; simpl.
  - exists σ. unfold ret. rewrite Nat.add_0_r. auto.
  - destruct (Hm s σ HI) as (σ1 & E1 & HI1). unfold bind. rewrite E1. simpl.
    rewrite filter_cons. destruct (decide ("" ∈ g s)) as [Hin | Hin].
    + rewrite bool_decide_eq_true_2 by done.
      destruct (IH (S c) σ1 HI1) as (σ2 & E2 & HI2). exists σ2. rewrite E2. simpl.
      split; [| done]. do 2 f_equal. lia.
    + rewrite bool_decide_eq_false_2 by done. by apply IH.
Qed.

Section Rules.

Variable rules : gmap Z rule.
Hypothesis rules_closed : closed rules.
Hypothesis rules_acyclic : acyclic rules.
Hypothesis rules_nonempty : options_nonempty rules.

(** What both compilers make of a rule that is there, given fuel for
    every rule. *)
Lemma compilers_agree (n : Z) :
  is_Some (rules !! n) →
  ∃ t p σ1,
    combinators_only t
    ∧ (∀ fuel, size (dom rules) ≤ fuel →
               get_parser_p1 rules fuel n empty_store = Ok (t, empty_store)
               ∧ get_parser_part2 rules fuel n empty_store = Ok (p, σ1))
    ∧ erase p = t ∧ settled σ1 p ∧ untouched σ1.
Proof.
  intros Hn.
  destruct (get_parser_part2_simulates rules rules_closed rules_acyclic rules_nonempty
              (size (dom rules)) n ∅ empty_store)
    as (t & p & σ1 & E1 & E2 & He & Hp & (_ & _ & Hun) & _).
  - done.
  - intros v Hv. by apply not_elem_of_empty in Hv.
  - by rewrite difference_empty_L.
  - apply compiling_empty_store.
  - exists t, p, σ1. split_and!; try done.
    + by destruct (get_parser_p1_plain rules _ n empty_store t empty_store (E1 empty_store)).
    + intros fuel Hfuel. split.
      * rewrite <- (E1 empty_store). apply get_parser_p1_mono; [done |]. by rewrite E1.
      * rewrite <- E2. apply get_parser_part2_mono; [done |]. by rewrite E2.
Qed.

(** Called on one string after another, a settled closure is a function
    of its input as far as its results go: it returns each time what it
    denotes. *)
Lemma call_after_compile (p : parser) (σ1 : store) (fuel : nat) :
  settled σ1 p → height p ≤ fuel →
  computes_within (λ σ, parser_table σ = parser_table σ1 ∧ guards_agree (keys p) σ)
                  (call order fuel p) (denote p).
Proof.
  intros Hp Hfuel s σ [Ht Ha].
  destruct (call_settled order order_enumerates p fuel s σ (keys p))
    as (σ' & E & [Ht' _] & Ha'); try done.
  - by apply (settled_table σ1).
  - exists σ'. split_and!; [done | congruence | done].
Qed.

End Rules.

End Agreement.

(** C5: in a grammar where no rule refers to itself through any chain of
    rules, every rule referred to is there and no list of options or of
    parts is empty, the parser the compiler of part 1 makes for a rule [n]
    of the grammar and the parser the memoized compiler makes for it, from
    an empty parser table, return the same set on every string [s], given
    enough fuel and whatever the order in which sets are walked. *)
Theorem part2_agrees_with_part1 (order : gset string → list string)
        (rules : gmap Z rule) (n : Z) (s : string) :
  (∀ X, order X ≡ₚ elements X) →
  closed rules → acyclic rules → options_nonempty rules →
  is_Some (rules !! n) →
  ∃ X N, ∀ fuel, N ≤ fuel →
    match_p1 order rules fuel n s = Ok (PySet X, empty_store)
    ∧ ∃ σ', match_part2 order rules fuel n s = Ok (PySet X, σ').
Proof.
  intros Horder Hclosed Hacyclic Hnonempty Hn.
  destruct (compilers_agree rules Hclosed Hacyclic Hnonempty n Hn)
    as (t & p & σ1 & Ht & Hcompile & He & Hp & Hun).
  exists (denote t s), (size (dom rules) `max` (height t `max` height p)).
  intros fuel Hfuel. destruct (Hcompile fuel) as [E1 E2]; [lia |].
  unfold match_p1, match_part2. rewrite E1, E2. split.
  - apply (call_denote order Horder); [done | lia].
  - destruct (call_after_compile order Horder p σ1 fuel Hp) with (input := s) (σ := σ1)
      as (σ' & E & _); [lia | |].
    + split; [done |]. by apply untouched_guards_agree.
    + exists σ'. by rewrite E, <- He, denote_erase.
Qed.

(** The same for the counts of the driver: over any lines, part 2 counts
    what part 1 counts. *)
Corollary part2_counts_as_part1 (order : gset string → list string)
          (rules : gmap Z rule) (lines : list string) :
  (∀ X, order X ≡ₚ elements X) →
  closed rules → acyclic rules → options_nonempty rules →
  is_Some (rules !! 0%Z) →
  ∃ count N, ∀ fuel, N ≤ fuel →
    part1 order fuel rules lines = Ok count ∧ part2 order fuel rules lines = Ok count.
Proof.
  intros Horder Hclosed Hacyclic Hnonempty Hn.
  destruct (compilers_agree rules Hclosed Hacyclic Hnonempty 0 Hn)
    as (t & p & σ1 & Ht & Hcompile & He & Hp & Hun).
  exists (length (filter (λ s, "" ∈ denote t s) lines)),
         (size (dom rules) `max` (height t `max` height p)).
  intros fuel Hfuel. destruct (Hcompile fuel) as [E1 E2]; [lia |].
  unfold part1, part2. rewrite E1, E2. split.
  - rewrite (count_matches_computes _ (denote t)); [done |].
    apply (call_denote order Horder); [done | lia].
  - destruct (count_matches_steps (call order fuel p) (denote t)
                (λ σ, parser_table σ = parser_table σ1 ∧ guards_agree (keys p) σ))
      with (lines := lines) (match_count := 0) (σ := σ1) as (σ' & E & _).
    + intros s σ Hσ.
      destruct (call_after_compile order Horder p σ1 fuel Hp) with (input := s) (σ := σ)
        as (σ' & E & Hσ'); [lia | done |].
      exists σ'. split; [| done]. by rewrite E, <- He, denote_erase.
    + split; [done |]. by apply untouched_guards_agree.
    + by rewrite E.
Qed.

(** The sample grammar [rules_a_b] is of this kind. *)

Lemma rules_a_b_alternatives (n : Z) (options : list (list Z)) :
  rules_a_b !! n = Some (Alternatives options) → n = 0%Z ∧ options = [[1%Z; 2%Z]].
Proof.
  unfold rules_a_b. intros H.
  apply lookup_insert_Some in H as [[<- [= <-]] | [_ H]]; [done |].
  apply lookup_insert_Some in H as [[_ [=]] | [_ H]].
  apply lookup_insert_Some in H as [[_ [=]] | [_ H]].
  by rewrite lookup_empty in H.
Qed.

Lemma rules_a_b_references (n m : Z) :
  references rules_a_b n m → n = 0%Z ∧ (m = 1%Z ∨ m = 2%Z).
Proof.
  intros (options & parts & Hn & Hparts & Hm).
  apply rules_a_b_alternatives in Hn as [-> ->]. split; [done |].
  apply list_elem_of_singleton in Hparts as ->.
  apply elem_of_cons in Hm as [-> | Hm]; [by left |].
  apply list_elem_of_singleton in Hm as ->. by right.
Qed.

Lemma rules_a_b_closed : closed rules_a_b.
Proof.
  intros n m [_ [-> | ->]]%rules_a_b_references; by eexists.
Qed.

Lemma rules_a_b_acyclic : acyclic rules_a_b.
Proof.
  assert (∀ x y, tc (references rules_a_b) x y → x = 0%Z ∧ (y = 1%Z ∨ y = 2%Z)) as Htc.
  { intros x y Hxy. induction Hxy as [x y Hr | x y z Hr _ [-> _]].
    - by apply rules_a_b_references.
    - by apply rules_a_b_references in Hr as [_ [[=] | [=]]]. }
  intros n Hn. by apply Htc in Hn as [-> [[=] | [=]]].
Qed.

Lemma rules_a_b_nonempty : options_nonempty rules_a_b.
Proof.
  intros n options [-> ->]%rules_a_b_alternatives. split; [done |].
  by intros parts ->%list_elem_of_singleton.
Qed.

Lemma part2_agrees_with_part1_witness :
  ∃ X N, ∀ fuel, N ≤ fuel →
    match_p1 elements rules_a_b fuel 0 "ab" = Ok (PySet X, empty_store)
    ∧ ∃ σ', match_part2 elements rules_a_b fuel 0 "ab" = Ok (PySet X, σ').
Proof.
  apply (part2_agrees_with_part1 elements rules_a_b 0 "ab"
           (λ X, Permutation_refl (elements X))
           rules_a_b_closed rules_a_b_acyclic rules_a_b_nonempty).
  by eexists.
Defined.

(** ** The rules read from a file *)

Lemma split_go_nonempty (sep : string) (skip : nat) (current s : string) :
  split_go sep skip current s ≠ [].
Proof.
  revert skip current. induction s as [|c s IH]; intros skip current; simpl; [done |].
  destruct skip as [|skip]; [| apply IH].
  destruct (startswith (String c s) sep); [done | apply IH].
Qed.

Lemma for_each_nonempty {A B} (f : A → result B) (xs : list A) (ys : list B) :
  for_each f xs = Ok ys → xs ≠ [] → ys ≠ [].
Proof.
  destruct xs as [|x xs]; [done |]. simpl. intros H _.
  destruct (f x); try done. destruct (for_each f xs); try done.
  by injection H as <-.
Qed.

Lemma for_each_elem_of {A B} (f : A → result B) (xs : list A) (ys : list B) (y : B) :
  for_each f xs = Ok ys → y ∈ ys → ∃ x, x ∈ xs ∧ f x = Ok y.
Proof.
  revert ys. induction xs as [|x xs IH]; intros ys; simpl.
  - intros [= <-] Hy. by apply elem_of_nil in Hy.
  - destruct (f x) as [y'| |] eqn:E; try done.
    destruct (for_each f xs) as [ys'| |]; try done.
    intros [= <-] [-> | Hy]%elem_of_cons.
    + exists x. split; [by left | done].
    + destruct (IH ys' eq_refl Hy) as (x' & ? & ?). exists x'. split; [by right | done].
Qed.

Lemma read_rule_nonempty (rule_string : string) (n : Z) (options : list (list Z)) :
  read_rule rule_string = Ok (n, Alternatives options) →
  options ≠ [] ∧ ∀ parts, parts ∈ options → parts ≠ [].
Proof.
  unfold read_rule.
  destruct (py_int _) as [k| |]; try done.
  destruct (split rule_string ": " !! 1) as [body|]; try done.
  destruct (startswith body _); [done |].
  destruct (for_each _ (split body "|")) as [options'| |] eqn:E; try done.
  intros [= _ <-]. split.
  - apply (for_each_nonempty _ _ _ E), split_go_nonempty.
  - intros parts Hparts.
    destruct (for_each_elem_of _ _ _ _ E Hparts) as (option & _ & E').
    apply (for_each_nonempty _ _ _ E'), split_go_nonempty.
Qed.

Lemma options_nonempty_insert (rules : gmap Z rule) (n : Z) (r : rule) :
  options_nonempty rules →
  (∀ options, r = Alternatives options →
              options ≠ [] ∧ ∀ parts, parts ∈ options → parts ≠ []) →
  options_nonempty (<[n := r]> rules).
Proof.
  intros Hrules Hr m options [[<- ->] | [_ Hm]]%lookup_insert_Some.
  - by apply Hr.
  - by apply (Hrules m).
Qed.

Lemma read_rules_nonempty (rule_strings : list string) :
  ∀ rules rules', options_nonempty rules →
                  read_rules rule_strings rules = Ok rules' → options_nonempty rules'.
Proof.
  induction rule_strings as [|rule_string rule_strings IH]; intros rules rules' Hrules; simpl.
  - by intros [= <-].
  - destruct (read_rule rule_string) as [[n r]| |] eqn:E; try done.
    apply IH, options_nonempty_insert; [done |].
    intros options ->. by apply (read_rule_nonempty rule_string n).
Qed.

(** In the rules read from a file every list of options and every option
    has an element, and the two rules part 2 puts in do not change that. *)
Lemma rules_of_nonempty (input_lines : list string) (rules : gmap Z rule) :
  rules_of input_lines = Ok rules →
  options_nonempty rules ∧ options_nonempty (part2_rules rules).
Proof.
  unfold rules_of. destruct (index "" input_lines) as [k| |]; try done.
  intros H.
  assert (options_nonempty rules) as Hrules.
  { apply (read_rules_nonempty (take k input_lines) ∅ rules); [| done].
    intros n options Hn. by rewrite lookup_empty in Hn. }
  split; [done |]. unfold part2_rules.
  apply options_nonempty_insert; [apply options_nonempty_insert; [done |] |].
  - intros options [= <-]. split; [done |].
    intros parts Hparts. repeat (apply elem_of_cons in Hparts as [-> | Hparts]; [done |]).
    by apply elem_of_nil in Hparts.
  - intros options [= <-]. split; [done |].
    intros parts Hparts. repeat (apply elem_of_cons in Hparts as [-> | Hparts]; [done |]).
    by apply elem_of_nil in Hparts.
Qed.

(** * Further properties *)

(** ** What every call keeps *)

Section CallInvariant.

Variable order : gset string → list string.
Variable J : store → Prop.
Variable WF : parser → Prop.
Variable Q : parser → string → pyval → Prop.

Hypothesis WF_concat : ∀ l r, WF (Concat l r) → WF l ∧ WF r.
Hypothesis WF_alt : ∀ l r, WF (Alt l r) → WF l ∧ WF r.
Hypothesis WF_wrapper : ∀ n q, WF (Wrapper n q) → WF q.
Hypothesis WF_table : ∀ σ n q, J σ → parser_table σ !! n = Some q → WF q.
Hypothesis J_incr :
  ∀ n s σ, J σ → memo σ n !! s = None → depth σ n s ≤ String.length s + 1 →
           J (incr_depth n s σ).
Hypothesis J_memo :
  ∀ n q s v σ, J σ → WF (Wrapper n q) → Q (Wrapper n q) s v → J (set_memo n s v σ).
Hypothesis Q_literal : ∀ t s, Q (Literal t) s (PySet (literal_set t s)).
Hypothesis Q_concat :
  ∀ l r s vl acc,
    WF (Concat l r) → Q l s vl →
    (∀ y, y ∈ acc → ∃ x v, x ∈ iter order vl ∧ Q r x v ∧ y ∈ members v) →
    Q (Concat l r) s (PySet acc).
Hypothesis Q_alt :
  ∀ l r s a b v, WF (Alt l r) → Q l s a → Q r s b → py_or a b = Ok v → Q (Alt l r) s v.
Hypothesis Q_deferred :
  ∀ σ n q s v, J σ → parser_table σ !! n = Some q → Q q s v → Q (Deferred n) s v.
Hypothesis Q_hit :
  ∀ σ n q s v, J σ → WF (Wrapper n q) → memo σ n !! s = Some v → Q (Wrapper n q) s v.
Hypothesis Q_cutoff : ∀ n q s, Q (Wrapper n q) s PyDict.
Hypothesis Q_miss : ∀ n q s v, WF (Wrapper n q) → Q q s v → Q (Wrapper n q) s v.

Lemma for_rest_invariant (m : matcher) (r : parser) :
  (∀ s σ v σ', m s σ = Ok (v, σ') → J σ → J σ' ∧ Q r s v) →
  ∀ rests acc σ acc' σ',
    for_rest m rests acc σ = Ok (acc', σ') → J σ →
    J σ' ∧ ∀ y, y ∈ acc' → y ∈ acc ∨ ∃ x v, x ∈ rests ∧ Q r x v ∧ y ∈ members v.
Proof.
  intros Hm rests. induction rests as [|x rests IH]; intros acc σ acc' σ'; simpl.
  - unfold ret. intros [= <- <-] HJ. split; [done |]. by left.
  - unfold bind. destruct (m x σ) as [[v σ1]| |] eqn:E; try done.
    intros Hrest HJ. destruct (Hm x σ v σ1 E HJ) as [HJ1 HQ].
    destruct (IH _ _ _ _ Hrest HJ1) as [HJ' Hacc]. split; [done |].
    intros y Hy. destruct (Hacc y Hy) as [Hin | (x' & v' & Hx' & HQ' & Hy')].
    + destruct v as [X|]; simpl in Hin.
      * apply elem_of_union in Hin as [Hin | Hin]; [by left |].
        right. exists x, (PySet X). split_and!; [by left | done | done].
      * by left.
    + right. exists x', v'. split_and!; [by right | done | done].
Qed.

(** A call that comes back keeps [J] and returns a value that is [Q]. *)
Lemma call_invariant (fuel : nat) :
  ∀ p s σ v σ', call order fuel p s σ = Ok (v, σ') → J σ → WF p → J σ' ∧ Q p s v.
Proof.
  induction fuel as [|fuel IH]; intros p s σ v σ'; [done |].
  destruct p as [t | l r | l r | n | n q]; simpl.
  - rewrite literal_computes. intros [= <- <-] HJ _. split; [done | apply Q_literal].
  - intros Hcall HJ Hwf. destruct (WF_concat l r Hwf) as [Hl Hr].
    unfold concat, bind in Hcall.
    destruct (call order fuel l s σ) as [[vl σ1]| |] eqn:El; try done.
    destruct (IH l s σ vl σ1 El HJ Hl) as [HJ1 HQl].
    destruct (for_rest (call order fuel r) (iter order vl) ∅ σ1) as [[acc σ2]| |] eqn:Er;
      try done.
    injection Hcall as <- <-.
    destruct (for_rest_invariant (call order fuel r) r) with
      (rests := iter order vl) (acc := (∅ : gset string)) (σ := σ1) (acc' := acc) (σ' := σ2)
      as [HJ2 Hacc]; try done.
    + intros s' σ' v' σ'' E' HJ'. by apply (IH r s' σ').
    + split; [done |]. apply (Q_concat l r s vl); [done | done |].
      intros y Hy. destruct (Hacc y Hy) as [Hin | ?]; [| done].
      by apply not_elem_of_empty in Hin.
  - intros Hcall HJ Hwf. destruct (WF_alt l r Hwf) as [Hl Hr].
    unfold alt, bind, lift in Hcall.
    destruct (call order fuel l s σ) as [[a σ1]| |] eqn:El; try done.
    destruct (IH l s σ a σ1 El HJ Hl) as [HJ1 HQl].
    destruct (call order fuel r s σ1) as [[b σ2]| |] eqn:Er; try done.
    destruct (IH r s σ1 b σ2 Er HJ1 Hr) as [HJ2 HQr].
    destruct (py_or a b) as [v'| |] eqn:Eor; try done.
    injection Hcall as <- <-. split; [done |]. by apply (Q_alt l r s a b).
  - destruct (parser_table σ !! n) as [q|] eqn:Ht; [| done].
    intros Hcall HJ _. destruct (IH q s σ v σ' Hcall HJ (WF_table σ n q HJ Ht)) as [HJ' HQ].
    split; [done |]. by apply (Q_deferred σ n q).
  - intros Hcall HJ Hwf. unfold parser_wrapper in Hcall.
    destruct (memo σ n !! s) as [w|] eqn:Hm.
    + injection Hcall as <- <-. split; [done |]. by apply (Q_hit σ).
    + destruct (String.length s + 1 <? depth σ n s) eqn:Hd.
      * injection Hcall as <- <-. split; [done | apply Q_cutoff].
      * apply Nat.ltb_ge in Hd.
        destruct (call order fuel q s (incr_depth n s σ)) as [[w σ1]| |] eqn:Eq; try done.
        injection Hcall as <- <-.
        destruct (IH q s _ w σ1 Eq) as [HJ1 HQ]; [by apply J_incr | by apply (WF_wrapper n) |].
        assert (Q (Wrapper n q) s w) as HQ' by (by apply Q_miss).
        split; [by apply (J_memo n q) | done].
Qed.

End CallInvariant.

Lemma depth_incr_depth_cases (n m : Z) (s x : string) (σ : store) :
  depth (incr_depth n s σ) m x
  = if decide (n = m ∧ s = x) then S (depth σ n s) else depth σ m x.
Proof.
  destruct (decide (n = m ∧ s = x)) as [[<- <-] | Hne].
  - apply depth_incr_depth.
  - destruct (decide (n = m)) as [<- | Hnm].
    + apply depth_incr_depth_other. intros <-. by apply Hne.
    + by apply depth_incr_depth_ne.
Qed.

Lemma memo_set_memo_is_Some (n m : Z) (s x : string) (v : pyval) (σ : store) :
  is_Some (memo σ m !! x) → is_Some (memo (set_memo n s v σ) m !! x).
Proof.
  intros H. destruct (decide (n = m)) as [<- | Hne].
  - rewrite memo_set_memo_eq. destruct (decide (s = x)) as [<- | Hs].
    + rewrite lookup_insert_eq. by eexists.
    + by rewrite lookup_insert_ne.
  - by rewrite memo_set_memo_ne.
Qed.

(** X1: a call that comes back leaves the parser table as it was, drops
    no memoized string, lowers no count, and, where every count was at
    most [len + 2], leaves every count at most [len + 2]. *)
Theorem call_keeps_tables (order : gset string → list string) (fuel : nat) (p : parser)
        (s : string) (σ σ' : store) (v : pyval) :
  call order fuel p s σ = Ok (v, σ') →
  (∀ n x, depth σ n x ≤ String.length x + 2) →
  parser_table σ' = parser_table σ
  ∧ (∀ n x, depth σ n x ≤ depth σ' n x ∧ depth σ' n x ≤ String.length x + 2)
  ∧ (∀ n x, is_Some (memo σ n !! x) → is_Some (memo σ' n !! x)).
Proof.
  intros Hcall Hbound.
  destruct (call_invariant order
              (λ σ1, parser_table σ1 = parser_table σ
                     ∧ (∀ n x, depth σ n x ≤ depth σ1 n x
                               ∧ depth σ1 n x ≤ String.length x + 2)
                     ∧ (∀ n x, is_Some (memo σ n !! x) → is_Some (memo σ1 n !! x)))
              (λ _, True) (λ _ _ _, True)) with
    (fuel := fuel) (p := p) (s := s) (σ := σ) (v := v) (σ' := σ') as [HJ _];
    try done.
  - intros n y σ1 (Ht & Hd & Hm) Hmiss Hle. split_and!; [done | | done].
    intros m x. rewrite depth_incr_depth_cases. destruct (Hd m x) as [H1 H2].
    destruct (decide (n = m ∧ y = x)) as [[<- <-] | _]; [lia | done].
  - intros n q y w σ1 (Ht & Hd & Hm) _ _. split_and!; [done | done |].
    intros m x Hx. by apply memo_set_memo_is_Some, Hm.
Qed.

Lemma call_keeps_tables_witness :
  parser_table (set_memo 42 "ab" (PySet {[ "b" ]}) (incr_depth 42 "ab" empty_store))
  = parser_table empty_store
  ∧ (∀ n x, depth empty_store n x
            ≤ depth (set_memo 42 "ab" (PySet {[ "b" ]}) (incr_depth 42 "ab" empty_store)) n x
            ∧ depth (set_memo 42 "ab" (PySet {[ "b" ]}) (incr_depth 42 "ab" empty_store)) n x
              ≤ String.length x + 2)
  ∧ (∀ n x, is_Some (memo empty_store n !! x) →
            is_Some (memo (set_memo 42 "ab" (PySet {[ "b" ]})
                             (incr_depth 42 "ab" empty_store)) n !! x)).
Proof.
  apply (call_keeps_tables elements 2 (Wrapper 42 (Literal "a")) "ab" empty_store _
           (PySet {[ "b" ]})).
  - reflexivity.
  - intros n x. unfold depth. simpl. rewrite lookup_empty. simpl. rewrite lookup_empty.
    simpl. lia.
Defined.

(** X2: whatever closure is called and whatever the rules, in a store
    whose memoized values hold suffixes of their strings a call that comes
    back returns suffixes of its input only, none longer than the input,
    and leaves such a store. *)
Theorem call_returns_suffixes (order : gset string → list string) (fuel : nat)
        (p : parser) (s : string) (σ σ' : store) (v : pyval) :
  (∀ X, order X ≡ₚ elements X) →
  memo_suffixes σ →
  call order fuel p s σ = Ok (v, σ') →
  memo_suffixes σ'
  ∧ ∀ r, r ∈ members v → is_suffix r s ∧ String.length r ≤ String.length s.
Proof.
  intros Horder Hσ Hcall.
  destruct (call_invariant order memo_suffixes (λ _, True)
              (λ _ x w, ∀ r, r ∈ members w → is_suffix r x)) with
    (fuel := fuel) (p := p) (s := s) (σ := σ) (v := v) (σ' := σ') as [HJ HQ];
    try done.
  - intros n q y w σ1 HJ _ HQ m x w' r. unfold memo_suffixes in HJ.
    destruct (decide (n = m)) as [<- | Hne].
    + rewrite memo_set_memo_eq. destruct (decide (y = x)) as [<- | Hy].
      * rewrite lookup_insert_eq. intros [= <-]. apply HQ.
      * rewrite lookup_insert_ne by done. apply HJ.
    + rewrite memo_set_memo_ne by done. apply HJ.
  - intros t x r. unfold literal_set. simpl. destruct (startswith x t) eqn:E.
    + intros ->%elem_of_singleton. exists t. by apply startswith_inv.
    + intros Hr. by apply not_elem_of_empty in Hr.
  - intros l r x vl acc _ Hl Hacc y Hy.
    destruct (Hacc y Hy) as (x' & w & Hx' & Hw & Hyw).
    apply (is_suffix_trans y x'); [by apply Hw |]. apply Hl.
    destruct vl as [X|]; simpl in *; [| by apply elem_of_nil in Hx'].
    by apply (elem_of_order order Horder).
  - intros l r x a b w _ Ha Hb Hor y Hy.
    destruct a as [A|], b as [B|]; simpl in Hor; try done; injection Hor as <-; simpl in Hy.
    + apply elem_of_union in Hy as [Hy | Hy]; [by apply Ha | by apply Hb].
    + by apply not_elem_of_empty in Hy.
  - intros σ1 n q x w HJ _ Hm r Hr. by apply (HJ n x w).
  - split; [done |]. intros r Hr. split; [by apply HQ |].
    by apply is_suffix_length, HQ.
Qed.

Lemma call_returns_suffixes_witness :
  memo_suffixes (set_memo 42 "ab" (PySet {[ "b" ]}) (incr_depth 42 "ab" empty_store))
  ∧ ∀ r, r ∈ members (PySet {[ "b" ]}) →
         is_suffix r "ab" ∧ String.length r ≤ String.length "ab".
Proof.
  apply (call_returns_suffixes elements 2 (Wrapper 42 (Literal "a")) "ab" empty_store).
  - intros X. reflexivity.
  - intros n s v r Hm. unfold memo in Hm. simpl in Hm. by rewrite !lookup_empty in Hm.
  - reflexivity.
Defined.

(** ** What every compilation keeps *)

Section CompileInvariant.

Variable rules : gmap Z rule.
Variable I : store → Prop.
Variable P : Z → parser → Prop.
Variable Pseq : list Z → parser → Prop.
Variable Palt : list (list Z) → parser → Prop.

Hypothesis P_part : ∀ m p, P m p → Pseq [m] p.
Hypothesis Pseq_snoc : ∀ ms m p q, Pseq ms p → P m q → Pseq (ms ++ [m]) (Concat p q).
Hypothesis Palt_one : ∀ parts p, Pseq parts p → Palt [parts] p.
Hypothesis Palt_snoc :
  ∀ os parts p q, Palt os p → Pseq parts q → Palt (os ++ [parts]) (Alt p q).
Hypothesis P_terminal : ∀ n text, rules !! n = Some (Terminal text) → P n (Literal text).
Hypothesis P_alternatives :
  ∀ n options p, rules !! n = Some (Alternatives options) → Palt options p → P n p.

Section Body.

Variable get : Z → comp parser.
Hypothesis get_keeps : ∀ m σ p σ', get m σ = Ok (p, σ') → I σ → I σ' ∧ P m p.

Lemma make_concat_loop_keeps (parts : list Z) :
  ∀ pre p0 σ p σ',
    make_concat_loop get p0 parts σ = Ok (p, σ') → I σ → Pseq pre p0 →
    I σ' ∧ Pseq (pre ++ parts) p.
Proof.
  induction parts as [|part parts IH]; intros pre p0 σ p σ'; simpl.
  - unfold ret. intros [= <- <-] HI HP. by rewrite app_nil_r.
  - unfold bind. destruct (get part σ) as [[q σ1]| |] eqn:E; try done.
    intros Hloop HI HP. destruct (get_keeps _ _ _ _ E HI) as [HI1 HPq].
    destruct (IH (pre ++ [part])%list _ _ _ _ Hloop HI1) as [HI' HP'].
    + by apply Pseq_snoc.
    + split; [done |]. by rewrite <- app_assoc in HP'.
Qed.

Lemma make_concat_keeps (parts : list Z) (σ : store) (p : parser) (σ' : store) :
  make_concat get parts σ = Ok (p, σ') → I σ → I σ' ∧ Pseq parts p.
Proof.
  destruct parts as [|part parts]; simpl; [done |].
  unfold bind. destruct (get part σ) as [[q σ1]| |] eqn:E; try done.
  intros Hloop HI. destruct (get_keeps _ _ _ _ E HI) as [HI1 HPq].
  apply (make_concat_loop_keeps parts [part] q σ1); [done | done | by apply P_part].
Qed.

Lemma alt_loop_keeps (alts : list (list Z)) :
  ∀ pre p0 σ p σ',
    alt_loop get p0 alts σ = Ok (p, σ') → I σ → Palt pre p0 →
    I σ' ∧ Palt (pre ++ alts) p.
Proof.
  induction alts as [|parts alts IH]; intros pre p0 σ p σ'; simpl.
  - unfold ret. intros [= <- <-] HI HP. by rewrite app_nil_r.
  - unfold bind. destruct (make_concat get parts σ) as [[q σ1]| |] eqn:E; try done.
    intros Hloop HI HP. destruct (make_concat_keeps _ _ _ _ E HI) as [HI1 HPq].
    destruct (IH (pre ++ [parts])%list _ _ _ _ Hloop HI1) as [HI' HP'].
    + by apply Palt_snoc.
    + split; [done |]. by rewrite <- app_assoc in HP'.
Qed.

Lemma translate_keeps (n : Z) (σ : store) (p : parser) (σ' : store) :
  translate rules get n σ = Ok (p, σ') → I σ → I σ' ∧ P n p.
Proof.
  unfold translate. destruct (rules !! n) as [[text | [|parts alts]]|] eqn:Hn; try done.
  - unfold ret. intros [= <- <-] HI. split; [done | by apply P_terminal].
  - unfold bind. destruct (make_concat get parts σ) as [[q σ1]| |] eqn:E; try done.
    intros Hloop HI. destruct (make_concat_keeps _ _ _ _ E HI) as [HI1 HPq].
    destruct (alt_loop_keeps alts [parts] q σ1 p σ' Hloop HI1) as [HI' HP'].
    + by apply Palt_one.
    + split; [done |]. by apply (P_alternatives n (parts :: alts)).
Qed.

End Body.

(** The compiler of part 1: what comes back for rule [n] is [P n]. *)
Lemma get_parser_p1_keeps (fuel : nat) :
  ∀ n σ p σ', get_parser_p1 rules fuel n σ = Ok (p, σ') → I σ → I σ' ∧ P n p.
Proof.
  induction fuel as [|fuel IH]; intros n σ p σ'; [done |].
  simpl. by apply translate_keeps.
Qed.

Hypothesis P_table : ∀ σ n q, I σ → parser_table σ !! n = Some q → P n q.
Hypothesis P_wrapper : ∀ n p, P n p → P n (Wrapper n p).
Hypothesis I_placeholder :
  ∀ σ n, I σ → parser_table σ !! n = None → I (set_table n (Deferred n) σ).
Hypothesis I_done :
  ∀ σ n p, I σ → P n p → I (new_tables n (set_table n p σ)).

(** The memoized compiler: the store stays [I] and what comes back for
    rule [n] is [P n]. *)
Lemma get_parser_part2_keeps (fuel : nat) :
  ∀ n σ p σ', get_parser_part2 rules fuel n σ = Ok (p, σ') → I σ → I σ' ∧ P n p.
Proof.
  induction fuel as [|fuel IH]; intros n σ p σ'; [done |].
  simpl. destruct (parser_table σ !! n) as [q|] eqn:Ht.
  - rewrite (get_parser_hit _ _ _ _ Ht). intros [= <- <-] HI.
    split; [done | by apply (P_table σ)].
  - rewrite get_parser_miss by done.
    destruct (translate rules (get_parser_part2 rules fuel) n (set_table n (Deferred n) σ))
      as [[q σ1]| |] eqn:E; try done.
    intros [= <- <-] HI.
    destruct (translate_keeps (get_parser_part2 rules fuel) IH _ _ _ _ E) as [HI1 HP].
    + by apply I_placeholder.
    + split; [by apply I_done | by apply P_wrapper].
Qed.

End CompileInvariant.

(** ** What the closures stand for *)

Lemma app_nil_r_string (s : string) : s +:+ EmptyString = s.
Proof.
  induction s as [|c s IH]; [done |]. rewrite app_cons_string. by f_equal.
Qed.

Lemma app_inv_head_string (t r r' : string) : t +:+ r = t +:+ r' → r = r'.
Proof.
  induction t as [|c t IH]; [done |]. rewrite !app_cons_string. intros [= H]. auto.
Qed.

Lemma elem_of_literal_set (t s r : string) : r ∈ literal_set t s ↔ s = t +:+ r.
Proof.
  unfold literal_set. destruct (startswith s t) eqn:E.
  - rewrite elem_of_singleton. split.
    + intros ->. by apply startswith_inv.
    + intros H. apply startswith_inv in E. rewrite H in E at 1.
      symmetry. by apply app_inv_head_string in E.
  - split; [intros H; by apply not_elem_of_empty in H |].
    intros H. assert (startswith s t = true) as E' by (apply startswith_iff; eauto).
    congruence.
Qed.

Section Derivations.

Variable rules : gmap Z rule.

Lemma derives_seq_singleton (m : Z) (w : string) :
  derives_seq rules [m] w ↔ derives rules m w.
Proof.
  split.
  - intros H. inversion H as [|m' ms w1 w2 H1 H2]; subst.
    inversion H2; subst. by rewrite app_nil_r_string.
  - intros H. rewrite <- (app_nil_r_string w). constructor; [done | constructor].
Qed.

Lemma derives_seq_app (a b : list Z) (w : string) :
  derives_seq rules (a ++ b) w
  ↔ ∃ w1 w2, w = w1 +:+ w2 ∧ derives_seq rules a w1 ∧ derives_seq rules b w2.
Proof.
  revert w. induction a as [|m a IH]; intros w; simpl.
  - split.
    + intros H. exists EmptyString, w. split_and!; [done | constructor | done].
    + intros (w1 & w2 & -> & H1 & H2). by inversion H1; subst.
  - split.
    + intros H. inversion H as [|m' ms w1 w2 H1 H2]; subst.
      apply IH in H2 as (u1 & u2 & -> & Hu1 & Hu2).
      exists (w1 +:+ u1), u2. split_and!; [by rewrite app_assoc_string | | done].
      by constructor.
    + intros (w1 & w2 & -> & H1 & H2).
      inversion H1 as [|m' ms u1 u2 Hu1 Hu2]; subst.
      rewrite app_assoc_string. constructor; [done |]. apply IH. eauto.
Qed.

Lemma stands_for_part (m : Z) (p : parser) :
  stands_for rules m p → stands_for_seq rules [m] p.
Proof.
  intros [Hg Hs]. split; [done |]. intros w. by rewrite derives_seq_singleton.
Qed.

Lemma stands_for_seq_snoc (ms : list Z) (m : Z) (p q : parser) :
  stands_for_seq rules ms p → stands_for rules m q →
  stands_for_seq rules (ms ++ [m]) (Concat p q).
Proof.
  intros [Hgp Hp] [Hgq Hq]. split; [done |]. intros w. rewrite derives_seq_app. simpl.
  split; intros (w1 & w2 & -> & H1 & H2); exists w1, w2; split_and!; try done.
  - by apply Hp.
  - by apply derives_seq_singleton, Hq.
  - by apply Hp.
  - by apply Hq, derives_seq_singleton.
Qed.

Lemma stands_for_options_one (parts : list Z) (p : parser) :
  stands_for_seq rules parts p → stands_for_options rules [parts] p.
Proof.
  intros [Hg Hs]. split; [done |]. intros w. rewrite Hs. split.
  - intros H. exists parts. split; [by left | done].
  - by intros (parts' & ->%list_elem_of_singleton & H).
Qed.

Lemma stands_for_options_snoc (os : list (list Z)) (parts : list Z) (p q : parser) :
  stands_for_options rules os p → stands_for_seq rules parts q →
  stands_for_options rules (os ++ [parts]) (Alt p q).
Proof.
  intros [Hgp Hp] [Hgq Hq]. split; [done |]. intros w. simpl. rewrite Hp, Hq. split.
  - intros [(parts' & Hin & H) | H].
    + exists parts'. split; [| done]. apply elem_of_app. by left.
    + exists parts. split; [| done]. apply elem_of_app. right. by left.
  - intros (parts' & [Hin | ->%list_elem_of_singleton]%elem_of_app & H); [left | by right].
    by exists parts'.
Qed.

Lemma stands_for_terminal (n : Z) (text : string) :
  rules !! n = Some (Terminal text) → stands_for rules n (Literal text).
Proof.
  intros Hn. split; [done |]. intros w. simpl. split.
  - intros ->. by constructor.
  - intros H. inversion H as [n' t Hn' | n' options parts w' Hn']; subst; congruence.
Qed.

Lemma stands_for_alternatives (n : Z) (options : list (list Z)) (p : parser) :
  rules !! n = Some (Alternatives options) →
  stands_for_options rules options p → stands_for rules n p.
Proof.
  intros Hn [Hg Hs]. split; [done |]. intros w. rewrite Hs. split.
  - intros (parts & Hin & H). by apply (derives_alternatives rules n options parts).
  - intros H. inversion H as [n' t Hn' | n' options' parts w' Hn' Hin Hseq]; subst;
      [congruence |].
    rewrite Hn in Hn'. injection Hn' as <-. eauto.
Qed.

Lemma stands_for_wrapper (n : Z) (p : parser) :
  stands_for rules n p → stands_for rules n (Wrapper n p).
Proof.
  intros [Hg Hs]. split; [| done]. simpl. split; [| done]. intros w. apply Hs.
Qed.

(** What the compiler of part 1 returns for a rule stands for the strings
    of the rule. *)
Lemma get_parser_p1_stands_for (fuel : nat) (n : Z) (σ : store) (p : parser) (σ' : store) :
  get_parser_p1 rules fuel n σ = Ok (p, σ') → stands_for rules n p.
Proof.
  intros H.
  by destruct (get_parser_p1_keeps rules (λ _, True) (stands_for rules)
                 (stands_for_seq rules) (stands_for_options rules)
                 stands_for_part stands_for_seq_snoc stands_for_options_one
                 stands_for_options_snoc stands_for_terminal stands_for_alternatives
                 fuel n σ p σ' H I).
Qed.

(** So does what the memoized compiler returns, and the store it leaves
    is one in which every table entry stands for its rule. *)
Lemma get_parser_part2_stands_for (fuel : nat) (n : Z) (σ : store) (p : parser)
      (σ' : store) :
  get_parser_part2 rules fuel n σ = Ok (p, σ') → table_stands rules σ →
  table_stands rules σ' ∧ stands_for rules n p.
Proof.
  apply (get_parser_part2_keeps rules (table_stands rules) (stands_for rules)
           (stands_for_seq rules) (stands_for_options rules)
           stands_for_part stands_for_seq_snoc stands_for_options_one
           stands_for_options_snoc stands_for_terminal stands_for_alternatives).
  - intros σ1 m q [Ht _] Hm. by apply Ht.
  - apply stands_for_wrapper.
  - intros σ1 m [Ht Hun] Hm. split; [| by apply untouched_set_table].
    intros k q Hk. simpl in Hk.
    apply lookup_insert_Some in Hk as [[<- <-] | [_ Hk]]; [by split | by apply Ht].
  - intros σ1 m q [Ht Hun] Hq. split; [| by apply untouched_new_tables, untouched_set_table].
    intros k q' Hk. simpl in Hk.
    apply lookup_insert_Some in Hk as [[<- <-] | [_ Hk]]; [done | by apply Ht].
Qed.

End Derivations.
(** ** Part 1 matches what the rules derive *)

(** What a closure of combinators leaves of a string are the remainders
    after the strings it stands for. *)
Lemma denote_sem (rules : gmap Z rule) (p : parser) :
  combinators_only p →
  ∀ s r, r ∈ denote p s ↔ ∃ w, sem rules p w ∧ s = w +:+ r.
Proof.
  induction p as [t | l IHl r0 IHr | l IHl r0 IHr | n | n q IH];
    intros Hp s r; simpl in Hp; try done.
  - simpl. rewrite elem_of_literal_set. split.
    + intros ->. eauto.
    + by intros (w & -> & ->).
  - destruct Hp as [Hl Hr]. simpl. rewrite elem_of_set_bind. split.
    + intros (x & Hx & Hr').
      apply IHl in Hx as (w1 & H1 & ->); [| done].
      apply IHr in Hr' as (w2 & H2 & ->); [| done].
      exists (w1 +:+ w2). split; [eauto 6 | by rewrite app_assoc_string].
    + intros (w & (w1 & w2 & -> & H1 & H2) & ->). exists (w2 +:+ r). split.
      * apply IHl; [done |]. exists w1. split; [done |]. by rewrite app_assoc_string.
      * apply IHr; eauto.
  - destruct Hp as [Hl Hr]. simpl. rewrite elem_of_union, (IHl Hl), (IHr Hr). split.
    + intros [(w & ? & ?) | (w & ? & ?)]; exists w; eauto.
    + intros (w & [? | ?] & ?); [left | right]; eauto.
Qed.

(** The whole of a string is what is left of it after nothing else. *)
Lemma whole_string_left (L : string → Prop) (s : string) :
  (∃ w, L w ∧ s = w +:+ "") ↔ L s.
Proof.
  split.
  - intros (w & Hw & ->). by rewrite app_nil_r_string.
  - intros H. exists s. by rewrite app_nil_r_string.
Qed.

(** X3: whatever the rules, a closure that the compiler of part 1 returns
    for rule [n] is correct for the grammar: called on [s] it returns,
    without touching the store, the set of exactly those [r] with
    [s = w + r] for a string [w] that rule [n] derives. *)
Theorem p1_matches_derivations (order : gset string → list string)
        (rules : gmap Z rule) (fuel : nat) (n : Z) (σ0 : store) (p : parser)
        (σ1 : store) :
  (∀ X, order X ≡ₚ elements X) →
  get_parser_p1 rules fuel n σ0 = Ok (p, σ1) →
  ∀ s σ, ∃ X, call order (height p) p s σ = Ok (PySet X, σ)
              ∧ ∀ r, r ∈ X ↔ ∃ w, derives rules n w ∧ s = w +:+ r.
Proof.
  intros Horder Hp s σ.
  destruct (get_parser_p1_plain rules fuel n σ0 p σ1 Hp) as [Hc _].
  destruct (get_parser_p1_stands_for rules fuel n σ0 p σ1 Hp) as [_ Hs].
  exists (denote p s). split.
  - by apply (call_denote order Horder).
  - intros r. rewrite (denote_sem rules p Hc). split.
    + intros (w & Hw & ->). exists w. split; [by apply Hs | done].
    + intros (w & Hw & ->). exists w. split; [by apply Hs | done].
Qed.

Lemma p1_matches_derivations_witness :
  ∃ X, call elements (height (Concat (Literal "a") (Literal "b")))
            (Concat (Literal "a") (Literal "b")) "abc" empty_store
       = Ok (PySet X, empty_store)
       ∧ ∀ r, r ∈ X ↔ ∃ w, derives rules_a_b 0 w ∧ "abc" = w +:+ r.
Proof.
  apply (p1_matches_derivations elements rules_a_b 3 0 empty_store _ empty_store).
  - intros X. reflexivity.
  - vm_compute. reflexivity.
Defined.

(** The loop of the driver, run with the fuel it has, counts what a
    closure of combinators denotes. *)
Lemma count_matches_denote (order : gset string → list string) (p : parser)
      (fuel : nat) (lines : list string) (c c' : nat) (σ σ' : store) :
  (∀ X, order X ≡ₚ elements X) →
  combinators_only p →
  count_matches (call order fuel p) lines c σ = Ok (c', σ') →
  c' = c + length (filter (λ s, "" ∈ denote p s) lines).
Proof.
  intros Horder Hp Hcount.
  assert (count_matches (call order (fuel `max` height p) p) lines c σ = Ok (c', σ')) as E.
  { rewrite <- Hcount. apply count_matches_refines; [| by rewrite Hcount].
    intros s. apply call_mono. lia. }
  rewrite (count_matches_computes _ (denote p)) in E.
  - by injection E as <- _.
  - apply (call_denote order Horder); [done | lia].
Qed.

(** X4: the number part 1 prints, when it prints one, is the number of
    lines that rule 0 derives in their entirety. *)
Theorem part1_counts_derivable (order : gset string → list string) (fuel : nat)
        (rules : gmap Z rule) (input_lines : list string) (match_count : nat) :
  (∀ X, order X ≡ₚ elements X) →
  part1 order fuel rules input_lines = Ok match_count →
  ∃ matched : string → bool,
    (∀ s, matched s = true ↔ derives rules 0 s)
    ∧ match_count = length (filter (λ s, matched s = true) input_lines).
Proof.
  intros Horder Hpart. unfold part1 in Hpart.
  destruct (get_parser_p1 rules fuel 0 empty_store) as [[p σ1] | e |] eqn:Hp; try done.
  destruct (count_matches (call order fuel p) input_lines 0 σ1) as [[c σ2] | e |] eqn:Hc;
    try done.
  injection Hpart as ->.
  destruct (get_parser_p1_plain rules fuel 0%Z empty_store p σ1 Hp) as [Hcomb _].
  destruct (get_parser_p1_stands_for rules fuel 0 empty_store p σ1 Hp) as [_ Hs].
  exists (λ s, bool_decide ("" ∈ denote p s)). split.
  - intros s. rewrite bool_decide_eq_true, (denote_sem rules p Hcomb), whole_string_left.
    apply Hs.
  - rewrite (count_matches_denote order p fuel input_lines 0 match_count σ1 σ2 Horder Hcomb Hc).
    simpl. f_equal. apply list_filter_iff. intros s. by rewrite bool_decide_eq_true.
Qed.

Lemma part1_counts_derivable_witness :
  ∃ matched : string → bool,
    (∀ s, matched s = true ↔ derives rules_a_b 0 s)
    ∧ 2 = length (filter (λ s, matched s = true) ["ab"; "a"; "ab"; "abb"]).
Proof.
  apply (part1_counts_derivable elements 3 rules_a_b ["ab"; "a"; "ab"; "abb"] 2).
  - intros X. reflexivity.
  - vm_compute. reflexivity.
Defined.
(** ** Part 2 matches nothing the rules do not derive *)

Lemma table_stands_store_sound (rules : gmap Z rule) (σ : store) :
  table_stands rules σ → store_sound rules σ.
Proof.
  intros [Ht Hun]. split.
  - intros n q Hq. destruct (Ht n q Hq) as [Hg Hs]. split; [done |].
    intros w. apply Hs.
  - intros n s v Hm. destruct (Hun n s) as [Hnone _]. congruence.
Qed.

Lemma table_stands_empty_store (rules : gmap Z rule) : table_stands rules empty_store.
Proof.
  split.
  - intros n q Hq. simpl in Hq. by rewrite lookup_empty in Hq.
  - intros n s. unfold memo, depth. simpl. rewrite !lookup_empty. simpl.
    by rewrite lookup_empty.
Qed.

(** Whatever closure is called in a sound store, what comes back are
    remainders after strings the closure stands for, and the store stays
    sound. *)
Lemma call_sound (order : gset string → list string) (rules : gmap Z rule) (fuel : nat)
      (p : parser) (s : string) (σ σ' : store) (v : pyval) :
  (∀ X, order X ≡ₚ elements X) →
  call order fuel p s σ = Ok (v, σ') →
  store_sound rules σ → guards_sound rules p →
  store_sound rules σ' ∧ remainders_of (sem rules p) s v.
Proof.
  intros Horder.
  apply (call_invariant order (store_sound rules) (guards_sound rules)
           (λ p s v, remainders_of (sem rules p) s v)); clear p s σ σ' v.
  - by intros l r H.
  - by intros l r H.
  - by intros n q [_ H].
  - intros σ n q [Ht _] Hq. by destruct (Ht n q Hq).
  - intros n s σ [Ht Hm] _ _. split; [done |].
    intros m x v. rewrite memo_incr_depth. apply Hm.
  - intros n q s v σ [Ht Hm] _ HQ. split; [done |].
    intros m x w. destruct (decide (n = m)) as [<- | Hne].
    + rewrite memo_set_memo_eq. destruct (decide (s = x)) as [<- | Hs].
      * rewrite lookup_insert_eq. intros [= <-]. done.
      * rewrite lookup_insert_ne by done. apply Hm.
    + rewrite memo_set_memo_ne by done. apply Hm.
  - intros t s r Hr. simpl in Hr. apply elem_of_literal_set in Hr. by exists t.
  - intros l r s vl acc _ Hl Hacc y Hy. simpl in Hy.
    destruct (Hacc y Hy) as (x & v & Hx & Hv & Hyv).
    destruct vl as [X|]; simpl in Hx; [| by apply elem_of_nil in Hx].
    apply (elem_of_order order Horder) in Hx.
    destruct (Hl x Hx) as (w1 & H1 & ->). destruct (Hv y Hyv) as (w2 & H2 & ->).
    exists (w1 +:+ w2). split; [simpl; eauto 6 | by rewrite app_assoc_string].
  - intros l r s a b v _ Ha Hb Hor y Hy.
    destruct a as [A|], b as [B|]; simpl in Hor; try done; injection Hor as <-;
      simpl in Hy.
    + apply elem_of_union in Hy as [Hy | Hy].
      * destruct (Ha y Hy) as (w & Hw & ->). exists w. split; [by left | done].
      * destruct (Hb y Hy) as (w & Hw & ->). exists w. split; [by right | done].
    + by apply not_elem_of_empty in Hy.
  - intros σ n q s v [Ht _] Hq HQ y Hy. destruct (HQ y Hy) as (w & Hw & ->).
    exists w. split; [| done]. simpl. destruct (Ht n q Hq) as [_ Hs]. by apply Hs.
  - intros σ n q s v [_ Hm] _ Hv. by apply (Hm n s v).
  - intros n q s y Hy. by apply not_elem_of_empty in Hy.
  - intros n q s v [Hs _] HQ y Hy. destruct (HQ y Hy) as (w & Hw & ->).
    exists w. split; [by apply Hs | done].
Qed.

(** X5: whatever the rules, recursive or not, and whatever the guards cut
    off, a closure the memoized compiler returns for rule [n] from an
    empty parser table returns on [s] only strings [r] with [s = w + r]
    for a string [w] that rule [n] derives. *)
Theorem part2_remainders_derivable (order : gset string → list string)
        (rules : gmap Z rule) (fuel : nat) (n : Z) (s : string) (v : pyval)
        (σ' : store) :
  (∀ X, order X ≡ₚ elements X) →
  match_part2 order rules fuel n s = Ok (v, σ') →
  ∀ r, r ∈ members v → ∃ w, derives rules n w ∧ s = w +:+ r.
Proof.
  intros Horder Hmatch. unfold match_part2 in Hmatch.
  destruct (get_parser_part2 rules fuel n empty_store) as [[p σ1] | e |] eqn:Hp; try done.
  destruct (get_parser_part2_stands_for rules fuel n empty_store p σ1 Hp
              (table_stands_empty_store rules)) as [Hσ1 [Hg Hs]].
  destruct (call_sound order rules fuel p s σ1 σ' v Horder Hmatch
              (table_stands_store_sound rules σ1 Hσ1) Hg) as [_ Hv].
  intros r Hr. destruct (Hv r Hr) as (w & Hw & ->). exists w. split; [by apply Hs | done].
Qed.

Lemma part2_remainders_derivable_witness :
  ∃ w, derives rules_8_42 8 w ∧ "aab" = w +:+ "b".
Proof.
  apply (part2_remainders_derivable elements rules_8_42 10 8 "aab" (PySet {[ "ab"; "b" ]})
           (snd (match match_part2 elements rules_8_42 10 8 "aab" with
                 | Ok a => a
                 | _ => (PyDict, empty_store)
                 end))).
  - intros X. reflexivity.
  - vm_compute. reflexivity.
  - simpl. apply elem_of_union. right. by apply elem_of_singleton.
Defined.

(** The loop of the driver over a parser whose results are sound for [L]
    counts lines of [L] only. *)
Lemma count_matches_sound (m : matcher) (J : store → Prop) (L : string → Prop) :
  (∀ s σ v σ', m s σ = Ok (v, σ') → J σ → J σ' ∧ (contains "" v = true → L s)) →
  ∀ lines c σ c' σ',
    count_matches m lines c σ = Ok (c', σ') → J σ →
    ∃ matched, matched `sublist_of` lines ∧ c' = c + length matched ∧ Forall L matched.
Proof.
  intros Hm lines. induction lines as [|s lines IH]; intros c σ c' σ'; simpl.
  - unfold ret. intros [= <- <-] _. exists []. split_and!; [done | simpl; lia | done].
  - unfold bind. destruct (m s σ) as [[v σ1] | e |] eqn:E; try done.
    intros Hcount HJ. destruct (Hm s σ v σ1 E HJ) as [HJ1 HL].
    destruct (IH _ _ _ _ Hcount HJ1) as (matched & Hsub & Hlen & Hall).
    destruct (contains "" v) eqn:Hc.
    + exists (s :: matched). split_and!.
      * by apply sublist_skip.
      * simpl. lia.
      * constructor; [by apply HL | done].
    + exists matched. split_and!; [by apply sublist_cons | done | done].
Qed.

(** X6: the number part 2 prints, when it prints one, counts lines that
    rule 0 derives in their entirety, and no other: the lines counted
    are a selection of such lines. *)
Theorem part2_counts_derivable_only (order : gset string → list string) (fuel : nat)
        (rules : gmap Z rule) (input_lines : list string) (match_count : nat) :
  (∀ X, order X ≡ₚ elements X) →
  part2 order fuel rules input_lines = Ok match_count →
  ∃ matched, matched `sublist_of` input_lines
             ∧ match_count = length matched
             ∧ Forall (derives rules 0) matched.
Proof.
  intros Horder Hpart. unfold part2 in Hpart.
  destruct (get_parser_part2 rules fuel 0 empty_store) as [[p σ1] | e |] eqn:Hp; try done.
  destruct (count_matches (call order fuel p) input_lines 0 σ1) as [[c σ2] | e |] eqn:Hc;
    try done.
  injection Hpart as ->.
  destruct (get_parser_part2_stands_for rules fuel 0 empty_store p σ1 Hp
              (table_stands_empty_store rules)) as [Hσ1 [Hg Hs]].
  destruct (count_matches_sound (call order fuel p) (store_sound rules) (derives rules 0))
    with (lines := input_lines) (c := 0) (σ := σ1) (c' := match_count) (σ' := σ2)
    as (matched & Hsub & Hlen & Hall); try done.
  - intros s σ v σ' Hcall Hσ.
    destruct (call_sound order rules fuel p s σ σ' v Horder Hcall Hσ Hg) as [Hσ' Hv].
    split; [done |]. intros Hin.
    destruct v as [X|]; simpl in Hin; [| done]. apply bool_decide_eq_true in Hin.
    destruct (Hv "" Hin) as (w & Hw & ->). rewrite app_nil_r_string. by apply Hs.
  - by apply table_stands_store_sound.
  - by exists matched.
Qed.

Lemma part2_counts_derivable_only_witness :
  ∃ matched, matched `sublist_of` ["aa"; "b"; "a"; "ab"]
             ∧ 2 = length matched
             ∧ Forall (derives (<[0%Z := Alternatives [[8%Z]]]> rules_8_42) 0) matched.
Proof.
  apply (part2_counts_derivable_only elements 30 (<[0%Z := Alternatives [[8%Z]]]> rules_8_42)
           ["aa"; "b"; "a"; "ab"] 2).
  - intros X. reflexivity.
  - vm_compute. reflexivity.
Defined.
(** ** When the compilers come back *)

Section Called.

Variable rules : gmap Z rule.
Variable get : Z → comp parser.

(** A compilation that comes back has called [get] on every part, and
    each of these calls has come back. *)
Lemma make_concat_loop_called (parts : list Z) :
  ∀ p σ p' σ', make_concat_loop get p parts σ = Ok (p', σ') →
               ∀ m, m ∈ parts → ∃ σ1 q σ2, get m σ1 = Ok (q, σ2).
Proof.
  induction parts as [|part parts IH]; intros p σ p' σ' H m Hm; simpl in H.
  - by apply elem_of_nil in Hm.
  - unfold bind in H. destruct (get part σ) as [[q σ1] | e |] eqn:E; try done.
    apply elem_of_cons in Hm as [-> | Hm]; [by exists σ, q, σ1 |].
    by apply (IH _ _ _ _ H).
Qed.

Lemma make_concat_called (parts : list Z) (σ : store) (p' : parser) (σ' : store) :
  make_concat get parts σ = Ok (p', σ') →
  ∀ m, m ∈ parts → ∃ σ1 q σ2, get m σ1 = Ok (q, σ2).
Proof.
  destruct parts as [|part parts]; [done |]. simpl. unfold bind.
  destruct (get part σ) as [[q σ1] | e |] eqn:E; try done.
  intros H m [-> | Hm]%elem_of_cons; [by exists σ, q, σ1 |].
  by apply (make_concat_loop_called parts _ _ _ _ H).
Qed.

Lemma alt_loop_called (alts : list (list Z)) :
  ∀ p σ p' σ', alt_loop get p alts σ = Ok (p', σ') →
               ∀ parts m, parts ∈ alts → m ∈ parts → ∃ σ1 q σ2, get m σ1 = Ok (q, σ2).
Proof.
  induction alts as [|alt_rule alts IH]; intros p σ p' σ' H parts m Hparts Hm; simpl in H.
  - by apply elem_of_nil in Hparts.
  - unfold bind in H.
    destruct (make_concat get alt_rule σ) as [[q σ1] | e |] eqn:E; try done.
    apply elem_of_cons in Hparts as [-> | Hparts].
    + by apply (make_concat_called _ _ _ _ E).
    + by apply (IH _ _ _ _ H parts).
Qed.

Lemma translate_called (n : Z) (σ : store) (p : parser) (σ' : store) :
  translate rules get n σ = Ok (p, σ') →
  ∀ m, references rules n m → ∃ σ1 q σ2, get m σ1 = Ok (q, σ2).
Proof.
  intros H m (options & parts & Hn & Hparts & Hm). unfold translate in H.
  rewrite Hn in H. destruct options as [|first alts]; [done |].
  unfold bind in H.
  destruct (make_concat get first σ) as [[q σ1] | e |] eqn:E; try done.
  apply elem_of_cons in Hparts as [-> | Hparts].
  - by apply (make_concat_called _ _ _ _ E).
  - by apply (alt_loop_called _ _ _ _ _ H parts).
Qed.

End Called.

(** The compiler of part 1 does not come back from a rule that leads to
    a rule that refers to itself. *)
Lemma get_parser_p1_cycle (rules : gmap Z rule) (n m : Z) :
  rtc (references rules) n m → tc (references rules) m m →
  ∀ fuel σ p σ', get_parser_p1 rules fuel n σ ≠ Ok (p, σ').
Proof.
  intros Hnm Hmm fuel. revert n Hnm.
  induction fuel as [|fuel IH]; intros n Hnm σ p σ' H; simpl in H; [done |].
  assert (∃ n', references rules n n' ∧ rtc (references rules) n' m) as (n' & Hstep & Hrest).
  { assert (tc (references rules) n m) as Htc by (by eapply tc_rtc_l).
    destruct Htc as [n m Hr | n k m Hr Hkm].
    - exists m. split; [done | constructor].
    - exists k. split; [done | by apply tc_rtc]. }
  destruct (translate_called rules (get_parser_p1 rules fuel) n σ p σ' H n' Hstep)
    as (σ1 & q & σ2 & Hq).
  by apply (IH n' Hrest σ1 q σ2).
Qed.

(** X7: the compiler of part 1 returns no closure for a rule from which
    a rule that refers to itself, directly or by way of other rules, can
    be reached: however deep it may recurse, it either does not come
    back or raises. *)
Theorem get_parser_p1_recursive_rule (rules : gmap Z rule) (n m : Z) (fuel : nat)
        (σ : store) :
  rtc (references rules) n m → tc (references rules) m m →
  get_parser_p1 rules fuel n σ = OutOfFuel
  ∨ ∃ e, get_parser_p1 rules fuel n σ = Raise e.
Proof.
  intros Hnm Hmm. pose proof (get_parser_p1_cycle rules n m Hnm Hmm fuel σ) as H.
  destruct (get_parser_p1 rules fuel n σ) as [[p σ'] | e |]; [| by eauto | by left].
  by destruct (H p σ').
Qed.

Lemma get_parser_p1_recursive_rule_witness :
  get_parser_p1 rules_8_42 5 8 empty_store = OutOfFuel
  ∨ ∃ e, get_parser_p1 rules_8_42 5 8 empty_store = Raise e.
Proof.
  apply (get_parser_p1_recursive_rule rules_8_42 8 8 5 empty_store).
  - constructor.
  - apply tc_once. exists [[42%Z]; [42%Z; 8%Z]], [42%Z; 8%Z]. split_and!.
    + reflexivity.
    + apply elem_of_cons. right. apply elem_of_cons. by left.
    + apply elem_of_cons. right. apply elem_of_cons. by left.
Defined.

(** X8: with rules 8 and 11 replaced as part 2 replaces them, whatever
    the other rules are, the compiler of part 1 returns no closure for
    rule 8, none for rule 11, and none for a rule that leads to either:
    it does not come back or it raises. *)
Theorem get_parser_p1_after_patch (rules : gmap Z rule) (n : Z) (fuel : nat) (σ : store) :
  rtc (references (part2_rules rules)) n 8%Z ∨ rtc (references (part2_rules rules)) n 11%Z →
  get_parser_p1 (part2_rules rules) fuel n σ = OutOfFuel
  ∨ ∃ e, get_parser_p1 (part2_rules rules) fuel n σ = Raise e.
Proof.
  intros Hn.
  assert (∀ p σ', get_parser_p1 (part2_rules rules) fuel n σ ≠ Ok (p, σ')) as H;
    [| destruct (get_parser_p1 (part2_rules rules) fuel n σ) as [[p σ'] | e |];
       [by destruct (H p σ') | by eauto | by left]].
  revert fuel σ. destruct Hn as [H | H]; intros fuel σ.
  - apply (get_parser_p1_cycle _ n 8%Z H). apply tc_once.
    exists [[42%Z]; [42%Z; 8%Z]], [42%Z; 8%Z]. split_and!.
    + unfold part2_rules. rewrite lookup_insert_ne by done. by rewrite lookup_insert_eq.
    + apply elem_of_cons. right. apply elem_of_cons. by left.
    + apply elem_of_cons. right. apply elem_of_cons. by left.
  - apply (get_parser_p1_cycle _ n 11%Z H). apply tc_once.
    exists [[42%Z; 31%Z]; [42%Z; 11%Z; 31%Z]], [42%Z; 11%Z; 31%Z]. split_and!.
    + unfold part2_rules. by rewrite lookup_insert_eq.
    + apply elem_of_cons. right. apply elem_of_cons. by left.
    + apply elem_of_cons. right. apply elem_of_cons. by left.
Qed.

Lemma get_parser_p1_after_patch_witness :
  get_parser_p1 (part2_rules rules_a_b) 5 8 empty_store = OutOfFuel
  ∨ ∃ e, get_parser_p1 (part2_rules rules_a_b) 5 8 empty_store = Raise e.
Proof.
  apply (get_parser_p1_after_patch rules_a_b 8 5 empty_store). left. constructor.
Defined.

Section Returns.

Variable rules : gmap Z rule.
Variable get : Z → comp parser.
Variable I : store → Prop.
Variable C : Z → Prop.

Hypothesis get_returns : ∀ m, C m → ∀ σ, I σ → ∃ p σ', get m σ = Ok (p, σ') ∧ I σ'.

Lemma make_concat_loop_returns (parts : list Z) :
  Forall C parts →
  ∀ p σ, I σ → ∃ p' σ', make_concat_loop get p parts σ = Ok (p', σ') ∧ I σ'.
Proof.
  induction 1 as [|part parts Hpart _ IH]; intros p σ Hσ; simpl.
  - by exists p, σ.
  - unfold bind. destruct (get_returns part Hpart σ Hσ) as (q & σ1 & -> & Hσ1).
    by apply IH.
Qed.

Lemma make_concat_returns (parts : list Z) :
  parts ≠ [] → Forall C parts →
  ∀ σ, I σ → ∃ p' σ', make_concat get parts σ = Ok (p', σ') ∧ I σ'.
Proof.
  intros Hne Hparts σ Hσ. destruct parts as [|part parts]; [done |].
  apply Forall_cons in Hparts as [Hpart Hparts]. simpl. unfold bind.
  destruct (get_returns part Hpart σ Hσ) as (q & σ1 & -> & Hσ1).
  by apply make_concat_loop_returns.
Qed.

Lemma alt_loop_returns (alts : list (list Z)) :
  Forall (λ parts, parts ≠ [] ∧ Forall C parts) alts →
  ∀ p σ, I σ → ∃ p' σ', alt_loop get p alts σ = Ok (p', σ') ∧ I σ'.
Proof.
  induction 1 as [|parts alts [Hne Hparts] _ IH]; intros p σ Hσ; simpl.
  - by exists p, σ.
  - unfold bind.
    destruct (make_concat_returns parts Hne Hparts σ Hσ) as (q & σ1 & -> & Hσ1).
    by apply IH.
Qed.

Lemma translate_returns (n : Z) :
  is_Some (rules !! n) →
  (∀ options, rules !! n = Some (Alternatives options) →
              options ≠ [] ∧ Forall (λ parts, parts ≠ [] ∧ Forall C parts) options) →
  ∀ σ, I σ → ∃ p σ', translate rules get n σ = Ok (p, σ') ∧ I σ'.
Proof.
  intros [r Hr] Hoptions σ Hσ. unfold translate. rewrite Hr.
  destruct r as [text | options].
  - by exists (Literal text), σ.
  - destruct (Hoptions options Hr) as [Hne Hall].
    destruct options as [|first alts]; [done |].
    apply Forall_cons in Hall as [[Hfirst Hparts] Halts]. unfold bind.
    destruct (make_concat_returns first Hfirst Hparts σ Hσ) as (q & σ1 & -> & Hσ1).
    by apply alt_loop_returns.
Qed.

End Returns.

(** The memoized compiler comes back for every rule that is there, given
    fuel for every rule not yet in the parser table and one call more;
    what was in the table stays in the table. *)
Lemma get_parser_part2_progress (rules : gmap Z rule) :
  closed rules → options_nonempty rules →
  ∀ fuel n σ,
    is_Some (rules !! n) →
    size (dom rules ∖ dom (parser_table σ)) < fuel →
    ∃ p σ', get_parser_part2 rules fuel n σ = Ok (p, σ')
            ∧ dom (parser_table σ) ⊆ dom (parser_table σ')
            ∧ n ∈ dom (parser_table σ').
Proof.
  intros Hclosed Hnonempty fuel.
  induction fuel as [|fuel IH]; intros n σ Hn Hsize; [lia |].
  simpl. destruct (parser_table σ !! n) as [q|] eqn:Ht.
  - rewrite (get_parser_hit _ n σ q Ht). exists q, σ. split_and!; [done | done |].
    apply elem_of_dom. by eexists.
  - rewrite (get_parser_miss _ n σ Ht).
    assert (size (dom rules ∖ (dom (parser_table σ) ∪ {[n]})) < fuel) as Hless.
    { apply not_elem_of_dom in Ht.
      pose proof (measure_positive rules (dom (parser_table σ)) n Hn Ht).
      assert (size (dom rules ∖ (dom (parser_table σ) ∪ {[n]})) ≤ fuel - 1); [| lia].
      apply (measure_step rules); [done | done | lia]. }
    assert (∀ m, is_Some (rules !! m) → ∀ σ1,
              dom (parser_table σ) ∪ {[n]} ⊆ dom (parser_table σ1) →
              ∃ p σ', get_parser_part2 rules fuel m σ1 = Ok (p, σ')
                      ∧ dom (parser_table σ) ∪ {[n]} ⊆ dom (parser_table σ')) as Hget.
    { intros m Hm σ1 Hσ1.
      destruct (IH m σ1 Hm) as (p & σ2 & E & Hsub & _).
      - eapply Nat.le_lt_trans; [| exact Hless].
        apply subseteq_size. intros x [Hx Hnx]%elem_of_difference.
        apply elem_of_difference. split; [done |]. intros Hin. by apply Hnx, Hσ1.
      - exists p, σ2. split; [done |]. by etrans. }
    assert (∀ options, rules !! n = Some (Alternatives options) →
              options ≠ []
              ∧ Forall (λ parts, parts ≠ [] ∧ Forall (λ m, is_Some (rules !! m)) parts)
                       options) as Hoptions.
    { intros options Ho. destruct (options_refer rules Hnonempty n options Ho) as [Hne Hall].
      split; [done |]. eapply Forall_impl; [exact Hall |].
      intros parts [Hp Hrefs]. split; [done |]. eapply Forall_impl; [exact Hrefs |].
      intros m Hm. by apply (Hclosed n). }
    assert (dom (parser_table σ) ∪ {[n]}
            ⊆ dom (parser_table (set_table n (Deferred n) σ))) as Hstart.
    { simpl. rewrite dom_insert_L.
      apply union_least; [apply union_subseteq_r | apply union_subseteq_l]. }
    destruct (translate_returns rules (get_parser_part2 rules fuel) _ _ Hget n Hn Hoptions
                _ Hstart) as (p & σ1 & -> & Hσ1).
    exists (Wrapper n p), (new_tables n (set_table n p σ1)). split_and!; [done | |].
    + simpl. rewrite dom_insert_L. etrans; [| apply union_subseteq_r].
      etrans; [apply union_subseteq_l | exact Hσ1].
    + simpl. rewrite dom_insert_L. apply elem_of_union. left. by apply elem_of_singleton.
Qed.

(** X9: for a grammar in which every rule referred to is there and no
    list of options or of parts is empty, the memoized compiler comes
    back with a closure for every rule, recursive or not, from whatever
    parser table it starts, within a depth of one call more than there
    are rules; the rule is in the parser table afterwards. *)
Theorem get_parser_part2_returns (rules : gmap Z rule) (fuel : nat) (n : Z) (σ : store) :
  closed rules → options_nonempty rules → is_Some (rules !! n) →
  size (dom rules) < fuel →
  ∃ p σ', get_parser_part2 rules fuel n σ = Ok (p, σ')
          ∧ is_Some (parser_table σ' !! n).
Proof.
  intros Hclosed Hnonempty Hn Hfuel.
  destruct (get_parser_part2_progress rules Hclosed Hnonempty fuel n σ Hn)
    as (p & σ' & E & _ & Hin).
  - eapply Nat.le_lt_trans; [| exact Hfuel]. apply subseteq_size, subseteq_difference_l.
    done.
  - exists p, σ'. split; [done |]. by apply elem_of_dom.
Qed.

Lemma rules_8_42_alternatives (n : Z) (options : list (list Z)) :
  rules_8_42 !! n = Some (Alternatives options) →
  n = 8%Z ∧ options = [[42%Z]; [42%Z; 8%Z]].
Proof.
  unfold rules_8_42. intros H.
  apply lookup_insert_Some in H as [[<- [= <-]] | [_ H]]; [done |].
  apply lookup_insert_Some in H as [[_ [=]] | [_ H]].
  by rewrite lookup_empty in H.
Qed.

Lemma rules_8_42_closed : closed rules_8_42.
Proof.
  intros n m (options & parts & Hn & Hparts & Hm).
  apply rules_8_42_alternatives in Hn as [-> ->].
  apply elem_of_cons in Hparts as [-> | Hparts].
  - apply list_elem_of_singleton in Hm as ->. by eexists.
  - apply list_elem_of_singleton in Hparts as ->.
    apply elem_of_cons in Hm as [-> | Hm]; [by eexists |].
    apply list_elem_of_singleton in Hm as ->. by eexists.
Qed.

Lemma rules_8_42_nonempty : options_nonempty rules_8_42.
Proof.
  intros n options [-> ->]%rules_8_42_alternatives. split; [done |].
  intros parts [-> | Hparts]%elem_of_cons; [done |].
  by apply list_elem_of_singleton in Hparts as ->.
Qed.

Lemma get_parser_part2_returns_witness :
  ∃ p σ', get_parser_part2 rules_8_42 3 8 empty_store = Ok (p, σ')
          ∧ is_Some (parser_table σ' !! 8%Z).
Proof.
  apply (get_parser_part2_returns rules_8_42 3 8 empty_store
           rules_8_42_closed rules_8_42_nonempty).
  - by eexists.
  - vm_compute. lia.
Defined.
(** ** What can be raised *)

Section Raises.

Variable rules : gmap Z rule.
Variable get : Z → comp parser.

Hypothesis get_raises : ∀ m σ e, get m σ = Raise e → compile_error rules e.

Lemma make_concat_loop_raises (parts : list Z) :
  ∀ p σ e, make_concat_loop get p parts σ = Raise e → compile_error rules e.
Proof.
  induction parts as [|part parts IH]; intros p σ e H; simpl in H; [done |].
  unfold bind in H. destruct (get part σ) as [[q σ1] | e' |] eqn:E; try done.
  - by apply (IH _ _ _ H).
  - injection H as <-. by apply (get_raises part σ).
Qed.

Lemma make_concat_raises (parts : list Z) (σ : store) (e : exn) :
  make_concat get parts σ = Raise e →
  compile_error rules e ∨ (e = IndexError ∧ parts = []).
Proof.
  destruct parts as [|part parts]; simpl.
  - intros [= <-]. by right.
  - unfold bind. destruct (get part σ) as [[q σ1] | e' |] eqn:E; try done.
    + intros H. left. by apply (make_concat_loop_raises _ _ _ _ H).
    + intros [= <-]. left. by apply (get_raises part σ).
Qed.

Lemma alt_loop_raises (alts : list (list Z)) :
  ∀ p σ e, alt_loop get p alts σ = Raise e →
           compile_error rules e ∨ (e = IndexError ∧ [] ∈ alts).
Proof.
  induction alts as [|alt_rule alts IH]; intros p σ e H; simpl in H; [done |].
  unfold bind in H.
  destruct (make_concat get alt_rule σ) as [[q σ1] | e' |] eqn:E; try done.
  - destruct (IH _ _ _ H) as [He | [-> Hin]]; [by left |].
    right. split; [done | by right].
  - injection H as <-. destruct (make_concat_raises _ _ _ E) as [He | [-> ->]]; [by left |].
    right. split; [done | by left].
Qed.

Lemma translate_raises (n : Z) (σ : store) (e : exn) :
  translate rules get n σ = Raise e → compile_error rules e.
Proof.
  unfold translate. destruct (rules !! n) as [[text | options] |] eqn:Hn.
  - done.
  - assert (∀ parts, parts ∈ options → parts = [] → compile_error rules IndexError) as Hbad.
    { intros parts Hin ->. right. split; [done |]. intros Hne.
      destruct (Hne n options Hn) as [_ Hparts]. by apply (Hparts [] Hin). }
    destruct options as [|first alts].
    + intros [= <-]. right. split; [done |]. intros Hne. by destruct (Hne n [] Hn).
    + unfold bind.
      destruct (make_concat get first σ) as [[q σ1] | e' |] eqn:E; try done.
      * intros H. destruct (alt_loop_raises _ _ _ _ H) as [He | [-> Hin]]; [done |].
        apply (Hbad []); [by right | done].
      * intros [= <-]. destruct (make_concat_raises _ _ _ E) as [He | [-> ->]]; [done |].
        apply (Hbad []); [by left | done].
  - intros [= <-]. left. by exists n.
Qed.

End Raises.

Lemma get_parser_p1_raises (rules : gmap Z rule) (fuel : nat) :
  ∀ n σ e, get_parser_p1 rules fuel n σ = Raise e → compile_error rules e.
Proof.
  induction fuel as [|fuel IH]; intros n σ e H; simpl in H; [done |].
  by apply (translate_raises rules (get_parser_p1 rules fuel) IH n σ).
Qed.

Lemma get_parser_part2_raises (rules : gmap Z rule) (fuel : nat) :
  ∀ n σ e, get_parser_part2 rules fuel n σ = Raise e → compile_error rules e.
Proof.
  induction fuel as [|fuel IH]; intros n σ e H; simpl in H; [done |].
  unfold get_parser in H. destruct (parser_table σ !! n) as [q|]; [done |].
  destruct (translate rules (get_parser_part2 rules fuel) n (set_table n (Deferred n) σ))
    as [[p σ1] | e' |] eqn:E; try done.
  injection H as <-. by apply (translate_raises rules _ IH n _ e' E).
Qed.

(** X10: all that either compiler can raise is the [KeyError] of a rule
    that is not among the rules or, where the rules hold an empty list of
    options or of parts, an [IndexError]. *)
Theorem compilers_raise (rules : gmap Z rule) (fuel : nat) (n : Z) (σ : store) (e : exn) :
  get_parser_p1 rules fuel n σ = Raise e ∨ get_parser_part2 rules fuel n σ = Raise e →
  (∃ m, e = KeyError m ∧ rules !! m = None)
  ∨ (e = IndexError ∧ ¬ options_nonempty rules).
Proof.
  intros [H | H].
  - by apply (get_parser_p1_raises rules fuel n σ).
  - by apply (get_parser_part2_raises rules fuel n σ).
Qed.

Lemma compilers_raise_witness :
  (∃ m, KeyError 1 = KeyError m ∧ (<[0%Z := Alternatives [[1%Z]]]> ∅ : gmap Z rule) !! m = None)
  ∨ (KeyError 1 = IndexError ∧ ¬ options_nonempty (<[0%Z := Alternatives [[1%Z]]]> ∅)).
Proof.
  apply (compilers_raise (<[0%Z := Alternatives [[1%Z]]]> ∅) 2 0 empty_store (KeyError 1)).
  right. vm_compute. reflexivity.
Defined.

(** ** Calls in a parser table without loose ends *)

(** A call that comes back leaves the parser table as it was. *)
Lemma call_table (order : gset string → list string) (fuel : nat) (p : parser) (s : string)
      (σ σ' : store) (v : pyval) :
  call order fuel p s σ = Ok (v, σ') → parser_table σ' = parser_table σ.
Proof.
  intros Hcall.
  by destruct (call_invariant order (λ σ1, parser_table σ1 = parser_table σ)
                 (λ _, True) (λ _ _ _, True)) with
    (fuel := fuel) (p := p) (s := s) (σ := σ) (v := v) (σ' := σ') as [HJ _].
Qed.

Lemma for_rest_raises (m : matcher) (T : gmap Z parser) (rests : list string) :
  (∀ x σ v σ', m x σ = Ok (v, σ') → parser_table σ' = parser_table σ) →
  (∀ x σ e, parser_table σ = T → m x σ = Raise e → e = TypeError) →
  ∀ acc σ e, parser_table σ = T → for_rest m rests acc σ = Raise e → e = TypeError.
Proof.
  intros Hok Hraise. induction rests as [|x rests IH]; intros acc σ e HT H; simpl in H;
    [done |].
  unfold bind in H. destruct (m x σ) as [[v σ1] | e' |] eqn:E; try done.
  - apply (IH (update acc v) σ1 e); [| done]. by rewrite (Hok _ _ _ _ E).
  - injection H as <-. by apply (Hraise x σ).
Qed.

(** Where the parser table has an entry for every placeholder, a call
    raises nothing but the [TypeError] of [alt]. *)
Lemma call_raises (order : gset string → list string) (T : gmap Z parser) :
  table_bound T →
  ∀ fuel p s σ e,
    parser_table σ = T → bound T p → call order fuel p s σ = Raise e → e = TypeError.
Proof.
  intros HT fuel. induction fuel as [|fuel IH]; intros p s σ e Hσ Hp H; [done |].
  destruct p as [t | l r | l r | n | n q]; simpl in H.
  - unfold literal in H. by destruct (startswith s t).
  - assert (bound T l ∧ bound T r) as [Hl Hr].
    { unfold bound in *. simpl in Hp. split; etrans; [| exact Hp | | exact Hp].
      - apply union_subseteq_l.
      - apply union_subseteq_r. }
    unfold concat, bind in H.
    destruct (call order fuel l s σ) as [[vl σ1] | e' |] eqn:El; try done.
    + destruct (for_rest (call order fuel r) (iter order vl) ∅ σ1) as [[acc σ2] | e' |] eqn:Er;
        try done.
      injection H as <-.
      apply (for_rest_raises (call order fuel r) T (iter order vl)) with (acc := ∅) (σ := σ1).
      * intros x σ0 v σ0'. apply call_table.
      * intros x σ0 e0 Hσ0. by apply IH.
      * by rewrite (call_table _ _ _ _ _ _ _ El).
      * done.
    + injection H as <-. by apply (IH l s σ).
  - assert (bound T l ∧ bound T r) as [Hl Hr].
    { unfold bound in *. simpl in Hp. split; etrans; [| exact Hp | | exact Hp].
      - apply union_subseteq_l.
      - apply union_subseteq_r. }
    unfold alt, bind, lift in H.
    destruct (call order fuel l s σ) as [[a σ1] | e' |] eqn:El; try done.
    + destruct (call order fuel r s σ1) as [[b σ2] | e' |] eqn:Er; try done.
      * destruct a, b; simpl in H; by try injection H as <-.
      * injection H as <-. apply (IH r s σ1); [| done | done].
        by rewrite (call_table _ _ _ _ _ _ _ El).
    + injection H as <-. by apply (IH l s σ).
  - rewrite Hσ in H. destruct (T !! n) as [q|] eqn:Hn.
    + apply (IH q s σ); [done | by apply (HT n) | done].
    + exfalso. apply not_elem_of_dom in Hn. apply Hn, Hp. simpl.
      by apply elem_of_singleton.
  - unfold parser_wrapper in H. destruct (memo σ n !! s); [done |].
    destruct (String.length s + 1 <? depth σ n s); [done |].
    destruct (call order fuel q s (incr_depth n s σ)) as [[v σ1] | e' |] eqn:Eq; try done.
    injection H as <-. by apply (IH q s (incr_depth n s σ)).
Qed.

Section Bound.

Variable rules : gmap Z rule.
Variable get : Z → comp parser.

Hypothesis get_bound :
  ∀ m σ p σ', get m σ = Ok (p, σ') → table_bound (parser_table σ) →
              table_bound (parser_table σ') ∧ bound (parser_table σ') p
              ∧ dom (parser_table σ) ⊆ dom (parser_table σ').

Lemma bound_mono (T T' : gmap Z parser) (p : parser) :
  dom T ⊆ dom T' → bound T p → bound T' p.
Proof. intros Hsub Hp. unfold bound in *. by etrans. Qed.

Lemma bound_join (T : gmap Z parser) (l r : parser) :
  bound T l → bound T r → deferred l ∪ deferred r ⊆ dom T.
Proof. intros Hl Hr. by apply union_least. Qed.

Lemma make_concat_loop_bound (parts : list Z) :
  ∀ p σ p' σ',
    make_concat_loop get p parts σ = Ok (p', σ') →
    table_bound (parser_table σ) → bound (parser_table σ) p →
    table_bound (parser_table σ') ∧ bound (parser_table σ') p'
    ∧ dom (parser_table σ) ⊆ dom (parser_table σ').
Proof.
  induction parts as [|part parts IH]; intros p σ p' σ' H Hσ Hp; simpl in H.
  - by injection H as <- <-.
  - unfold bind in H. destruct (get part σ) as [[q σ1] | e |] eqn:E; try done.
    destruct (get_bound _ _ _ _ E Hσ) as (Hσ1 & Hq & Hsub).
    destruct (IH _ _ _ _ H Hσ1) as (Hσ' & Hp' & Hsub').
    + by apply bound_join; [apply (bound_mono (parser_table σ)) |].
    + split_and!; [done | done | by etrans].
Qed.

Lemma make_concat_bound (parts : list Z) (σ : store) (p' : parser) (σ' : store) :
  make_concat get parts σ = Ok (p', σ') →
  table_bound (parser_table σ) →
  table_bound (parser_table σ') ∧ bound (parser_table σ') p'
  ∧ dom (parser_table σ) ⊆ dom (parser_table σ').
Proof.
  destruct parts as [|part parts]; [done |]. simpl. unfold bind.
  destruct (get part σ) as [[q σ1] | e |] eqn:E; try done.
  intros H Hσ. destruct (get_bound _ _ _ _ E Hσ) as (Hσ1 & Hq & Hsub).
  destruct (make_concat_loop_bound _ _ _ _ _ H Hσ1 Hq) as (Hσ' & Hp' & Hsub').
  split_and!; [done | done | by etrans].
Qed.

Lemma alt_loop_bound (alts : list (list Z)) :
  ∀ p σ p' σ',
    alt_loop get p alts σ = Ok (p', σ') →
    table_bound (parser_table σ) → bound (parser_table σ) p →
    table_bound (parser_table σ') ∧ bound (parser_table σ') p'
    ∧ dom (parser_table σ) ⊆ dom (parser_table σ').
Proof.
  induction alts as [|alt_rule alts IH]; intros p σ p' σ' H Hσ Hp; simpl in H.
  - by injection H as <- <-.
  - unfold bind in H.
    destruct (make_concat get alt_rule σ) as [[q σ1] | e |] eqn:E; try done.
    destruct (make_concat_bound _ _ _ _ E Hσ) as (Hσ1 & Hq & Hsub).
    destruct (IH _ _ _ _ H Hσ1) as (Hσ' & Hp' & Hsub').
    + by apply bound_join; [apply (bound_mono (parser_table σ)) |].
    + split_and!; [done | done | by etrans].
Qed.

Lemma translate_bound (n : Z) (σ : store) (p : parser) (σ' : store) :
  translate rules get n σ = Ok (p, σ') →
  table_bound (parser_table σ) →
  table_bound (parser_table σ') ∧ bound (parser_table σ') p
  ∧ dom (parser_table σ) ⊆ dom (parser_table σ').
Proof.
  unfold translate. destruct (rules !! n) as [[text | options] |]; [| | done].
  - intros [= <- <-] Hσ. split_and!; [done | | done]. unfold bound. simpl.
    apply empty_subseteq.
  - destruct options as [|first alts]; [done |]. unfold bind.
    destruct (make_concat get first σ) as [[q σ1] | e |] eqn:E; try done.
    intros H Hσ. destruct (make_concat_bound _ _ _ _ E Hσ) as (Hσ1 & Hq & Hsub).
    destruct (alt_loop_bound _ _ _ _ _ H Hσ1 Hq) as (Hσ' & Hp' & Hsub').
    split_and!; [done | done | by etrans].
Qed.

End Bound.

(** The memoized compiler leaves no loose end: where every placeholder in
    the parser table has its entry before, every one has it after, and so
    has every placeholder in the closure returned. *)
Lemma get_parser_part2_bound (rules : gmap Z rule) (fuel : nat) :
  ∀ n σ p σ',
    get_parser_part2 rules fuel n σ = Ok (p, σ') → table_bound (parser_table σ) →
    table_bound (parser_table σ') ∧ bound (parser_table σ') p
    ∧ dom (parser_table σ) ⊆ dom (parser_table σ').
Proof.
  induction fuel as [|fuel IH]; intros n σ p σ' H Hσ; simpl in H; [done |].
  unfold get_parser in H. destruct (parser_table σ !! n) as [q|] eqn:Hn.
  - injection H as <- <-. split_and!; [done | by apply (Hσ n) | done].
  - destruct (translate rules (get_parser_part2 rules fuel) n (set_table n (Deferred n) σ))
      as [[t σ1] | e |] eqn:E; try done.
    injection H as <- <-.
    destruct (translate_bound rules (get_parser_part2 rules fuel) IH n _ _ _ E)
      as (Hσ1 & Ht & Hsub).
    + intros m q. simpl. intros Hq. unfold bound. rewrite dom_insert_L.
      apply lookup_insert_Some in Hq as [[<- <-] | [_ Hq]]; simpl.
      * apply union_subseteq_l.
      * etrans; [by apply (Hσ m) | apply union_subseteq_r].
    + simpl in Hsub. rewrite dom_insert_L in Hsub.
      assert (n ∈ dom (parser_table σ1)) as Hin.
      { apply Hsub, elem_of_union. left. by apply elem_of_singleton. }
      assert (dom (<[n := t]> (parser_table σ1)) = dom (parser_table σ1)) as Hdom.
      { rewrite dom_insert_L. apply subseteq_union_1_L. by apply singleton_subseteq_l. }
      split_and!.
      * intros m q. simpl. intros Hq. unfold bound. rewrite Hdom.
        apply lookup_insert_Some in Hq as [[<- <-] | [_ Hq]]; [done | by apply (Hσ1 m)].
      * unfold bound. simpl. by rewrite Hdom.
      * simpl. rewrite Hdom. etrans; [| exact Hsub]. apply union_subseteq_r.
Qed.

(** X11: a closure the memoized compiler has returned from an empty
    parser table never fails to find a rule in the table: called on any
    string, in any state of the memo and count tables, it returns, or
    does not come back, or raises the [TypeError] of [alt], and nothing
    else. *)
Theorem part2_call_raises (order : gset string → list string) (rules : gmap Z rule)
        (fuel : nat) (n : Z) (p : parser) (σ1 : store) (fuel' : nat) (s : string)
        (σ : store) :
  get_parser_part2 rules fuel n empty_store = Ok (p, σ1) →
  parser_table σ = parser_table σ1 →
  (∃ v σ', call order fuel' p s σ = Ok (v, σ'))
  ∨ call order fuel' p s σ = OutOfFuel
  ∨ call order fuel' p s σ = Raise TypeError.
Proof.
  intros Hp Hσ.
  destruct (get_parser_part2_bound rules fuel n empty_store p σ1 Hp) as (HT & Hb & _).
  { intros m q Hq. simpl in Hq. by rewrite lookup_empty in Hq. }
  destruct (call order fuel' p s σ) as [[v σ'] | e |] eqn:Hcall.
  - left. by exists v, σ'.
  - right. right. f_equal.
    by apply (call_raises order (parser_table σ1) HT fuel' p s σ).
  - right. by left.
Qed.

Lemma part2_call_raises_witness :
  (∃ v σ', call elements 9 parser_0_left_recursive "a" store_left_recursive = Ok (v, σ'))
  ∨ call elements 9 parser_0_left_recursive "a" store_left_recursive = OutOfFuel
  ∨ call elements 9 parser_0_left_recursive "a" store_left_recursive = Raise TypeError.
Proof.
  apply (part2_call_raises elements (part2_rules rules_left_recursive) 5 0
           parser_0_left_recursive store_left_recursive 9 "a" store_left_recursive).
  - vm_compute. reflexivity.
  - reflexivity.
Defined.

(** ** Reading the input *)

Lemma index_absent (x : string) (lines : list string) :
  x ∉ lines → index x lines = Raise ValueError.
Proof.
  induction lines as [|l lines IH]; intros Hx; simpl; [done |].
  apply not_elem_of_cons in Hx as [Hne Hx].
  rewrite bool_decide_eq_false_2 by done. by rewrite IH.
Qed.

Lemma index_first (x : string) (pre post : list string) :
  x ∉ pre → index x (pre ++ x :: post) = Ok (length pre).
Proof.
  induction pre as [|l pre IH]; intros Hx; simpl.
  - by rewrite bool_decide_eq_true_2.
  - apply not_elem_of_cons in Hx as [Hne Hx].
    rewrite bool_decide_eq_false_2 by done. by rewrite IH.
Qed.

(** X12: on a file without an empty line the script stops with the
    [ValueError] of [index] before any rule is read, whatever the lines
    are. *)
Theorem script_without_empty_line (order : gset string → list string) (fuel : nat)
        (input_lines : list string) :
  "" ∉ input_lines →
  rules_of input_lines = Raise ValueError
  ∧ strings_of input_lines = Raise ValueError
  ∧ script order fuel input_lines = Raise ValueError.
Proof.
  intros H. unfold script, rules_of, strings_of. by rewrite (index_absent "" input_lines H).
Qed.

Lemma script_without_empty_line_witness :
  rules_of ["0: 1"; "1: x"] = Raise ValueError
  ∧ strings_of ["0: 1"; "1: x"] = Raise ValueError
  ∧ script elements 5 ["0: 1"; "1: x"] = Raise ValueError.
Proof.
  apply (script_without_empty_line elements 5 ["0: 1"; "1: x"]).
  intros H. repeat (apply elem_of_cons in H as [H | H]; [discriminate H |]).
  by apply elem_of_nil in H.
Defined.

(** X13: the file is cut at its first empty line: the rules are read
    from the lines before it, and the strings are all the lines after
    it, later empty lines among them. *)
Theorem input_cut_at_first_empty_line (rule_strings strings : list string) :
  "" ∉ rule_strings →
  rules_of (rule_strings ++ "" :: strings) = read_rules rule_strings ∅
  ∧ strings_of (rule_strings ++ "" :: strings) = Ok strings.
Proof.
  intros H. unfold rules_of, strings_of. rewrite (index_first "" rule_strings strings H).
  split.
  - by rewrite take_app_length.
  - f_equal. rewrite Nat.add_1_r.
    replace (rule_strings ++ "" :: strings)%list
      with ((rule_strings ++ [""]) ++ strings)%list by (by rewrite <- app_assoc).
    replace (S (length rule_strings)) with (length (rule_strings ++ [""])%list)
      by (rewrite length_app; simpl; lia).
    by rewrite drop_app_length.
Qed.

Lemma input_cut_at_first_empty_line_witness :
  rules_of (["0: 1 2"; "1: a"] ++ "" :: ["x"; ""; "y"]) = read_rules ["0: 1 2"; "1: a"] ∅
  ∧ strings_of (["0: 1 2"; "1: a"] ++ "" :: ["x"; ""; "y"]) = Ok ["x"; ""; "y"].
Proof.
  apply (input_cut_at_first_empty_line ["0: 1 2"; "1: a"] ["x"; ""; "y"]).
  intros H. repeat (apply elem_of_cons in H as [H | H]; [discriminate H |]).
  by apply elem_of_nil in H.
Defined.

Lemma read_rules_app (pre post : list string) :
  ∀ rules, read_rules (pre ++ post) rules
           = match read_rules pre rules with
             | Ok rules' => read_rules post rules'
             | Raise e => Raise e
             | OutOfFuel => OutOfFuel
             end.
Proof.
  induction pre as [|l pre IH]; intros rules; simpl; [done |].
  destruct (read_rule l) as [[n r] | e |]; [apply IH | done | done].
Qed.

Lemma read_rules_untouched (n : Z) (post : list string) :
  (∀ l r, l ∈ post → read_rule l ≠ Ok (n, r)) →
  ∀ rules rules', read_rules post rules = Ok rules' → rules' !! n = rules !! n.
Proof.
  induction post as [|l post IH]; intros Hpost rules rules' H; simpl in H.
  - by injection H as <-.
  - destruct (read_rule l) as [[m r] | e |] eqn:E; try done.
    rewrite (IH (λ l' r' Hl', Hpost l' r' (list_elem_of_further _ _ _ Hl')) _ _ H).
    apply lookup_insert_ne. intros ->. apply (Hpost l r); [by left | done].
Qed.

(** X14: of several lines that give the same rule number the last one
    counts: what the rules hold for [n] in the end is what the last line
    with the number [n] says. *)
Theorem last_rule_line_counts (pre post : list string) (line : string) (n : Z) (r : rule)
        (rules0 rules : gmap Z rule) :
  read_rules (pre ++ line :: post) rules0 = Ok rules →
  read_rule line = Ok (n, r) →
  (∀ l r', l ∈ post → read_rule l ≠ Ok (n, r')) →
  rules !! n = Some r.
Proof.
  intros H Hline Hpost. rewrite read_rules_app in H.
  destruct (read_rules pre rules0) as [rules1 | e |]; try done.
  simpl in H. rewrite Hline in H.
  rewrite (read_rules_untouched n post Hpost _ _ H). apply lookup_insert_eq.
Qed.

Lemma last_rule_line_counts_witness :
  (<[0%Z := Alternatives [[2%Z]]]> (<[1%Z := Alternatives [[0%Z]]]> ∅) : gmap Z rule) !! 0%Z
  = Some (Alternatives [[2%Z]]).
Proof.
  apply (last_rule_line_counts ["0: 1"] ["1: 0"] "0: 2" 0 (Alternatives [[2%Z]]) ∅).
  - vm_compute. reflexivity.
  - vm_compute. reflexivity.
  - intros l r' Hl. apply list_elem_of_singleton in Hl as ->. vm_compute. discriminate.
Defined.

(** X15: in the rules read from a file no list of options and no list
    of parts is empty, nor is one after rules 8 and 11 are replaced; so
    all that compiling them can raise, in part 1 or in part 2, is the
    [KeyError] of a rule that is not there. *)
Theorem rules_read_have_options (input_lines : list string) (rules : gmap Z rule) :
  rules_of input_lines = Ok rules →
  options_nonempty rules
  ∧ options_nonempty (part2_rules rules)
  ∧ ∀ fuel n σ e,
      (get_parser_p1 rules fuel n σ = Raise e → ∃ m, e = KeyError m ∧ rules !! m = None)
      ∧ (get_parser_part2 (part2_rules rules) fuel n σ = Raise e →
         ∃ m, e = KeyError m ∧ part2_rules rules !! m = None).
Proof.
  intros H. destruct (rules_of_nonempty input_lines rules H) as [H1 H2].
  split_and!; [done | done |]. intros fuel n σ e. split; intros He.
  - by destruct (get_parser_p1_raises rules fuel n σ e He) as [? | [_ ?]].
  - by destruct (get_parser_part2_raises (part2_rules rules) fuel n σ e He) as [? | [_ ?]].
Qed.

Lemma rules_read_have_options_witness :
  options_nonempty rules_rule_line
  ∧ options_nonempty (part2_rules rules_rule_line)
  ∧ ∀ fuel n σ e,
      (get_parser_p1 rules_rule_line fuel n σ = Raise e →
       ∃ m, e = KeyError m ∧ rules_rule_line !! m = None)
      ∧ (get_parser_part2 (part2_rules rules_rule_line) fuel n σ = Raise e →
         ∃ m, e = KeyError m ∧ part2_rules rules_rule_line !! m = None).
Proof.
  apply (rules_read_have_options file_rule_line rules_rule_line).
  vm_compute. reflexivity.
Defined.

(** ** The combinators *)

(** X16: where the left parser leaves nothing, [concat] leaves nothing
    and does not call the right parser at all: whatever the right parser
    would do or raise, the result is the empty set and the store is as
    the left parser left it. *)
Theorem concat_nothing_left (order : gset string → list string) (lhs rhs : matcher)
        (input : string) (σ σ' : store) (v : pyval) :
  (∀ X, order X ≡ₚ elements X) →
  lhs input σ = Ok (v, σ') → members v = ∅ →
  concat order lhs rhs input σ = Ok (PySet ∅, σ').
Proof.
  intros Horder Hl Hv. unfold concat, bind. rewrite Hl.
  assert (iter order v = []) as ->; [| done].
  destruct v as [X|]; simpl in *; [| done]. subst X.
  apply Permutation_nil_r. by rewrite Horder, elements_empty.
Qed.

Lemma concat_nothing_left_witness :
  concat elements (literal "a") (λ _ _, Raise TypeError) "b" empty_store
  = Ok (PySet ∅, empty_store).
Proof.
  apply (concat_nothing_left elements (literal "a") (λ _ _, Raise TypeError) "b"
           empty_store empty_store (PySet ∅)).
  - intros X. reflexivity.
  - reflexivity.
  - reflexivity.
Defined.

(** X17: two literals in a row are the literal of the two texts in a
    row. *)
Theorem concat_literals (order : gset string → list string) (a b : string)
        (input : string) (σ : store) :
  (∀ X, order X ≡ₚ elements X) →
  concat order (literal a) (literal b) input σ = literal (a +:+ b) input σ.
Proof.
  intros Horder.
  rewrite (concat_computes order Horder (literal a) (literal b) (literal_set a) (literal_set b)
             (literal_computes a) (literal_computes b)).
  rewrite literal_computes. do 3 f_equal. unfold then_set.
  apply set_eq. intros r. rewrite elem_of_set_bind, elem_of_literal_set. split.
  - intros (x & Hx%elem_of_literal_set & Hr%elem_of_literal_set). subst.
    by rewrite app_assoc_string.
  - intros ->. exists (b +:+ r). rewrite !elem_of_literal_set.
    split; [by rewrite app_assoc_string | done].
Qed.

Lemma concat_literals_witness :
  concat elements (literal "ab") (literal "c") "abcd" empty_store
  = literal ("ab" +:+ "c") "abcd" empty_store.
Proof.
  apply (concat_literals elements "ab" "c" "abcd" empty_store). intros X. reflexivity.
Defined.

(** ** When the compiler of part 1 comes back *)

(** X18: for a grammar without recursion in which every rule referred to
    is there and no list of options or of parts is empty, the compiler of
    part 1 comes back for every rule within a depth of the number of
    rules, raises nothing, leaves every table alone, and returns a closure
    made of [literal], [concat] and [alt] only. *)
Theorem get_parser_p1_returns (rules : gmap Z rule) (fuel : nat) (n : Z) :
  closed rules → acyclic rules → options_nonempty rules → is_Some (rules !! n) →
  size (dom rules) ≤ fuel →
  ∃ t, combinators_only t ∧ ∀ σ, get_parser_p1 rules fuel n σ = Ok (t, σ).
Proof.
  intros Hclosed Hacyclic Hnonempty Hn Hfuel.
  destruct (get_parser_p1_succeeds rules Hclosed Hacyclic Hnonempty fuel n ∅ Hn) as [t Ht].
  - intros v Hv. by apply not_elem_of_empty in Hv.
  - by rewrite difference_empty_L.
  - exists t. split; [| done].
    by destruct (get_parser_p1_plain rules fuel n empty_store t empty_store (Ht empty_store)).
Qed.

Lemma get_parser_p1_returns_witness :
  ∃ t, combinators_only t ∧ ∀ σ, get_parser_p1 rules_a_b 3 0 σ = Ok (t, σ).
Proof.
  apply (get_parser_p1_returns rules_a_b 3 0
           rules_a_b_closed rules_a_b_acyclic rules_a_b_nonempty).
  - by eexists.
  - vm_compute. lia.
Defined.
